(** * Tree-sitter frontend for C/C++ projects: a shallow embedding

    The development follows [frontend_c_cpp.py]: the syntax tree of the
    parser, the per-function wrapper [FunctionDefinition], the per-file
    walk of [CppSourceCodeFile], and the project-wide analyses of
    [CppProject] together with the module-level lookup
    [get_function_node] and its cache. *)

From Stdlib Require Import ZArith List String Ascii Bool Lia Sorted Permutation.
From stdpp Require Import gmap strings list fin_maps pretty.

Open Scope string_scope.
Open Scope Z_scope.

Set Warnings "-clear-no-such-hyp".

(** ** Python strings *)

Module Py.

(** [s.startswith(p)] *)
Definition startswith (s p : string) : bool := String.prefix p s.

(** reversal of a string, used for the right-to-left operations *)
Fixpoint rev_onto (s acc : string) : string :=
  match s with
  | EmptyString => acc
  | String c s' => rev_onto s' (String c acc)
  end.

Definition rev (s : string) : string := rev_onto s EmptyString.

(** [s.endswith(p)] *)
Definition endswith (s p : string) : bool := startswith (rev s) (rev p).

(** [sub in s] *)
Fixpoint contains (sub s : string) : bool :=
  startswith s sub ||
  match s with
  | EmptyString => false
  | String _ s' => contains sub s'
  end.

(** [s.split('::')]: [cur] holds the current piece, reversed. *)
Fixpoint split_onto (s cur : string) : list string :=
  match s with
  | EmptyString => [rev cur]
  | String ":" (String ":" rest) => rev cur :: split_onto rest EmptyString
  | String c rest => split_onto rest (String c cur)
  end.

Definition split (s : string) : list string := split_onto s EmptyString.

(** [s.split('::', 1)] *)
Fixpoint split1_onto (s cur : string) : list string :=
  match s with
  | EmptyString => [rev cur]
  | String ":" (String ":" rest) => [rev cur; rest]
  | String c rest => split1_onto rest (String c cur)
  end.

Definition split1 (s : string) : list string := split1_onto s EmptyString.

(** [s.rsplit('::')]: the same scan from the right end. *)
Definition rsplit (s : string) : list string :=
  List.rev (List.map rev (split (rev s))).

(** [s.rsplit('::', 1)] *)
Definition rsplit1 (s : string) : list string :=
  List.rev (List.map rev (split1 (rev s))).

(** [l[-1]] on a list of strings; [split] never returns the empty list. *)
Definition last (l : list string) : string := List.last l EmptyString.

(** ['::'.join(l)] *)
Fixpoint join (l : list string) : string :=
  match l with
  | [] => EmptyString
  | [x] => x
  | x :: l' => x ++ "::" ++ join l'
  end.

(** [s.replace(c, '')] for a one-character [c] *)
Fixpoint remove_char (c : ascii) (s : string) : string :=
  match s with
  | EmptyString => EmptyString
  | String d s' =>
      if Ascii.eqb c d then remove_char c s' else String d (remove_char c s')
  end.

(** [p * n] *)
Fixpoint repeat (p : string) (n : nat) : string :=
  match n with
  | O => EmptyString
  | S n' => p ++ repeat p n'
  end.

(** [ty in [t1, ..., tn]] *)
Definition mem (ty : string) (l : list string) : bool :=
  existsb (String.eqb ty) l.

(** truth value of a string *)
Definition truthy (s : string) : bool := negb (s =? EmptyString)%string.

(** [l[count:]] *)
Definition slice_from {A} (count : nat) (l : list A) : list A := drop count l.

End Py.

(** ** Exceptions and the state-and-error monad

    The Python code is written against mutable objects and lets exceptions
    propagate; an exception leaves the mutations made so far in place. *)

Inductive exn := UnicodeDecodeError | AttributeError | RecursionError.

Inductive res (A : Type) : Type :=
| Ok (a : A)
| Raise (e : exn).
Arguments Ok {A} a.
Arguments Raise {A} e.

Definition res_bind {A B} (r : res A) (k : A -> res B) : res B :=
  match r with
  | Ok a => k a
  | Raise e => Raise e
  end.

Definition M (S A : Type) : Type := S -> res A * S.

Definition ret {S A} (a : A) : M S A := fun s => (Ok a, s).
Definition raise {S A} (e : exn) : M S A := fun s => (Raise e, s).
Definition bind {S A B} (m : M S A) (k : A -> M S B) : M S B :=
  fun s => match m s with
           | (Ok a, s') => k a s'
           | (Raise e, s') => (Raise e, s')
           end.
Definition get {S} : M S S := fun s => (Ok s, s).
Definition put {S} (s : S) : M S unit := fun _ => (Ok tt, s).
Definition modify {S} (f : S -> S) : M S unit := fun s => (Ok tt, f s).
Definition lift {S A} (r : res A) : M S A := fun s => (r, s).

(** [try: m  except UnicodeDecodeError: h] *)
Definition try_except_decode {S A} (m : M S A) (h : M S A) : M S A :=
  fun s => match m s with
           | (Raise UnicodeDecodeError, s') => h s'
           | r => r
           end.

Declare Scope py_scope.
Delimit Scope py_scope with py.
Notation "x <- m ;; k" := (bind m (fun x => k))
  (at level 100, m at next level, right associativity) : py_scope.
Notation "m ;;; k" := (bind m (fun _ => k))
  (at level 100, right associativity) : py_scope.
Notation "x <~ r ;; k" := (res_bind r (fun x => k))
  (at level 100, r at next level, right associativity) : py_scope.

(** [for x in l: body x] *)
Fixpoint for_each {S A} (l : list A) (body : A -> M S unit) : M S unit :=
  match l with
  | [] => ret tt
  | x :: l' => bind (body x) (fun _ => for_each l' body)
  end.

(** ** Syntax nodes of the parser *)

(** [node.text] is a byte string; decoding it as UTF-8 may fail. *)
Inductive bytes := Utf8 (s : string) | Undecodable.

#[warnings="-register-all"]
Inductive Node : Type := mkNode {
  nid : N;                    (* node.id *)
  ntype : string;             (* node.type *)
  nfield : option string;     (* the field name of the node in its parent *)
  is_named : bool;            (* node.is_named *)
  ntext : option bytes;       (* node.text *)
  start_row : Z;              (* node.start_point.row *)
  end_row : Z;                (* node.end_point.row *)
  end_byte : Z;               (* node.byte_range[1] *)
  children : list Node        (* node.children *)
}.

Section NodeInduction.
Variable P : Node -> Prop.
Hypothesis step : forall n, Forall P (children n) -> P n.

Fixpoint Node_rect' (n : Node) : P n :=
  step n
    ((fix go (l : list Node) : Forall P l :=
        match l with
        | [] => @List.Forall_nil _ P
        | c :: l' => @List.Forall_cons _ P c l' (Node_rect' c) (go l')
        end) (children n)).
End NodeInduction.

(** truth value of [node.text]: present and non-empty *)
Definition text_truthy (n : Node) : bool :=
  match ntext n with
  | Some (Utf8 s) => Py.truthy s
  | Some Undecodable => true
  | None => false
  end.

(** [node.text.decode()] *)
Definition decode (n : Node) : res string :=
  match ntext n with
  | Some (Utf8 s) => Ok s
  | Some Undecodable => Raise UnicodeDecodeError
  | None => Raise AttributeError
  end.

(** [node.child_by_field_name(f)] *)
Definition child_by_field_name (f : string) (n : Node) : option Node :=
  List.find (fun c => match nfield c with
                      | Some g => (g =? f)%string
                      | None => false
                      end) (children n).

(** The nodes reached from [n] by following field [f] repeatedly:
    [n], [n.f], [n.f.f], ... *)
Fixpoint field_chain (f : string) (n : Node) : list Node :=
  n :: (fix first (l : list Node) : list Node :=
          match l with
          | [] => []
          | c :: l' =>
              if match nfield c with
                 | Some g => (g =? f)%string
                 | None => false
                 end
              then field_chain f c
              else first l'
          end) (children n).

(** all nodes of the subtree, parents before children *)
Fixpoint preorder (n : Node) : list Node :=
  n :: (fix go (l : list Node) : list Node :=
          match l with
          | [] => []
          | c :: l' => (preorder c ++ go l')%list
          end) (children n).

(** [lang.query('( ty ) @x').captures(n)]: the nodes of kind [ty] in the
    subtree of [n]. *)
Definition captures (ty : string) (n : Node) : list Node :=
  List.filter (fun c => (ntype c =? ty)%string) (preorder n).

(** ** FunctionDefinition: wrapper for a function definition *)

Record AssertStmt := mkAssertStmt {
  condition : string;
  assert_source_file : string;
  assert_line_start : Z;
  assert_line_end : Z
}.

Record FunctionDefinition := mkFunctionDefinition {
  root : Node;
  parent_source : string;          (* self.parent_source.source_file *)
  namespace_or_class : string;
  valid : bool;
  start_line : Z;
  end_line : Z;
  name : string;
  complexity : Z;
  icount : Z;
  bbcount : Z;
  arg_names : list string;
  arg_types : list string;
  return_type : string;
  signature : string;              (* self.sig *)
  function_uses : Z;
  function_depth : Z;
  base_callsites : list (string * Z);
  detailed_callsites : list (string * string);   (* 'Src', 'Dst' *)
  var_map : gmap string string;
  depth : Z;
  assert_stmts : list AssertStmt
}.

(** assignments to the attributes that change after construction *)
Definition set_base_callsites (v : list (string * Z)) (f : FunctionDefinition) :=
  mkFunctionDefinition (root f) (parent_source f) (namespace_or_class f)
    (valid f) (start_line f) (end_line f) (name f) (complexity f) (icount f)
    (bbcount f) (arg_names f) (arg_types f) (return_type f) (signature f)
    (function_uses f) (function_depth f) v (detailed_callsites f) (var_map f)
    (depth f) (assert_stmts f).

Definition set_detailed_callsites (v : list (string * string))
    (f : FunctionDefinition) :=
  mkFunctionDefinition (root f) (parent_source f) (namespace_or_class f)
    (valid f) (start_line f) (end_line f) (name f) (complexity f) (icount f)
    (bbcount f) (arg_names f) (arg_types f) (return_type f) (signature f)
    (function_uses f) (function_depth f) (base_callsites f) v (var_map f)
    (depth f) (assert_stmts f).

Definition set_var_map (v : gmap string string) (f : FunctionDefinition) :=
  mkFunctionDefinition (root f) (parent_source f) (namespace_or_class f)
    (valid f) (start_line f) (end_line f) (name f) (complexity f) (icount f)
    (bbcount f) (arg_names f) (arg_types f) (return_type f) (signature f)
    (function_uses f) (function_depth f) (base_callsites f)
    (detailed_callsites f) v (depth f) (assert_stmts f).

Definition set_depth (v : Z) (f : FunctionDefinition) :=
  mkFunctionDefinition (root f) (parent_source f) (namespace_or_class f)
    (valid f) (start_line f) (end_line f) (name f) (complexity f) (icount f)
    (bbcount f) (arg_names f) (arg_types f) (return_type f) (signature f)
    (function_uses f) (function_depth f) (base_callsites f)
    (detailed_callsites f) (var_map f) v (assert_stmts f).

(** the kinds counted by [_process_complexity] *)
Definition branch_nodes : list string :=
  [ "if_statement"; "switch_statement"; "do_statement";
    "while_statement"; "for_statement"; "for_range_loop";
    "try_statement"; "seh_try_statement"; "throw_statement";
    "goto_statement"; "co_return_statement"; "co_yield_statement";
    "break_statement"; "continue_statement"; "&&"; "||" ].

(** the declarator kinds at which the search for a parameter or variable
    name stops *)
Definition declarator_kinds : list string :=
  [ "identifier"; "qualified_identifier"; "pointer_declarator";
    "array_declarator"; "reference_declarator" ].

Fixpoint _traverse_node_complexity (node : Node) : Z :=
  (if Py.mem (ntype node) branch_nodes then 1 else 0) +
  (fix items (l : list Node) : Z :=
     match l with
     | [] => 0
     | item :: l' => _traverse_node_complexity item + items l'
     end) (children node).

Fixpoint _traverse_node_instr_count (node : Node) : Z :=
  (if Py.contains "statement" (ntype node) then 1 else 0) +
  (fix items (l : list Node) : Z :=
     match l with
     | [] => 0
     | item :: l' => _traverse_node_instr_count item + items l'
     end) (children node).

(** one loop of [_extract_pointer_array_from_type], run on the declarator
    chain that starts at the current node: the number of layers of kind
    [ty] and the chain that starts at the node where the loop stops *)
Fixpoint count_layers (ty : string) (chain : list Node) : nat * list Node :=
  match chain with
  | [] => (O, [])
  | n :: rest =>
      if (ntype n =? ty)%string then
        match rest with
        | [] => (1%nat, chain)
        | _ :: _ => let (k, r) := count_layers ty rest in (S k, r)
        end
      else (O, chain)
  end.

Definition _extract_pointer_array_from_type (param_name : Node)
    : nat * nat * Node :=
  let (pointer_count, c1) :=
    count_layers "pointer_declarator" (field_chain "declarator" param_name) in
  let (array_count, c2) := count_layers "array_declarator" c1 in
  (pointer_count, array_count, List.hd param_name c2).

(** [while x is not None and x.type not in [...]: x = x.declarator] *)
Definition skip_to_declarator (start : option Node) : option Node :=
  match start with
  | None => None
  | Some n =>
      List.find (fun c => Py.mem (ntype c) declarator_kinds)
                (field_chain "declarator" n)
  end.

Module FunctionDefinitionInit.

Local Open Scope py_scope.

(** the attribute values set by [__init__] before
    [_extract_information] runs *)
Definition initial (root : Node) (source_file namespace : string)
    : FunctionDefinition :=
  {| root := root;
     parent_source := source_file;
     namespace_or_class := namespace;
     valid := true;
     start_line := start_row root + 1;
     end_line := end_row root + 1;
     name := EmptyString;
     complexity := 0;
     icount := 0;
     bbcount := 0;
     arg_names := [];
     arg_types := [];
     return_type := EmptyString;
     signature := EmptyString;
     function_uses := 0;
     function_depth := 0;
     base_callsites := [];
     detailed_callsites := [];
     var_map := ∅;
     depth := -1;
     assert_stmts := [] |}.

(** parameters of a macro function: the token text, or [arg<idx>] *)
Fixpoint macro_params (idx : nat) (l : list Node) : res (list string) :=
  match l with
  | [] => Ok []
  | param :: l' =>
      param_name <~ (if text_truthy param then decode param
                     else Ok ("arg" ++ pretty idx)) ;;
      rest <~ macro_params (S idx) l' ;;
      Ok (param_name :: rest)
  end.

(** [for decl in child.children] inside a [function_declarator] *)
Fixpoint scan_function_declarator (l : list Node)
    (param_list_node : option Node) : res (option Node) :=
  match l with
  | [] => Ok param_list_node
  | decl :: l' =>
      if Py.contains "identifier" (ntype decl) then
        _ <~ decode decl ;; scan_function_declarator l' param_list_node
      else if (ntype decl =? "parameter_list")%string then
        scan_function_declarator l' (Some decl)
      else scan_function_declarator l' param_list_node
  end.

(** [for child in name_node.children] *)
Fixpoint scan_declarator_children (l : list Node)
    (param_list_node : option Node) : res (option Node) :=
  match l with
  | [] => Ok param_list_node
  | child :: l' =>
      if Py.contains "identifier" (ntype child) then
        _ <~ decode child ;; scan_declarator_children l' param_list_node
      else if (ntype child =? "function_declarator")%string then
        p <~ scan_function_declarator (children child) param_list_node ;;
        scan_declarator_children l' p
      else if (ntype child =? "parameter_list")%string then
        scan_declarator_children l' (Some child)
      else scan_declarator_children l' param_list_node
  end.

(** the name of a class or namespace parent, prepended to [full_name] *)
Definition prepend_scope (parent : Node) (full_name : string) : res string :=
  match child_by_field_name "name" parent with
  | Some nm => t <~ decode nm ;; Ok (t ++ "::" ++ full_name)
  | None => Ok full_name
  end.

(** the walk over [tmp_root.parent], nearest parent first *)
Fixpoint scope_from_parents (ancestors : list Node) (full_name : string)
    : res string :=
  match ancestors with
  | [] => Ok full_name
  | new_parent :: rest =>
      full_name <~ (if (ntype new_parent =? "class_specifier")%string
                    then prepend_scope new_parent full_name
                    else Ok full_name) ;;
      full_name <~ (if (ntype new_parent =? "namespace_definition")%string
                    then prepend_scope new_parent full_name
                    else Ok full_name) ;;
      scope_from_parents rest full_name
  end.

(** [for child in tmp_node.children] of a [reference_declarator] *)
Fixpoint reference_children (l : list Node) (tmp_name : string)
    : res string :=
  match l with
  | [] => Ok tmp_name
  | child :: l' =>
      if (ntype child =? "function_declarator")%string then
        match child_by_field_name "declarator" child with
        | None => Raise AttributeError
        | Some d =>
            tmp_name <~ (if (ntype d =? "identifier")%string
                         then decode d else Ok tmp_name) ;;
            reference_children l' tmp_name
        end
      else reference_children l' tmp_name
  end.

(** the loop that follows [tmp_node.child_by_field_name('declarator')] *)
Fixpoint walk_declarators (chain : list Node)
    (tmp_name scope_to_add : string) : res (string * string) :=
  match chain with
  | [] => Ok (tmp_name, scope_to_add)
  | tmp_node :: rest =>
      tmp_name <~ (if (ntype tmp_node =? "reference_declarator")%string
                   then reference_children (children tmp_node) tmp_name
                   else Ok tmp_name) ;;
      scope_to_add <~ match child_by_field_name "scope" tmp_node with
                      | Some sc => t <~ decode sc ;; Ok (t ++ "::")
                      | None => Ok scope_to_add
                      end ;;
      if (ntype tmp_node =? "identifier")%string then
        t <~ decode tmp_node ;; Ok (t, scope_to_add)
      else if (ntype tmp_node =? "field_identifier")%string then
        t <~ decode tmp_node ;; Ok (t, scope_to_add)
      else
        tmp_name <~ match child_by_field_name "name" tmp_node with
                    | Some nm => if (ntype nm =? "identifier")%string
                                 then decode nm else Ok tmp_name
                    | None => Ok tmp_name
                    end ;;
        walk_declarators rest tmp_name scope_to_add
  end.

(** [for param in param_list_node.children] *)
Fixpoint scan_params (l : list Node)
    (acc : list string * list string * gmap string string)
    : res (list string * list string * gmap string string) :=
  match l with
  | [] => Ok acc
  | param :: l' =>
      if (ntype param =? "parameter_declaration")%string then
        let param_type := child_by_field_name "type" param in
        let param_name := child_by_field_name "declarator" param in
        match param_type, param_name with
        | None, None => scan_params l' acc
        | _, _ =>
            match skip_to_declarator param_name with
            | None => scan_params l' acc
            | Some param_name =>
                let '(pcount, acount, param_name) :=
                  _extract_pointer_array_from_type param_name in
                match param_type with
                | None => Raise AttributeError
                | Some param_type =>
                    ty <~ decode param_type ;;
                    nm <~ decode param_name ;;
                    let '(names, types, vars) := acc in
                    let arg_type :=
                      ty ++ Py.repeat "*" pcount ++ Py.repeat "[]" acount in
                    let arg_name := Py.remove_char "&" nm in
                    scan_params l'
                      ((names ++ [arg_name])%list,
                       (types ++ [arg_type])%list,
                       <[arg_name := arg_type]> vars)
                end
            end
        end
      else scan_params l' acc
  end.

(** [_process_assert_stmts] *)
Fixpoint scan_asserts (source_file : string) (call_exprs : list Node)
    : res (list AssertStmt) :=
  match call_exprs with
  | [] => Ok []
  | call_expr :: l' =>
      let args := child_by_field_name "arguments" call_expr in
      here <~ match child_by_field_name "function" call_expr with
              | None => Ok []
              | Some func_call =>
                  t <~ decode func_call ;;
                  if (t =? "assert")%string then
                    match args with
                    | None => Raise AttributeError
                    | Some args =>
                        c <~ decode args ;;
                        Ok [mkAssertStmt c source_file
                              (start_row call_expr) (end_row call_expr)]
                    end
                  else Ok []
              end ;;
      rest <~ scan_asserts source_file l' ;;
      Ok (here ++ rest)%list
  end.

Definition _process_complexity (self : FunctionDefinition) : Z :=
  complexity self + _traverse_node_complexity (root self).

Definition _process_icount (self : FunctionDefinition) : Z :=
  icount self + _traverse_node_instr_count (root self).

Definition _process_bbcount (self : FunctionDefinition) : Z :=
  1 + Z.of_nat (List.length (captures "if_statement" (root self)))
    + Z.of_nat (List.length (captures "case_statement" (root self))).

Definition _process_assert_stmts (self : FunctionDefinition)
    : res (list AssertStmt) :=
  found <~ scan_asserts (parent_source self)
             (captures "call_expression" (root self)) ;;
  Ok (assert_stmts self ++ found)%list.

(** the macro-function branch of [_extract_information] *)
Definition extract_macro (self : FunctionDefinition) : res FunctionDefinition :=
  let invalid :=
    mkFunctionDefinition (root self) (parent_source self)
      (namespace_or_class self) false (start_line self) (end_line self)
      (name self) (complexity self) (icount self) (bbcount self)
      (arg_names self) (arg_types self) (return_type self) (signature self)
      (function_uses self) (function_depth self) (base_callsites self)
      (detailed_callsites self) (var_map self) (depth self)
      (assert_stmts self) in
  match child_by_field_name "name" (root self),
        child_by_field_name "parameters" (root self),
        child_by_field_name "value" (root self) with
  | Some name_node, Some param_node, Some def_node =>
      if text_truthy name_node && text_truthy param_node
         && text_truthy def_node
      then
        nm <~ decode name_node ;;
        params <~ macro_params O (children param_node) ;;
        ptext <~ decode param_node ;;
        Ok (mkFunctionDefinition (root self) (parent_source self)
              (namespace_or_class self) (valid self) (start_line self)
              (end_line self) nm 1 1 1
              (arg_names self ++ params)%list
              (arg_types self ++ List.map (fun _ => "auto") params)%list
              "auto" (nm ++ ptext)
              (function_uses self) (function_depth self)
              (base_callsites self) (detailed_callsites self)
              (var_map self) (depth self) (assert_stmts self))
      else Ok invalid
  | _, _, _ => Ok invalid
  end.

(** the function-definition branch of [_extract_information];
    [ancestors] are the parents of the root, nearest first *)
Definition extract_function (ancestors : list Node)
    (self : FunctionDefinition) : res FunctionDefinition :=
  match child_by_field_name "declarator" (root self) with
  | None => Raise AttributeError
  | Some name_node =>
      sig <~ decode name_node ;;
      param_list_node <~ scan_declarator_children (children name_node) None ;;
      full_name <~ scope_from_parents ancestors EmptyString ;;
      walked <~ walk_declarators (field_chain "declarator" name_node)
                  EmptyString EmptyString ;;
      let (tmp_name, scope_to_add) := walked : string * string in
      let full_name :=
        if Py.truthy tmp_name then full_name ++ scope_to_add ++ tmp_name
        else sig in
      let ns :=
        if Py.contains "::" full_name
        then List.hd EmptyString (Py.rsplit1 full_name)
        else namespace_or_class self in
      ret_ty <~ match child_by_field_name "type" (root self) with
                | Some type_node => decode type_node
                | None => Ok "void"
                end ;;
      let sig := ret_ty ++ " " ++ sig in
      params <~ match param_list_node with
                | Some pl =>
                    scan_params (children pl)
                      (arg_names self, arg_types self, var_map self)
                | None => Ok (arg_names self, arg_types self, var_map self)
                end ;;
      let '(names, types, vars) := params in
      let self :=
        mkFunctionDefinition (root self) (parent_source self) ns
          (valid self) (start_line self) (end_line self) full_name
          (complexity self) (icount self) (bbcount self) names types
          ret_ty sig (function_uses self) (function_depth self)
          (base_callsites self) (detailed_callsites self) vars
          (depth self) (assert_stmts self) in
      let cx := _process_complexity self in
      let ic := _process_icount self in
      let bb := _process_bbcount self in
      asserts <~ _process_assert_stmts self ;;
      Ok (mkFunctionDefinition (root self) (parent_source self)
            (namespace_or_class self) (valid self) (start_line self)
            (end_line self) (name self) cx ic bb (arg_names self)
            (arg_types self) (return_type self) (signature self)
            (function_uses self) (function_depth self)
            (base_callsites self) (detailed_callsites self)
            (var_map self) (depth self) asserts)
  end.

Definition _extract_information (ancestors : list Node)
    (self : FunctionDefinition) : res FunctionDefinition :=
  if (ntype (root self) =? "preproc_function_def")%string
  then extract_macro self
  else extract_function ancestors self.

(** [FunctionDefinition(root, tree_sitter_lang, source_code, namespace)];
    the parents of [root] in the tree are passed as [ancestors] *)
Definition new (root : Node) (ancestors : list Node)
    (source_file namespace : string) : res FunctionDefinition :=
  _extract_information ancestors (initial root source_file namespace).

End FunctionDefinitionInit.

(** ** CppSourceCodeFile: file-specific information *)

Record Pos := mkPos {
  pos_source_file : string;
  line_start : Z;
  line_end : Z
}.

(** the dictionaries stored in the type catalogs, by ['item_type'] *)
Inductive TypeEntry :=
| EnumDef (nm : string) (enumerators : list (string * option string)) (pos : Pos)
| PreprocDef (nm type_or_value : string) (pos : Pos)
| StructDef (nm : string) (fields : list (string * string)) (pos : Pos)
| UnionDef (nm : string) (fields : list (string * string)) (pos : Pos)
| TypedefDef (nm : string) (ty : option string) (pos : Pos).

(** one entry of [macro_blocks]; a condition is the pair of its ['type']
    and ['condition'] *)
Record MacroBlock := mkMacroBlock {
  conditions : list (string * string);
  block_pos : Pos
}.

(** [FunctionDefinition] objects are mutable and shared between the file
    that owns them, the project's function list and the lookup cache: they
    live in a heap and are referred to by their index in it. *)
Definition Heap := list FunctionDefinition.
Definition ref := nat.

Record CppSourceCodeFile := mkCppSourceCodeFile {
  source_file : string;
  func_defs : list ref;
  struct_defs : list TypeEntry;
  union_defs : list TypeEntry;
  enum_defs : list TypeEntry;
  preproc_defs : list TypeEntry;
  typedefs : list TypeEntry;
  includes : gset string;
  macro_blocks : list MacroBlock;
  full_type_defs : list TypeEntry
}.

Module CppSourceCodeFileM.

Local Open Scope py_scope.

(** the state of the methods that build a file: the file object and the
    heap in which its function objects are allocated *)
Definition St : Type := CppSourceCodeFile * Heap.

Definition self : M St CppSourceCodeFile := fun s => (Ok (fst s), s).

Definition append_func_def (func : FunctionDefinition) : M St unit :=
  fun '(f, h) =>
    (Ok tt,
     (mkCppSourceCodeFile (source_file f) (func_defs f ++ [List.length h])%list
        (struct_defs f) (union_defs f) (enum_defs f) (preproc_defs f)
        (typedefs f) (includes f) (macro_blocks f) (full_type_defs f),
      (h ++ [func])%list)).

Definition append_struct_def (d : TypeEntry) : M St unit :=
  fun '(f, h) =>
    (Ok tt,
     (mkCppSourceCodeFile (source_file f) (func_defs f)
        (struct_defs f ++ [d])%list (union_defs f) (enum_defs f)
        (preproc_defs f) (typedefs f) (includes f) (macro_blocks f)
        (full_type_defs f), h)).

Definition append_union_def (d : TypeEntry) : M St unit :=
  fun '(f, h) =>
    (Ok tt,
     (mkCppSourceCodeFile (source_file f) (func_defs f) (struct_defs f)
        (union_defs f ++ [d])%list (enum_defs f) (preproc_defs f)
        (typedefs f) (includes f) (macro_blocks f) (full_type_defs f), h)).

Definition append_enum_def (d : TypeEntry) : M St unit :=
  fun '(f, h) =>
    (Ok tt,
     (mkCppSourceCodeFile (source_file f) (func_defs f) (struct_defs f)
        (union_defs f) (enum_defs f ++ [d])%list (preproc_defs f)
        (typedefs f) (includes f) (macro_blocks f) (full_type_defs f), h)).

Definition append_preproc_def (d : TypeEntry) : M St unit :=
  fun '(f, h) =>
    (Ok tt,
     (mkCppSourceCodeFile (source_file f) (func_defs f) (struct_defs f)
        (union_defs f) (enum_defs f) (preproc_defs f ++ [d])%list
        (typedefs f) (includes f) (macro_blocks f) (full_type_defs f), h)).

Definition append_typedef (d : TypeEntry) : M St unit :=
  fun '(f, h) =>
    (Ok tt,
     (mkCppSourceCodeFile (source_file f) (func_defs f) (struct_defs f)
        (union_defs f) (enum_defs f) (preproc_defs f)
        (typedefs f ++ [d])%list (includes f) (macro_blocks f)
        (full_type_defs f), h)).

Definition add_include (p : string) : M St unit :=
  fun '(f, h) =>
    (Ok tt,
     (mkCppSourceCodeFile (source_file f) (func_defs f) (struct_defs f)
        (union_defs f) (enum_defs f) (preproc_defs f) (typedefs f)
        ({[p]} ∪ includes f) (macro_blocks f) (full_type_defs f), h)).

Definition append_macro_block (b : MacroBlock) : M St unit :=
  fun '(f, h) =>
    (Ok tt,
     (mkCppSourceCodeFile (source_file f) (func_defs f) (struct_defs f)
        (union_defs f) (enum_defs f) (preproc_defs f) (typedefs f)
        (includes f) (macro_blocks f ++ [b])%list (full_type_defs f), h)).

Definition node_pos (f : CppSourceCodeFile) (n : Node) : Pos :=
  mkPos (source_file f) (start_row n) (end_row n).

(** [_process_function_node] *)
Definition _process_function_node (node : Node) (ancestors : list Node)
    (namespace : string) : M St unit :=
  f <- self ;;
  func <- lift (FunctionDefinitionInit.new node ancestors (source_file f)
                  namespace) ;;
  if valid func then append_func_def func else ret tt.

(** [if namespace.startswith('::'): namespace = namespace[2:]] *)
Definition strip_leading_scope (namespace : string) : string :=
  match namespace with
  | String ":" (String ":" rest) => rest
  | _ => namespace
  end.

(** the components of a nested namespace specifier *)
Fixpoint nested_namespace (l : list Node) (namespace : string) : res string :=
  match l with
  | [] => Ok namespace
  | child :: l' =>
      if negb (is_named child) || negb (text_truthy child) then
        nested_namespace l' namespace
      else
        t <~ decode child ;;
        nested_namespace l' (strip_leading_scope (namespace ++ "::" ++ t))
  end.

(** the scope in which [_process_namespace_node] walks the block *)
Definition extended_namespace (node : Node) (namespace : string) : res string :=
  match child_by_field_name "name" node with
  | Some new_namespace =>
      if (ntype new_namespace =? "nested_namespace_specifier")%string then
        nested_namespace (children new_namespace) namespace
      else if (ntype new_namespace =? "namespace_identifier")%string then
        if text_truthy new_namespace then
          t <~ decode new_namespace ;;
          Ok (strip_leading_scope (namespace ++ "::" ++ t))
        else Ok namespace
      else Ok namespace
  | None => Ok namespace
  end.

(** [_process_namespace_node]; [process_tree_node] is
    [self.process_tree(node, _)], the walk of the block itself *)
Definition _process_namespace_node (process_tree_node : string -> M St unit)
    (node : Node) (namespace : string) : M St unit :=
  namespace <- lift (extended_namespace node namespace) ;;
  process_tree_node namespace.

(** the enumerators found by the query in an enum body *)
Fixpoint scan_enumerators (l : list Node)
    : res (list (string * option string)) :=
  match l with
  | [] => Ok []
  | enumerator :: l' =>
      match child_by_field_name "name" enumerator with
      | Some enum_item_name =>
          if text_truthy enum_item_name then
            nm <~ decode enum_item_name ;;
            value <~ match child_by_field_name "value" enumerator with
                     | Some v => if text_truthy v
                                 then t <~ decode v ;; Ok (Some t)
                                 else Ok None
                     | None => Ok None
                     end ;;
            rest <~ scan_enumerators l' ;;
            Ok ((nm, value) :: rest)
          else scan_enumerators l'
      | None => scan_enumerators l'
      end
  end.

Definition _process_enum (enum : Node) (namespace : string) : M St unit :=
  match child_by_field_name "name" enum, child_by_field_name "body" enum with
  | Some enum_name_field, Some enum_body =>
      if text_truthy enum_name_field then
        enumerator_list <- lift (scan_enumerators
                                   (captures "enumerator" enum_body)) ;;
        nm <- lift (decode enum_name_field) ;;
        f <- self ;;
        append_enum_def (EnumDef nm enumerator_list (node_pos f enum))
      else ret tt
  | _, _ => ret tt
  end.

Definition _process_macro_definition (preproc : Node) (namespace : string)
    : M St unit :=
  match child_by_field_name "name" preproc,
        child_by_field_name "value" preproc with
  | Some preproc_name_field, Some preproc_body_field =>
      if text_truthy preproc_name_field && text_truthy preproc_body_field
      then
        nm <- lift (decode preproc_name_field) ;;
        v <- lift (decode preproc_body_field) ;;
        f <- self ;;
        append_preproc_def (PreprocDef nm v (node_pos f preproc))
      else ret tt
  | _, _ => ret tt
  end.

(** the name of a struct or union: its own, or the declarator of the
    declaration or type definition around an anonymous one *)
Definition record_name (node : Node) (parent : option Node)
    : res (option string) :=
  let named :=
    match child_by_field_name "name" node with
    | Some nm => if text_truthy nm then Some nm else None
    | None => None
    end in
  match named with
  | Some nm => t <~ decode nm ;; Ok (Some t)
  | None =>
      let declarator :=
        match parent with
        | Some p =>
            if Py.mem (ntype p) ["declaration"; "type_definition"]
            then child_by_field_name "declarator" p else None
        | None => None
        end in
      match declarator with
      | Some d => if text_truthy d then t <~ decode d ;; Ok (Some t)
                  else Ok None
      | None => Ok None
      end
  end.

(** the field declarations of a struct or union body *)
Fixpoint scan_fields (l : list Node) : res (list (string * string)) :=
  match l with
  | [] => Ok []
  | child :: l' =>
      match child_by_field_name "type" child,
            child_by_field_name "declarator" child with
      | Some child_name, Some child_type =>
          if text_truthy child_name && text_truthy child_type then
            if (ntype child =? "field_declaration")%string then
              ty <~ decode child_name ;;
              nm <~ decode child_type ;;
              rest <~ scan_fields l' ;;
              Ok ((ty, nm) :: rest)
            else scan_fields l'
          else scan_fields l'
      | _, _ => scan_fields l'
      end
  end.

Definition _process_struct (struct : Node) (parent : option Node)
    (namespace : string) : M St unit :=
  match child_by_field_name "body" struct with
  | None => ret tt
  | Some struct_body_field =>
      struct_name <- lift (record_name struct parent) ;;
      match struct_name with
      | None => ret tt
      | Some struct_name =>
          fields <- lift (scan_fields (children struct_body_field)) ;;
          f <- self ;;
          append_struct_def (StructDef struct_name fields (node_pos f struct))
      end
  end.

Definition _process_union (union : Node) (parent : option Node)
    (namespace : string) : M St unit :=
  match child_by_field_name "body" union with
  | None => ret tt
  | Some union_body_field =>
      union_name <- lift (record_name union parent) ;;
      match union_name with
      | None => ret tt
      | Some union_name =>
          fields <- lift (scan_fields (children union_body_field)) ;;
          f <- self ;;
          append_union_def (UnionDef union_name fields (node_pos f union))
      end
  end.

Definition _process_typedef (typedef : Node) (namespace : string)
    : M St unit :=
  match child_by_field_name "declarator" typedef with
  | None => ret tt
  | Some typedef_declarator_node =>
      if text_truthy typedef_declarator_node then
        nm <- lift (decode typedef_declarator_node) ;;
        match child_by_field_name "type" typedef with
        | None => ret tt
        | Some typedef_type =>
            if text_truthy typedef_type then
              if Py.mem (ntype typedef_type)
                   ["struct_specifier"; "union_specifier"]
              then ret tt
              else
                ty <- (if Py.mem (ntype typedef_type)
                            ["primitive_type"; "sized_type_specifier"]
                       then t <- lift (decode typedef_type) ;; ret (Some t)
                       else ret None) ;;
                f <- self ;;
                append_typedef (TypedefDef nm ty (node_pos f typedef))
            else ret tt
        end
      else ret tt
  end.

Definition double_quote : ascii := Ascii.ascii_of_nat 34.

Definition _process_include (include : Node) (namespace : string)
    : M St unit :=
  match child_by_field_name "path" include with
  | None => ret tt
  | Some include_path_node =>
      if text_truthy include_path_node then
        t <- lift (decode include_path_node) ;;
        add_include
          (Py.remove_char "<" (Py.remove_char ">" (Py.remove_char double_quote t)))
      else ret tt
  end.

End CppSourceCodeFileM.

Module MacroBlocks.

Import CppSourceCodeFileM.
Local Open Scope py_scope.

(** the reversal of the last condition on entering an [#elif] or [#else]
    branch *)
Definition negate (c : string * string) : string * string :=
  if (fst c =? "ifdef")%string then ("ifndef", snd c)
  else if (fst c =? "ifndef")%string then ("ifdef", snd c)
  else ("not", snd c).

Fixpoint negate_last (conditions : list (string * string))
    : list (string * string) :=
  match conditions with
  | [] => []
  | [c] => [negate c]
  | c :: rest => c :: negate_last rest
  end.

(** the condition that the branch [macro] adds, if any; [None] is the
    early return on an invalid macro *)
Definition branch_condition (macro : Node)
    (conditions : list (string * string))
    : res (option (list (string * string))) :=
  if (ntype macro =? "preproc_ifdef")%string then
    match child_by_field_name "name" macro with
    | None => Ok None
    | Some var_name =>
        if text_truthy var_name then
          ty <~ (if text_truthy macro then
                   t <~ decode macro ;;
                   Ok (if Py.startswith t "#ifdef" then "ifdef" else "ifndef")
                 else Ok "ifndef") ;;
          v <~ decode var_name ;;
          Ok (Some (conditions ++ [(ty, v)])%list)
        else Ok None
    end
  else if Py.mem (ntype macro) ["preproc_if"; "preproc_elif"] then
    match child_by_field_name "condition" macro with
    | None => Ok None
    | Some condition =>
        if text_truthy condition then
          c <~ decode condition ;;
          Ok (Some (conditions ++ [("if", c)])%list)
        else Ok None
    end
  else Ok (Some conditions).

(** [_process_macro_block], run on the chain [macro], [macro.alternative],
    [macro.alternative.alternative], ... *)
Fixpoint process_branches (chain : list Node)
    (conditions : list (string * string)) : M St unit :=
  match chain with
  | [] => ret tt
  | macro :: rest =>
      let conditions := negate_last conditions in
      added <- lift (branch_condition macro conditions) ;;
      match added with
      | None => ret tt
      | Some conditions =>
          f <- self ;;
          match rest with
          | alternative :: _ =>
              append_macro_block
                (mkMacroBlock conditions
                   (mkPos (source_file f) (start_row macro)
                      (start_row alternative))) ;;;
              process_branches rest conditions
          | [] =>
              append_macro_block
                (mkMacroBlock conditions
                   (mkPos (source_file f) (start_row macro) (end_row macro)))
          end
      end
  end.

Definition _process_macro_block (macro : Node) (namespace : string)
    (conditions : list (string * string)) : M St unit :=
  process_branches (field_chain "alternative" macro) conditions.

End MacroBlocks.

Module TreeWalk.

Import CppSourceCodeFileM MacroBlocks.
Local Open Scope py_scope.

(** the handler that [process_tree] selects for [child], a child of
    [node]; [walk] is [self.process_tree(child, _)] *)
Definition dispatch (walk : string -> M St unit)
    (node : Node) (ancestors : list Node) (child : Node)
    (namespace : string) : M St unit :=
  if Py.mem (ntype child) ["function_definition"; "preproc_function_def"] then
    _process_function_node child (node :: ancestors) namespace
  else if (ntype child =? "namespace_definition")%string then
    _process_namespace_node walk child namespace
  else if (ntype child =? "enum_specifier")%string then
    _process_enum child namespace
  else if (ntype child =? "preproc_def")%string then
    _process_macro_definition child namespace
  else if (ntype child =? "struct_specifier")%string then
    _process_struct child (Some node) namespace
  else if (ntype child =? "union_specifier")%string then
    _process_union child (Some node) namespace
  else if (ntype child =? "type_definition")%string then
    _process_typedef child namespace
  else if (ntype child =? "preproc_include")%string then
    _process_include child namespace
  else if Py.mem (ntype child) ["preproc_ifdef"; "preproc_if"] then
    _process_macro_block child namespace []
  else ret tt.

(** the loop [for child in node.children] of [process_tree]; [walk] is
    [self.process_tree] on a child of [node] *)
Definition process_children (walk : Node -> string -> M St unit)
    (node : Node) (ancestors : list Node) (namespace : string)
    : list Node -> M St unit :=
  fix each (l : list Node) : M St unit :=
    match l with
    | [] => ret tt
    | child :: l' =>
        dispatch (walk child) node ancestors child namespace ;;;
        walk child namespace ;;;
        each l'
    end.

(** [process_tree]; [ancestors] are the parents of [node], nearest
    first *)
Fixpoint process_tree (ancestors : list Node) (node : Node)
    (namespace : string) {struct node} : M St unit :=
  process_children (process_tree (node :: ancestors)) node ancestors
    namespace (children node).

End TreeWalk.

Module CppSourceCodeFileLookup.

Import CppSourceCodeFileM.
Local Open Scope py_scope.

(** the file object before [language_specific_process]; the attributes
    [source_file], [macro_blocks] and [full_type_defs] come from the base
    class *)
Definition new_file (source_file : string) : CppSourceCodeFile :=
  mkCppSourceCodeFile source_file [] [] [] [] [] [] ∅ [] [].

(** [store_full_type_defs] *)
Definition store_full_type_defs : M St unit :=
  fun '(f, h) =>
    (Ok tt,
     (mkCppSourceCodeFile (source_file f) (func_defs f) (struct_defs f)
        (union_defs f) (enum_defs f) (preproc_defs f) (typedefs f)
        (includes f) (macro_blocks f)
        (full_type_defs f ++ struct_defs f ++ typedefs f ++ enum_defs f
           ++ union_defs f ++ preproc_defs f)%list, h)).

(** [language_specific_process], on the root of the parsed tree *)
Definition language_specific_process (root : Node) : M St unit :=
  TreeWalk.process_tree [] root EmptyString ;;;
  store_full_type_defs.

(** the first function of [l] that satisfies [p] *)
Definition find_func (h : Heap) (p : FunctionDefinition -> bool)
    (l : list ref) : option ref :=
  List.find (fun r => match h !! r with
                      | Some func => p func
                      | None => false
                      end) l.

(** the test of the first loop of the method [get_function_node] *)
Definition exact_match (target_function_name : string)
    (func : FunctionDefinition) : bool :=
  if Py.truthy (namespace_or_class func) then
    (namespace_or_class func ++ "::" ++ name func =? target_function_name)%string
  else (name func =? target_function_name)%string.

(** the method [CppSourceCodeFile.get_function_node] *)
Definition get_function_node (h : Heap) (f : CppSourceCodeFile)
    (target_function_name : string) (exact : bool) : option ref :=
  match find_func h (exact_match target_function_name) (func_defs f) with
  | Some func => Some func
  | None =>
      if exact then None
      else
        match find_func h
                (fun func => (name func =? target_function_name)%string)
                (func_defs f) with
        | Some func => Some func
        | None =>
            find_func h
              (fun func =>
                 (name func =? Py.last (Py.split target_function_name))%string)
              (func_defs f)
        end
  end.

(** [has_libfuzzer_harness] *)
Definition has_libfuzzer_harness (h : Heap) (f : CppSourceCodeFile) : bool :=
  match find_func h
          (fun func => Py.contains "LLVMFuzzerTestOneInput" (name func))
          (func_defs f) with
  | Some _ => true
  | None => false
  end.

End CppSourceCodeFileLookup.

(** ** The module-level lookup and its cache *)

Record State := mkState {
  heap : Heap;
  _function_node_cache : gmap (string * string * bool) ref
}.

Definition set_heap (h : Heap) (s : State) : State :=
  mkState h (_function_node_cache s).

Definition set_cache (c : gmap (string * string * bool) ref) (s : State)
    : State :=
  mkState (heap s) c.

Module Lookup.

Import CppSourceCodeFileLookup.
Local Open Scope py_scope.

(** the last loop of [get_function_node]: [name_split[count:]] for
    [count = 0, 1, ...] are the successive tails of [name_split] *)
Fixpoint suffix_match (h : Heap) (function_list : list ref)
    (name_split : list string) : option ref :=
  match name_split with
  | [] => None
  | _ :: rest =>
      match find_func h
              (fun func => Py.endswith (name func) (Py.join name_split))
              function_list with
      | Some func => Some func
      | None => suffix_match h function_list rest
      end
  end.

(** the search of [get_function_node] behind the cache; the flag tells
    whether the result is stored in the cache *)
Definition search (h : Heap) (target_name : string)
    (function_list : list ref) (one_layer_only : bool) (namespace : string)
    : option ref :=
  match find_func h (fun function => (target_name =? name function)%string)
          function_list with
  | Some function => Some function
  | None =>
      match (if Py.truthy namespace then
               find_func h
                 (fun function =>
                    (namespace ++ "::" ++ target_name =? name function)%string)
                 function_list
             else None) with
      | Some function => Some function
      | None =>
          if negb (Py.contains "::" target_name) then None
          else if Py.startswith target_name "std::" then None
          else
            let name_split :=
              if one_layer_only then Py.split1 target_name
              else Py.split target_name in
            suffix_match h function_list name_split
      end
  end.

(** [get_function_node(target_name, function_list, one_layer_only,
    namespace)] *)
Definition get_function_node (target_name : string)
    (function_list : list ref) (one_layer_only : bool) (namespace : string)
    : M State (option ref) :=
  s <- get ;;
  let cache_key := (target_name, namespace, one_layer_only) in
  match _function_node_cache s !! cache_key with
  | Some function => ret (Some function)
  | None =>
      match search (heap s) target_name function_list one_layer_only
              namespace with
      | Some function =>
          put (set_cache (<[cache_key := function]> (_function_node_cache s))
                 s) ;;;
          ret (Some function)
      | None => ret None
      end
  end.

End Lookup.

(** ** Call sites of a function *)

(** a call site during extraction: target, byte offset, line *)
Definition Callsite : Type := string * Z * Z.

(** [sorted(l, key)]: a stable sort, by insertion *)
Fixpoint insert_by {A} (key : A -> Z) (x : A) (l : list A) : list A :=
  match l with
  | [] => [x]
  | y :: l' => if key x <=? key y then x :: l else y :: insert_by key x l'
  end.

Fixpoint sorted {A} (key : A -> Z) (l : list A) : list A :=
  match l with
  | [] => []
  | x :: l' => insert_by key x (sorted key l')
  end.

(** [set(l)], enumerated in the order of first occurrence.  Python leaves
    the enumeration order of a set open; only the order of elements with
    equal sort keys depends on it. *)
Fixpoint py_set {A} `{EqDecision A} (l : list A) : list A :=
  match l with
  | [] => []
  | x :: l' => x :: List.filter (fun y => negb (bool_decide (y = x))) (py_set l')
  end.

(** the tree cursor of [node.walk()]: the current node and, for every level
    below the node the cursor was created on, the parent and the siblings
    to the right *)
Record TreeCursor := mkCursor {
  cursor_node : Node;
  cursor_path : list (Node * list Node)
}.

Definition walk (n : Node) : TreeCursor := mkCursor n [].

Definition goto_first_child (c : TreeCursor) : option TreeCursor :=
  match children (cursor_node c) with
  | [] => None
  | ch :: rest => Some (mkCursor ch ((cursor_node c, rest) :: cursor_path c))
  end.

Definition goto_next_sibling (c : TreeCursor) : option TreeCursor :=
  match cursor_path c with
  | (p, s :: rest) :: up => Some (mkCursor s ((p, rest) :: up))
  | _ => None
  end.

Definition goto_parent (c : TreeCursor) : option TreeCursor :=
  match cursor_path c with
  | (p, _) :: up => Some (mkCursor p up)
  | [] => None
  end.

(** [while not cursor.goto_next_sibling(): if not cursor.goto_parent(): ...]:
    the cursor on the next sibling of the nearest parent that has one, by
    recursion on the path *)
Fixpoint ascend_path (path : list (Node * list Node)) : option TreeCursor :=
  match path with
  | [] => None
  | (p, s :: rest) :: up => Some (mkCursor s ((p, rest) :: up))
  | (p, []) :: up => ascend_path up
  end.

Definition ascend (c : TreeCursor) : option TreeCursor :=
  ascend_path (cursor_path c).

(** one turn of the traversal loop after the current node is processed *)
Definition next_node (c : TreeCursor) : option TreeCursor :=
  match goto_first_child c with
  | Some c' => Some c'
  | None => ascend c
  end.

(** the number of nodes of a subtree and of the part of the tree that the
    cursor has still to visit *)
Definition tree_size (n : Node) : nat := List.length (preorder n).

Definition pending (c : TreeCursor) : list Node :=
  (preorder (cursor_node c) ++
   concat (List.map (fun lvl => concat (List.map preorder (snd lvl)))
             (cursor_path c)))%list.

(** ** CppProject: a collection of source files *)

(** one element of the function report *)
Record FuncDict := mkFuncDict {
  functionName : string;
  functionSourceFile : string;
  functionLinenumber : Z;
  functionLinenumberEnd : Z;
  linkageType : string;
  func_position : Z * Z;                 (* 'start', 'end' *)
  CyclomaticComplexity : Z;
  EdgeCount : Z;
  ICount : Z;
  argNames : list string;
  argTypes : list string;
  argCount : Z;
  returnType : string;
  BranchProfiles : list string;
  constantsTouched : list string;
  BBCount : Z;
  dict_signature : string;               (* 'signature' *)
  assertStmts : list AssertStmt;
  Callsites : list (string * string);
  functionUses : Z;
  functionDepth : Z;
  functionsReached : list string
}.

(** one element of [report['sources']] *)
Record SourceEntry := mkSourceEntry {
  entry_source_file : string;
  function_names : list string;
  entry_structs : list TypeEntry;
  entry_typedefs : list TypeEntry;
  entry_preproc_defs : list TypeEntry;
  entry_enum : list TypeEntry;
  entry_union : list TypeEntry
}.

Record Report := mkReport {
  report_name : option string;                    (* 'report' *)
  sources : list SourceEntry;
  fuzzing_method : option string;                 (* 'Fuzzing method' *)
  fuzzer_filename : option string;                (* 'Fuzzer filename' *)
  all_functions_elements : option (list FuncDict);  (* 'All functions' *)
  included_header_files : option (list string)
}.

Record CppProject := mkCppProject {
  source_code_files : list CppSourceCodeFile;
  all_functions : list ref;
  internal_func_list : list FuncDict;
  report : Report
}.

Module FunctionDefinitionM.

Import CppSourceCodeFileLookup.
Local Open Scope py_scope.

(** the state of the methods of a function object: the object itself and
    the global state, of which the heap is only read here *)
Definition St : Type := FunctionDefinition * State.

Definition self : M St FunctionDefinition := fun s => (Ok (fst s), s).

Definition global {A} (m : M State A) : M St A :=
  fun '(f, g) => let (r, g') := m g in (r, (f, g')).

Definition assign_var (k v : string) : M St unit :=
  fun '(f, g) => (Ok tt, (set_var_map (<[k := v]> (var_map f)) f, g)).

(** the argument of the [logger.debug] calls:
    [n.text.decode() if n.text else ''] *)
Definition debug_text (n : Node) : res string :=
  if text_truthy n then decode n else Ok EmptyString.

(** the name of a function object *)
Definition name_of (h : Heap) (r : ref) : string :=
  match h !! r with
  | Some func => name func
  | None => EmptyString
  end.

(** [project.get_function_from_name] *)
Definition get_function_from_name (h : Heap) (project : CppProject)
    (function_name : string) : option ref :=
  find_func h (fun func => (name func =? function_name)%string)
    (all_functions project).

(** the end of [_process_field_expr_return_type]: the member name qualified
    by the type of the receiver, when that type is known, and the return
    type of the function it resolves to *)
Definition qualify_member (project : CppProject) (full_name : string)
    (object_type : option string) : M St (option string * string) :=
  match object_type with
  | Some object_type =>
      if Py.truthy object_type then
        let full_name :=
          if negb (object_type =? "void")%string
          then object_type ++ "::" ++ full_name
          else full_name in
        node <- global (Lookup.get_function_node full_name
                          (all_functions project) false EmptyString) ;;
        s <- get ;;
        let ret_type :=
          match node with
          | Some r => return_type <$> heap (snd s) !! r
          | None => None
          end in
        ret (ret_type, full_name)
      else ret (None, full_name)
  | None => ret (None, full_name)
  end.

(** the name of the member in a field expression *)
Definition member_name (field : Node) : res string :=
  if (ntype field =? "template_method")%string then
    match child_by_field_name "name" field with
    | Some name_node =>
        if text_truthy name_node then decode name_node else Ok EmptyString
    | None => Ok EmptyString
    end
  else if text_truthy field then decode field
       else Ok EmptyString.

(** [_process_field_expr_return_type], on the chain [field_expr],
    [field_expr.argument], ... *)
Fixpoint field_expr_return_type (project : CppProject) (chain : list Node)
    : M St (option string * string) :=
  match chain with
  | [] => ret (None, EmptyString)
  | field_expr :: rest =>
      match rest, child_by_field_name "field" field_expr with
      | arg :: _, Some field =>
          full_name <- lift (member_name field) ;;
          if (ntype arg =? "field_expression")%string then
            inner <- field_expr_return_type project rest ;;
            qualify_member project full_name (Some (snd inner))
          else if (ntype arg =? "this")%string then
            f <- self ;;
            qualify_member project full_name (Some (namespace_or_class f))
          else if Py.mem (ntype arg) ["identifier"; "qualified_identifier"] then
            if text_truthy arg then
              t <- lift (decode arg) ;;
              f <- self ;;
              qualify_member project full_name (var_map f !! t)
            else qualify_member project full_name None
          else if (ntype arg =? "call_expression")%string then
            ret (Some EmptyString, EmptyString)
          else qualify_member project full_name None
      | _, _ => ret (None, EmptyString)
      end
  end.

Definition _process_field_expr_return_type (field_expr : Node)
    (project : CppProject) : M St (option string * string) :=
  field_expr_return_type project (field_chain "argument" field_expr).

(** the resolution of a simple call in [_process_invoke] *)
Definition resolve_simple_call (func : Node) (project : CppProject)
    : M St string :=
  target_name <- lift (decode func) ;;
  f <- self ;;
  matched_func <- global (Lookup.get_function_node target_name
                            (all_functions project) false
                            (namespace_or_class f)) ;;
  s <- get ;;
  match matched_func with
  | Some r => ret (name_of (heap (snd s)) r)
  | None =>
      match child_by_field_name "name" func with
      | Some name_node =>
          if text_truthy name_node then
            target_name2 <- lift (decode name_node) ;;
            matched_func2 <- global (Lookup.get_function_node target_name2
                                       (all_functions project) false
                                       (namespace_or_class f)) ;;
            s <- get ;;
            match matched_func2 with
            | Some r => ret (name_of (heap (snd s)) r)
            | None => ret target_name
            end
          else ret target_name
      | None => ret target_name
      end
  end.

(** [_process_invoke] *)
Definition _process_invoke (expr : Node) (project : CppProject)
    : M St (list Callsite) :=
  _ <- lift (debug_text expr) ;;
  match child_by_field_name "function" expr with
  | None => ret []
  | Some func =>
      target_name <-
        (if Py.mem (ntype func)
              ["identifier"; "qualified_identifier"; "template_function"]
            && text_truthy func
         then resolve_simple_call func project
         else if (ntype func =? "field_expression")%string then
           r <- _process_field_expr_return_type func project ;;
           ret (snd r)
         else ret EmptyString) ;;
      if Py.truthy target_name then
        f <- self ;;
        s <- get ;;
        let target_name :=
          if negb (Py.contains "::" target_name)
             && Py.truthy (namespace_or_class f)
          then
            let full_target_name :=
              namespace_or_class f ++ "::" ++ target_name in
            match find_func (heap (snd s))
                    (fun tmp_func => (name tmp_func =? full_target_name)%string)
                    (all_functions project) with
            | Some _ => full_target_name
            | None => target_name
            end
          else target_name in
        ret [(target_name, end_byte func, start_row func + 1)]
      else ret []
  end.

(** the text of the declared type in a declaration, from its type
    node *)
Definition declared_type (var_type_obj : Node) : res string :=
  qualified <~
    (if (ntype var_type_obj =? "qualified_identifier")%string then
       scope <~ match child_by_field_name "scope" var_type_obj with
                | Some scope => if text_truthy scope then decode scope
                                else Ok EmptyString
                | None => Ok EmptyString
                end ;;
       Ok (scope ++ "::", child_by_field_name "name" var_type_obj)
     else Ok (EmptyString, Some var_type_obj)) ;;
  let (var_type, var_type_obj) := qualified : string * option Node in
  match var_type_obj with
  | Some o =>
      if (ntype o =? "template_type")%string then
        match child_by_field_name "name" o with
        | Some template_name =>
            if text_truthy template_name
            then t <~ decode template_name ;; Ok (var_type ++ t)
            else Ok var_type
        | None => Ok var_type
        end
      else if text_truthy o then t <~ decode o ;; Ok (var_type ++ t)
           else Ok var_type
  | None => Ok var_type
  end.

(** the declaration branch of [_process_callsites] *)
Definition process_declaration (stmt : Node) (project : CppProject)
    : M St (list Callsite) :=
  match child_by_field_name "type" stmt with
  | None => ret []
  | Some var_type_obj =>
      if Py.mem (ntype var_type_obj)
           ["primitive_type"; "sized_type_specifier"]
      then ret []
      else
        var_type <- lift (declared_type var_type_obj) ;;
        match child_by_field_name "declarator" stmt with
        | None => ret []
        | Some var_name =>
            if negb (text_truthy var_name) then ret []
            else
              _ <- lift (decode var_name) ;;
              s <- get ;;
              let callsites :=
                if (ntype var_name =? "identifier")%string then
                  let cls := var_type ++ "::" ++ Py.last (Py.rsplit var_type) in
                  match get_function_from_name (heap (snd s)) project cls with
                  | Some _ => [(cls, end_byte stmt, start_row stmt + 1)]
                  | None => []
                  end
                else [] in
              match skip_to_declarator (Some var_name) with
              | None => ret []
              | Some var_name =>
                  let '(pcount, acount, var_name) :=
                    _extract_pointer_array_from_type var_name in
                  let var_type :=
                    var_type ++ Py.repeat "*" pcount
                             ++ Py.repeat "[]" acount in
                  (if text_truthy var_name then
                     t <- lift (decode var_name) ;;
                     assign_var (Py.remove_char "&" t) var_type
                   else ret tt) ;;;
                  ret callsites
              end
        end
  end.

(** [_process_callsites] *)
Definition _process_callsites (stmt : Node) (project : CppProject)
    : M St (list Callsite) :=
  _ <- lift (debug_text stmt) ;;
  if (ntype stmt =? "call_expression")%string then
    _process_invoke stmt project
  else if (ntype stmt =? "new_expression")%string then
    match child_by_field_name "type" stmt with
    | Some ctr_type =>
        if text_truthy ctr_type then
          cls <- lift (decode ctr_type) ;;
          let cls := cls ++ "::" ++ Py.last (Py.rsplit cls) in
          ret [(cls, end_byte stmt, start_row stmt + 1)]
        else ret []
    | None => ret []
    end
  else if (ntype stmt =? "declaration")%string then
    process_declaration stmt project
  else ret [].

(** the body of the traversal loop for the current node *)
Definition visit (project : CppProject) (node : Node)
    (visited : gset N) (callsites : list Callsite)
    : M St (gset N * list Callsite) :=
  if bool_decide (nid node ∈ visited) then ret (visited, callsites)
  else
    found <- try_except_decode (_process_callsites node project) (ret []) ;;
    ret ({[nid node]} ∪ visited, (callsites ++ found)%list).

(** the traversal loop [while True] of [extract_callsites]; it ends when
    the cursor cannot move any more, which takes one turn per pending
    node; [fuel] bounds the number of turns *)
Fixpoint traverse (fuel : nat) (project : CppProject) (cursor : TreeCursor)
    (visited : gset N) (callsites : list Callsite)
    : M St (list Callsite) :=
  match fuel with
  | O => ret callsites
  | S fuel' =>
      r <- visit project (cursor_node cursor) visited callsites ;;
      match next_node cursor with
      | Some cursor' => traverse fuel' project cursor' (fst r) (snd r)
      | None => ret (snd r)
      end
  end.

Definition offset_of (x : Callsite) : Z := snd (fst x).

(** [extract_callsites] *)
Definition extract_callsites (project : CppProject) : M St unit :=
  f <- self ;;
  (match base_callsites f with
   | [] =>
       callsites <- traverse (tree_size (root f)) project (walk (root f)) ∅ [] ;;
       let callsites := sorted offset_of (py_set callsites) in
       fun '(f, g) =>
         (Ok tt,
          (set_base_callsites
             (List.map (fun x => (fst (fst x), snd x)) callsites) f, g))
   | _ :: _ => ret tt
   end) ;;;
  f <- self ;;
  match detailed_callsites f with
  | [] =>
      fun '(f, g) =>
        (Ok tt,
         (set_detailed_callsites
            (List.map (fun '(dst, src_line) =>
                         (parent_source f ++ ":" ++ pretty src_line ++ ",1",
                          dst))
                      (base_callsites f)) f, g))
  | _ :: _ => ret tt
  end.

End FunctionDefinitionM.

Module CppProjectM.

Import CppSourceCodeFileLookup.
Local Open Scope py_scope.

(** run a method of the function object [r] of the heap, and store the
    object back *)
Definition with_object {A} (r : ref) (m : M FunctionDefinitionM.St A)
    : M State A :=
  fun s =>
    match heap s !! r with
    | None => (Raise AttributeError, s)
    | Some f =>
        let '(a, (f', s')) := m (f, s) in
        (a, set_heap (<[r := f']> (heap s')) s')
    end.

(** the loop of [_find_source_with_func_def] over the source files *)
Fixpoint sources_with_target (h : Heap) (files : list CppSourceCodeFile)
    (nm : string) (exact : bool) (return_func : option ref)
    (source_codes_with_target : list CppSourceCodeFile)
    : option ref * list CppSourceCodeFile :=
  match files with
  | [] => (return_func, source_codes_with_target)
  | source_code :: files' =>
      match get_function_node h source_code nm exact with
      | Some func =>
          sources_with_target h files' nm exact (Some func)
            (source_codes_with_target ++ [source_code])%list
      | None =>
          sources_with_target h files' nm exact return_func
            source_codes_with_target
      end
  end.

(** [if len(source_codes_with_target) == 1 and return_func] *)
Definition unique_target (r : option ref * list CppSourceCodeFile)
    : option (CppSourceCodeFile * ref) :=
  match r with
  | (Some return_func, [source_code]) => Some (source_code, return_func)
  | _ => None
  end.

(** [_find_source_with_func_def] *)
Definition _find_source_with_func_def (h : Heap) (project : CppProject)
    (nm : string) : option (CppSourceCodeFile * ref) :=
  match unique_target
          (sources_with_target h (source_code_files project) nm true
             None []) with
  | Some found => Some found
  | None =>
      unique_target
        (sources_with_target h (source_code_files project) nm false
           None [])
  end.

(** [_calculate_function_uses] *)
Definition calls_target (target_name : string) (function : FunctionDefinition)
    : bool :=
  existsb (fun callsite =>
             (fst callsite =? target_name)%string
             || Py.endswith (fst callsite) target_name)
          (base_callsites function).

Definition _calculate_function_uses (h : Heap) (project : CppProject)
    (target_name : string) : Z :=
  Z.of_nat
    (List.length
       (List.filter
          (fun r => match h !! r with
                    | Some function => calls_target target_name function
                    | None => false
                    end)
          (concat (List.map func_defs (source_code_files project))))).

Definition set_object_depth (r : ref) (d : Z) : M State unit :=
  modify (fun s =>
            match heap s !! r with
            | Some f => set_heap (<[r := set_depth d f]> (heap s)) s
            | None => s
            end).

(** the loop [for callsite in callsites] of [_recursive_function_depth] for
    the object [function]; [recurse] is the nested call, [d] the local
    [depth], [visited] the list shared by all calls *)
Fixpoint depth_loop
    (recurse : ref -> list string -> M State (Z * list string))
    (project : CppProject) (function : ref) (l : list (string * Z)) (d : Z)
    (visited : list string) : M State (Z * list string) :=
  match l with
  | [] => ret (d, visited)
  | callsite :: l' =>
      s <- get ;;
      match _find_source_with_func_def (heap s) project (fst callsite) with
      | Some target =>
          if bool_decide
               (FunctionDefinitionM.name_of (heap s) (snd target) ∈ visited)
          then depth_loop recurse project function l' (Z.max d 1) visited
          else
            r <- recurse (snd target) visited ;;
            let d := Z.max d (fst r + 1) in
            set_object_depth function d ;;;
            depth_loop recurse project function l' d (snd r)
      | None =>
          depth_loop recurse project function l' d
            (visited ++ [fst callsite])%list
      end
  end.

(** [_recursive_function_depth]; [limit] is the number of nested calls
    that the interpreter allows *)
Fixpoint _recursive_function_depth (limit : nat) (project : CppProject)
    (function : ref) (visited : list string) : M State (Z * list string) :=
  match limit with
  | O => raise RecursionError
  | S limit' =>
      s <- get ;;
      match heap s !! function with
      | None => raise AttributeError
      | Some f =>
          if negb (depth f =? -1) then ret (depth f, visited)
          else
            match base_callsites f with
            | [] => ret (0, visited)
            | callsites =>
                depth_loop (_recursive_function_depth limit' project) project
                  function callsites 0 (visited ++ [name f])%list
            end
      end
  end.

(** [_calculate_function_depth] *)
Definition _calculate_function_depth (limit : nat) (project : CppProject)
    (target_function : ref) : M State Z :=
  r <- _recursive_function_depth limit project target_function [] ;;
  ret (fst r).

(** the loop [for cs, _ in func_node.base_callsites] of
    [get_reachable_functions]; [recurse] is the nested call *)
Fixpoint reachable_loop
    (recurse : string -> gset string -> M State (gset string))
    (l : list (string * Z)) (visited_functions : gset string)
    : M State (gset string) :=
  match l with
  | [] => ret visited_functions
  | callsite :: l' =>
      if bool_decide (fst callsite ∈ visited_functions)
      then reachable_loop recurse l' visited_functions
      else
        visited_functions <- recurse (fst callsite) visited_functions ;;
        reachable_loop recurse l' visited_functions
  end.

(** the call sites recorded in a function object *)
Definition callsites_of (h : Heap) (func_node : ref) : list (string * Z) :=
  match h !! func_node with
  | Some f => base_callsites f
  | None => []
  end.

(** [get_reachable_functions]; an absent [function] is the empty
    string *)
Fixpoint get_reachable_functions (limit : nat) (project : CppProject)
    (function : string) (visited_functions : gset string)
    : M State (gset string) :=
  match limit with
  | O => raise RecursionError
  | S limit' =>
      if negb (Py.truthy function) then ret visited_functions
      else
        s <- get ;;
        let source_code :=
          fst <$> _find_source_with_func_def (heap s) project function in
        func_node <- Lookup.get_function_node function
                       (all_functions project) false EmptyString ;;
        let visited_functions := {[function]} ∪ visited_functions in
        match func_node, source_code with
        | Some func_node, Some _ =>
            s <- get ;;
            reachable_loop (get_reachable_functions limit' project)
              (callsites_of (heap s) func_node) visited_functions
        | _, _ => ret visited_functions
        end
  end.

(** the state of [generate_report]: the project object and the global
    state *)
Definition St : Type := CppProject * State.

Definition global {A} (m : M State A) : M St A :=
  fun '(p, g) => let (r, g') := m g in (r, (p, g')).

Definition set_report (r : Report) (p : CppProject) : CppProject :=
  mkCppProject (source_code_files p) (all_functions p)
    (internal_func_list p) r.

Definition set_all_functions (l : list ref) (p : CppProject) : CppProject :=
  mkCppProject (source_code_files p) l (internal_func_list p) (report p).

Definition set_internal_func_list (l : list FuncDict) (p : CppProject)
    : CppProject :=
  mkCppProject (source_code_files p) (all_functions p) l (report p).

(** the base information of one source file in the report *)
Definition source_entry (h : Heap) (source_code : CppSourceCodeFile)
    : SourceEntry :=
  mkSourceEntry (source_file source_code)
    (List.map (FunctionDefinitionM.name_of h) (func_defs source_code))
    (struct_defs source_code) (typedefs source_code)
    (preproc_defs source_code) (enum_defs source_code)
    (union_defs source_code).

(** the report element of the function object [func], after its call
    sites, uses and depth are known *)
Definition func_dict (func : FunctionDefinition) (func_uses func_depth : Z)
    (reached : gset string) : FuncDict :=
  {| functionName := name func;
     functionSourceFile := parent_source func;
     functionLinenumber := start_line func;
     functionLinenumberEnd := end_line func;
     linkageType := EmptyString;
     func_position := (start_line func, end_line func);
     CyclomaticComplexity := complexity func;
     EdgeCount := complexity func;
     ICount := icount func;
     argNames := arg_names func;
     argTypes := arg_types func;
     argCount := Z.of_nat (List.length (arg_types func));
     returnType := return_type func;
     BranchProfiles := [];
     constantsTouched := [];
     BBCount := bbcount func;
     dict_signature := signature func;
     assertStmts := assert_stmts func;
     Callsites := detailed_callsites func;
     functionUses := func_uses;
     functionDepth := func_depth;
     functionsReached := elements reached |}.

(** the body of the loop [for func in self.all_functions] *)
Definition report_function (limit : nat) (func : ref) : M St FuncDict :=
  p <- (fun s => (Ok (fst s), s)) ;;
  global (with_object func (FunctionDefinitionM.extract_callsites p)) ;;;
  s <- get ;;
  match heap (snd s) !! func with
  | None => raise AttributeError
  | Some f =>
      let reached : gset string :=
        list_to_set (List.map fst (base_callsites f)) in
      let func_uses := _calculate_function_uses (heap (snd s)) p (name f) in
      func_depth <- global (_calculate_function_depth limit p func) ;;
      s <- get ;;
      match heap (snd s) !! func with
      | None => raise AttributeError
      | Some f => ret (func_dict f func_uses func_depth reached)
      end
  end.

Fixpoint report_functions (limit : nat) (l : list ref) (func_list : list FuncDict)
    : M St (list FuncDict) :=
  match l with
  | [] => ret func_list
  | func :: l' =>
      d <- report_function limit func ;;
      report_functions limit l' (func_list ++ [d])%list
  end.

(** [generate_report] *)
Definition generate_report (limit : nat)
    (entry_function harness_name harness_source : string) : M St unit :=
  s <- get ;;
  let p := fst s in
  let headers : gset string :=
    ⋃ (List.map includes (source_code_files p)) in
  let all := concat (List.map func_defs (source_code_files p)) in
  let rep :=
    mkReport (Some "name")
      (List.map (source_entry (heap (snd s))) (source_code_files p))
      (Some "LLVMFuzzerTestOneInput") (Some harness_source)
      (all_functions_elements (report p))
      (included_header_files (report p)) in
  put (set_all_functions all (set_report rep p), snd s) ;;;
  func_list <-
    (match internal_func_list p with
     | [] =>
         func_list <- report_functions limit all [] ;;
         modify (fun s => (set_internal_func_list func_list (fst s), snd s)) ;;;
         ret func_list
     | l => ret l
     end) ;;
  modify (fun s =>
            let p := fst s in
            let r := report p in
            (set_report
               (mkReport (report_name r) (sources r)
                  (Some "LLVMFuzzerTestOneInput") (Some harness_source)
                  (match func_list with
                   | [] => all_functions_elements r
                   | _ => Some func_list
                   end)
                  (Some (elements headers))) p,
             snd s)) ;;;
  modify (fun s => (fst s, set_cache ∅ (snd s))).

End CppProjectM.

(** ** The call tree of a function *)

Module Calltree.

Import CppSourceCodeFileLookup CppProjectM.
Local Open Scope py_scope.

Definition newline : string := String (Ascii.ascii_of_nat 10) EmptyString.

(** [source_code.source_file] *)
Definition file_name (source_code : CppSourceCodeFile) : string :=
  source_file source_code.

(** the line printed for one call: two spaces for each level, the name,
    the file of the caller and the line of the call *)
Definition line_to_print (depth : Z) (func_name source_file : string)
    (line_number : Z) : string :=
  Py.repeat "  " (Z.to_nat depth) ++ func_name ++ " " ++ source_file ++ " "
    ++ pretty line_number ++ newline.

(** [func_node.parent_source.source_file] *)
Definition parent_source_of (h : Heap) (r : ref) : string :=
  match h !! r with
  | Some func => parent_source func
  | None => EmptyString
  end.

(** the loop [for cs, line in func_node.base_callsites] of
    [extract_calltree]; [recurse] is the nested call, the set of visited
    functions is shared by all calls *)
Fixpoint calltree_loop
    (recurse : string -> Z -> gset string -> M State (string * gset string))
    (l : list (string * Z)) (line_to_print : string)
    (visited_functions : gset string) : M State (string * gset string) :=
  match l with
  | [] => ret (line_to_print, visited_functions)
  | callsite :: l' =>
      r <- recurse (fst callsite) (snd callsite) visited_functions ;;
      calltree_loop recurse l' (line_to_print ++ fst r) (snd r)
  end.

(** [extract_calltree]; an absent [function] is the empty string; the
    result is the text with the set of visited functions as the call
    leaves it *)
Fixpoint extract_calltree (limit : nat) (project : CppProject)
    (source_file : string) (source_code : option CppSourceCodeFile)
    (function : string) (visited_functions : gset string) (depth : Z)
    (line_number : Z) : M State (string * gset string) :=
  match limit with
  | O => raise RecursionError
  | S limit' =>
      if negb (Py.truthy function) then ret (EmptyString, visited_functions)
      else
        s <- get ;;
        let source_code :=
          match source_code with
          | Some source_code => Some source_code
          | None =>
              fst <$> _find_source_with_func_def (heap s) project function
          end in
        func_node <-
          match source_code with
          | Some source_code =>
              ret (get_function_node (heap s) source_code function false)
          | None =>
              Lookup.get_function_node function (all_functions project)
                false EmptyString
          end ;;
        s <- get ;;
        let func_name :=
          match func_node with
          | Some func_node => FunctionDefinitionM.name_of (heap s) func_node
          | None => function
          end in
        let line := line_to_print depth func_name source_file line_number in
        let source_name :=
          match source_code with
          | Some source_code => Some (file_name source_code)
          | None => parent_source_of (heap s) <$> func_node
          end in
        match func_node, source_name with
        | Some func_node, Some source_name =>
            if bool_decide (function ∈ visited_functions)
            then ret (line, visited_functions)
            else
              calltree_loop
                (fun cs line visited_functions =>
                   extract_calltree limit' project source_name None cs
                     visited_functions (depth + 1) line)
                (callsites_of (heap s) func_node) line
                ({[function]} ∪ visited_functions)
        | _, _ => ret (line, visited_functions)
        end
  end.

End Calltree.

(** ** Notions used to state the properties *)

(** the number of branch constructs in the subtree of a node *)
Definition branch_count (n : Node) : nat :=
  List.length
    (List.filter (fun c => Py.mem (ntype c) branch_nodes) (preorder n)).

(** a call site without its byte offset, as kept in [base_callsites] *)
Definition drop_offset (x : Callsite) : string * Z := (fst (fst x), snd x).

(** the rows of a recorded block: from [line_start] to [line_end], both
    included *)
Definition in_block (row : Z) (b : MacroBlock) : Prop :=
  line_start (block_pos b) <= row <= line_end (block_pos b).

(** the source files in which the method lookup finds [nm], each with the
    function found *)
Definition matching_sources (h : Heap) (files : list CppSourceCodeFile)
    (nm : string) (exact : bool) : list (CppSourceCodeFile * ref) :=
  omap (fun source_code =>
          pair source_code <$>
            CppSourceCodeFileLookup.get_function_node h source_code nm exact)
       files.

(** the targets named by the recorded call sites of the objects of a heap *)
Definition callsite_targets (h : Heap) : gset string :=
  list_to_set (List.map fst (concat (List.map base_callsites h))).

(** the loop body run on a list of nodes in turn *)
Fixpoint visit_all (project : CppProject) (nodes : list Node)
    (visited : gset N) (callsites : list Callsite)
    : M FunctionDefinitionM.St (list Callsite) :=
  match nodes with
  | [] => ret callsites
  | n :: rest =>
      bind (FunctionDefinitionM.visit project n visited callsites)
           (fun r => visit_all project rest (fst r) (snd r))
  end.

(** a result, or a computation, that raises no exception but a decoding
    error *)
Definition rsafe {A} (r : res A) : Prop :=
  forall e, r = Raise e -> e = UnicodeDecodeError.

Definition safe {S A} (m : M S A) : Prop :=
  forall s, rsafe (fst (m s)).

(** the state of a file under construction only grows: the function list
    and the heap are extended at their ends *)
Definition extends (st st' : CppSourceCodeFileM.St) : Prop :=
  source_file (fst st') = source_file (fst st) /\
  (exists added, func_defs (fst st') = (func_defs (fst st) ++ added)%list) /\
  (exists objects, snd st' = (snd st ++ objects)%list).

Definition frame {A} (m : M CppSourceCodeFileM.St A) : Prop :=
  forall st, extends st (snd (m st)).

(** between [st] and [st'] the function object [F] was allocated at [r]
    and entered in the function list of the file *)
Definition recorded (st st' : CppSourceCodeFileM.St) (F : FunctionDefinition)
    (r : ref) : Prop :=
  (List.length (snd st) <= r)%nat /\
  snd st' !! r = Some F /\
  exists before after,
    func_defs (fst st') = (func_defs (fst st) ++ before ++ r :: after)%list.

(** [f] lies in the subtree of [n], below the nodes of [chain] in turn:
    it is a child of [n] when [chain] is empty *)
Fixpoint nested (n : Node) (chain : list Node) (f : Node) : Prop :=
  match chain with
  | [] => In f (children n)
  | c :: chain' => In c (children n) /\ nested c chain' f
  end.

(** the names of the function objects of a heap *)
Definition heap_names (h : Heap) : gset string :=
  list_to_set (List.map name h).

(** a function object without what call-site extraction assigns: its
    call-site lists and its variable map *)
Definition immutable_part (f : FunctionDefinition) : FunctionDefinition :=
  set_var_map ∅ (set_base_callsites [] (set_detailed_callsites [] f)).

(** a method of a function object that changes nothing of the object but
    its variable map, and nothing of the heap *)
Definition only_var_map {A} (m : M FunctionDefinitionM.St A) : Prop :=
  forall st,
    set_var_map ∅ (fst (snd (m st))) = set_var_map ∅ (fst st) /\
    heap (snd (snd (m st))) = heap (snd st).

(** a method of a function object that changes nothing of the object but
    its call-site lists and variable map, and nothing of the heap *)
Definition keeps {A} (m : M FunctionDefinitionM.St A) : Prop :=
  forall st,
    immutable_part (fst (snd (m st))) = immutable_part (fst st) /\
    heap (snd (snd (m st))) = heap (snd st).

(** the rows of a list of blocks follow each other: every block ends on
    the row on which the next one starts *)
Fixpoint contiguous (blocks : list MacroBlock) : Prop :=
  match blocks with
  | a :: (b :: _) as rest =>
      line_end (block_pos a) = line_start (block_pos b) /\ contiguous rest
  | _ => True
  end.

(** the number of nodes in the subtree of a node whose kind satisfies a
    test *)
Definition kind_count (p : string -> bool) (n : Node) : nat :=
  List.length (List.filter (fun c => p (ntype c)) (preorder n)).

(** a property of the state of a file under construction that a
    computation keeps *)
Definition preserves {A} (P : CppSourceCodeFileM.St -> Prop)
    (m : M CppSourceCodeFileM.St A) : Prop :=
  forall st, P st -> P (snd (m st)).

(** an include path without the delimiters of an include directive *)
Definition plain_path (p : string) : Prop :=
  Forall (fun c => c <> "<"%char /\ c <> ">"%char /\
                   c <> CppSourceCodeFileM.double_quote)
    (list_ascii_of_string p).

(** a function object as its constructor leaves it: valid, without call
    sites and without a memoized depth *)
Definition fresh_function (F : FunctionDefinition) : Prop :=
  valid F = true /\ base_callsites F = [] /\ detailed_callsites F = [] /\
  depth F = -1.

(** the detailed call sites that correspond to the recorded call sites of
    a function object: for each, its location in the file of the function
    as source and its target as destination *)
Definition located_callsites (f : FunctionDefinition)
    : list (string * string) :=
  List.map (fun '(dst, src_line) =>
              (parent_source f ++ ":" ++ pretty src_line ++ ",1", dst))
    (base_callsites f).

(** a computation of call sites that returns only call sites with a target
    name that is not empty *)
Definition named_targets (m : M FunctionDefinitionM.St (list Callsite))
    : Prop :=
  forall st r st',
    m st = (Ok r, st') -> Forall (fun c => Py.truthy (fst (fst c)) = true) r.

(** the function that a call tree shows for a name: the one that the
    lookup of the name finds in the source file given or, when none is
    given, in the only source file that defines the name; without such a
    file, the one that the project-wide lookup finds *)
Definition calltree_function (project : CppProject)
    (source_code : option CppSourceCodeFile) (function : string) (s : State)
    : option ref :=
  match
    match source_code with
    | Some source_code => Some source_code
    | None =>
        fst <$> CppProjectM._find_source_with_func_def (heap s) project
                  function
    end
  with
  | Some source_code =>
      CppSourceCodeFileLookup.get_function_node (heap s) source_code function
        false
  | None =>
      match fst (Lookup.get_function_node function (all_functions project)
                   false EmptyString s) with
      | Ok found => found
      | Raise _ => None
      end
  end.

(** the name printed for it: the name of the function found, or the name
    asked for when none is found *)
Definition calltree_name (project : CppProject)
    (source_code : option CppSourceCodeFile) (function : string) (s : State)
    : string :=
  match calltree_function project source_code function s with
  | Some func_node => FunctionDefinitionM.name_of (heap s) func_node
  | None => function
  end.

(** a function object calls a target when the target of one of its recorded
    call sites ends with the target's name *)
Definition is_caller (h : Heap) (target_name : string) (r : ref) : Prop :=
  exists function callsite front,
    h !! r = Some function /\
    In callsite (base_callsites function) /\
    fst callsite = (front ++ target_name)%string.

(** the number of callers of a target in a list of functions, each entry of
    the list counting once however many of its call sites match *)
Inductive callers_counted (h : Heap) (target_name : string)
    : list ref -> nat -> Prop :=
| counted_nil : callers_counted h target_name [] 0
| counted_caller r l n :
    is_caller h target_name r ->
    callers_counted h target_name l n ->
    callers_counted h target_name (r :: l) (S n)
| counted_other r l n :
    ~ is_caller h target_name r ->
    callers_counted h target_name l n ->
    callers_counted h target_name (r :: l) n.

(** a node for which the walk records a function object: a function
    definition, or a macro function with a name, parameters and a value
    that have text *)
Definition recordable (c : Node) : bool :=
  (ntype c =? "function_definition")%string
  || (ntype c =? "preproc_function_def")%string
     && match child_by_field_name "name" c,
              child_by_field_name "parameters" c,
              child_by_field_name "value" c with
        | Some name_node, Some param_node, Some def_node =>
            text_truthy name_node && text_truthy param_node
            && text_truthy def_node
        | _, _, _ => false
        end.

(** the nodes below a node *)
Definition descendants (n : Node) : list Node :=
  concat (List.map preorder (children n)).

(** the namespace blocks among the nodes of a path *)
Definition namespace_blocks (chain : list Node) : nat :=
  List.length
    (List.filter (fun c => (ntype c =? "namespace_definition")%string) chain).

(** the function objects of a list that are built from the node with a
    given id *)
Definition objects_of (i : N) (objects : list FunctionDefinition)
    : list FunctionDefinition :=
  List.filter (fun F => (nid (root F) =? i)%N) objects.

(** between [st] and [st'] exactly the function objects [objects] were
    allocated, in this order, and each was entered in the function list of
    the file as it was allocated *)
Definition grows (st st' : CppSourceCodeFileM.St)
    (objects : list FunctionDefinition) : Prop :=
  source_file (fst st') = source_file (fst st) /\
  snd st' = (snd st ++ objects)%list /\
  func_defs (fst st') =
    (func_defs (fst st)
       ++ List.seq (List.length (snd st)) (List.length objects))%list.

(** how often the walk of a node hands the node with a given id to the
    function handler: once for each time it comes to it as a child, and it
    walks a namespace block once more than any other child *)
Definition visits_children (visits : Node -> nat) (i : N)
    : list Node -> nat :=
  fix each (l : list Node) : nat :=
    match l with
    | [] => 0%nat
    | child :: l' =>
        ((if recordable child && (nid child =? i)%N then 1 else 0)
         + (if (ntype child =? "namespace_definition")%string
            then visits child else 0)
         + visits child + each l')%nat
    end.

Fixpoint visits (i : N) (node : Node) {struct node} : nat :=
  visits_children (visits i) i (children node).
(** a state in which the function list, the heap and the file name are
    what they were *)
Definition same_functions (st : CppSourceCodeFileM.St)
    : CppSourceCodeFileM.St -> Prop :=
  fun st' => source_file (fst st') = source_file (fst st) /\
             func_defs (fst st') = func_defs (fst st) /\
             snd st' = snd st.

(** ** Concrete syntax trees *)

Module Examples.

Local Open Scope py_scope.

(** a token or leaf node on one row *)
Definition leaf (id : N) (ty : string) (field : option string) (named : bool)
    (text : string) (row ebyte : Z) : Node :=
  mkNode id ty field named (Some (Utf8 text)) row row ebyte [].

(** an inner node on one row *)
Definition inner (id : N) (ty : string) (field : option string)
    (text : string) (row ebyte : Z) (cs : list Node) : Node :=
  mkNode id ty field true (Some (Utf8 text)) row row ebyte cs.

(** the statement [callee();] at byte [off] *)
Definition call_stmt (id : N) (row off : Z) (callee : string) : Node :=
  inner id "expression_statement" None (callee ++ "();") row (off + 4)
    [ inner (id + 1) "call_expression" None (callee ++ "()") row (off + 3)
        [ leaf (id + 2) "identifier" (Some "function") true callee row (off + 1);
          inner (id + 3) "argument_list" (Some "arguments") "()" row (off + 3)
            [ leaf (id + 4) "(" None false "(" row (off + 2);
              leaf (id + 5) ")" None false ")" row (off + 3) ] ];
      leaf (id + 6) ";" None false ";" row (off + 4) ].

(** the definition [void fname(){ body }] at byte [off], with the
    statements of the body given *)
Definition void_function (id : N) (row off : Z) (fname : string)
    (text : string) (ebyte : Z) (body : list Node) : Node :=
  inner id "function_definition" None text row ebyte
    [ leaf (id + 1) "primitive_type" (Some "type") true "void" row (off + 4);
      inner (id + 2) "function_declarator" (Some "declarator")
        (fname ++ "()") row (off + 8)
        [ leaf (id + 3) "identifier" (Some "declarator") true fname row (off + 6);
          inner (id + 4) "parameter_list" (Some "parameters") "()" row (off + 8)
            [ leaf (id + 5) "(" None false "(" row (off + 7);
              leaf (id + 6) ")" None false ")" row (off + 8) ] ];
      inner (id + 7) "compound_statement" (Some "body") "{ }" row ebyte
        ([leaf (id + 8) "{" None false "{" row (off + 9)] ++ body ++
         [leaf (id + 9) "}" None false "}" row ebyte])%list ].

(** [void a(){ b(); }] on row 0 and [void b(){ a(); }] on row 1 *)
Definition fun_a : Node :=
  void_function 10 0 0 "a" "void a(){ b(); }" 16 [call_stmt 20 0 10 "b"].

Definition fun_b : Node :=
  void_function 30 1 17 "b" "void b(){ a(); }" 33 [call_stmt 40 1 27 "a"].

Definition mutual_unit : Node :=
  mkNode 1 "translation_unit" None true
    (Some (Utf8 "void a(){ b(); } void b(){ a(); }")) 0 1 33 [fun_a; fun_b].

(** [void f(){ if (x && y) { if (z) g(); } }] on row 0 *)
Definition nested_if : Node :=
  inner 60 "if_statement" None "if (x && y) { if (z) g(); }" 0 38
    [ leaf 61 "if" None false "if" 0 12;
      inner 62 "condition_clause" (Some "condition") "(x && y)" 0 21
        [ leaf 63 "(" None false "(" 0 14;
          inner 64 "binary_expression" (Some "value") "x && y" 0 20
            [ leaf 65 "identifier" (Some "left") true "x" 0 15;
              leaf 66 "&&" (Some "operator") false "&&" 0 18;
              leaf 67 "identifier" (Some "right") true "y" 0 20 ];
          leaf 68 ")" None false ")" 0 21 ];
      inner 69 "compound_statement" (Some "consequence") "{ if (z) g(); }" 0 38
        [ leaf 70 "{" None false "{" 0 23;
          inner 71 "if_statement" None "if (z) g();" 0 36
            [ leaf 72 "if" None false "if" 0 26;
              inner 73 "condition_clause" (Some "condition") "(z)" 0 30
                [ leaf 74 "(" None false "(" 0 28;
                  leaf 75 "identifier" (Some "value") true "z" 0 29;
                  leaf 76 ")" None false ")" 0 30 ];
              call_stmt 80 0 31 "g" ];
          leaf 77 "}" None false "}" 0 38 ] ].

Definition fun_branchy : Node :=
  void_function 50 0 0 "f" "void f(){ if (x && y) { if (z) g(); } }" 40
    [nested_if].

Definition branchy_unit : Node :=
  mkNode 1 "translation_unit" None true
    (Some (Utf8 "void f(){ if (x && y) { if (z) g(); } }")) 0 0 40
    [fun_branchy].

(** the declaration [int v;] on one row *)
Definition int_decl (id : N) (row ebyte : Z) (v : string) : Node :=
  inner id "declaration" None ("int " ++ v ++ ";") row ebyte
    [ leaf (id + 1) "primitive_type" (Some "type") true "int" row (ebyte - 3);
      leaf (id + 2) "identifier" (Some "declarator") true v row (ebyte - 1);
      leaf (id + 3) ";" None false ";" row ebyte ].

(** [#ifdef X] on row 0, ten declarations on rows 1 to 10, [#else] on row
    11, one declaration on row 12, [#endif] on row 13 *)
Definition else_branch : Node :=
  mkNode 130 "preproc_else" (Some "alternative") true
    (Some (Utf8 "#else int z;")) 11 12 120
    [ leaf 131 "#else" None false "#else" 11 112;
      int_decl 132 12 120 "z" ].

Definition ifdef_block : Node :=
  mkNode 100 "preproc_ifdef" None true
    (Some (Utf8 "#ifdef X int a; #else int z; #endif")) 0 13 127
    ([ leaf 101 "#ifdef" None false "#ifdef" 0 6;
       leaf 102 "identifier" (Some "name") true "X" 0 8 ] ++
     List.map (fun i => int_decl (110 + 4 * N.of_nat i)%N (Z.of_nat i + 1)
                          (10 * Z.of_nat i + 16) "a")
       (seq 0 10) ++
     [ else_branch;
       leaf 140 "#endif" None false "#endif" 13 127 ])%list.

Definition ifdef_unit : Node :=
  mkNode 1 "translation_unit" None true
    (Some (Utf8 "#ifdef X int a; #else int z; #endif")) 0 13 127 [ifdef_block].

(** [namespace ns { void fname(){ } }] on row 0: the function definition,
    the declaration list that is the body of the block, and the block *)
Definition namespace_function (fname : string) : Node :=
  void_function 210 0 16 fname ("void " ++ fname ++ "(){ }") 38 [].

Definition namespace_body (fname : string) : Node :=
  inner 203 "declaration_list" (Some "body")
    ("{ void " ++ fname ++ "(){ } }") 0 40
    [ leaf 204 "{" None false "{" 0 15;
      namespace_function fname;
      leaf 205 "}" None false "}" 0 40 ].

Definition namespace_name (ns : string) : Node :=
  leaf 202 "namespace_identifier" (Some "name") true ns 0 13.

Definition namespace_block (ns fname : string) : Node :=
  inner 200 "namespace_definition" None
    ("namespace " ++ ns ++ " { void " ++ fname ++ "(){ } }") 0 40
    [ leaf 201 "namespace" None false "namespace" 0 9;
      namespace_name ns;
      namespace_body fname ].

Definition namespace_unit (ns fname : string) : Node :=
  mkNode 1 "translation_unit" None true
    (Some (Utf8 ("namespace " ++ ns ++ " { void " ++ fname ++ "(){ } }")))
    0 0 40 [namespace_block ns fname].

(** the function objects of [namespace std { void vector(){ } }] and of
    [namespace lib { void vector(){ } }] *)
Definition std_heap : Heap :=
  snd (snd (CppSourceCodeFileLookup.language_specific_process
              (namespace_unit "std" "vector")
              (CppSourceCodeFileLookup.new_file "n.cpp", []))).

Definition lib_heap : Heap :=
  snd (snd (CppSourceCodeFileLookup.language_specific_process
              (namespace_unit "lib" "vector")
              (CppSourceCodeFileLookup.new_file "n.cpp", []))).

(** [void f(){ foo(); foo(); }] on row 0: the same target twice on one
    line *)
Definition fun_twice : Node :=
  void_function 10 0 0 "f" "void f(){ foo(); foo(); }" 26
    [call_stmt 20 0 10 "foo"; call_stmt 30 0 17 "foo"].

Definition twice_unit : Node :=
  mkNode 1 "translation_unit" None true
    (Some (Utf8 "void f(){ foo(); foo(); }")) 0 0 26 [fun_twice].

(** [S::S(){ }] on row 0 and [void f(){ S s; }] on row 1 *)
Definition ctor_S : Node :=
  inner 300 "function_definition" None "S::S(){ }" 0 9
    [ inner 301 "function_declarator" (Some "declarator") "S::S()" 0 6
        [ inner 302 "qualified_identifier" (Some "declarator") "S::S" 0 4
            [ leaf 303 "namespace_identifier" (Some "scope") true "S" 0 1;
              leaf 304 "::" None false "::" 0 3;
              leaf 305 "identifier" (Some "name") true "S" 0 4 ];
          inner 306 "parameter_list" (Some "parameters") "()" 0 6
            [ leaf 307 "(" None false "(" 0 5;
              leaf 308 ")" None false ")" 0 6 ] ];
      inner 309 "compound_statement" (Some "body") "{ }" 0 9
        [ leaf 310 "{" None false "{" 0 7;
          leaf 311 "}" None false "}" 0 9 ] ].

Definition decl_S : Node :=
  inner 340 "declaration" None "S s;" 1 24
    [ leaf 341 "type_identifier" (Some "type") true "S" 1 21;
      leaf 342 "identifier" (Some "declarator") true "s" 1 23;
      leaf 343 ";" None false ";" 1 24 ].

Definition fun_decl : Node :=
  void_function 320 1 10 "f" "void f(){ S s; }" 26 [decl_S].

Definition ctor_unit : Node :=
  mkNode 1 "translation_unit" None true
    (Some (Utf8 "S::S(){ } void f(){ S s; }")) 0 1 26 [ctor_S; fun_decl].

(** the source file object built from a tree, with its function objects *)
Definition load (source_file : string) (tree : Node) (h : Heap)
    : res unit * (CppSourceCodeFile * Heap) :=
  CppSourceCodeFileLookup.language_specific_process tree
    (CppSourceCodeFileLookup.new_file source_file, h).

Definition empty_report : Report := mkReport None [] None None None None.

(** the project of one file *)
Definition project_of (f : CppSourceCodeFile) : CppProject :=
  mkCppProject [f] [] [] empty_report.

Definition mutual_file : CppSourceCodeFile := fst (snd (load "m.cpp" mutual_unit [])).
Definition mutual_heap : Heap := snd (snd (load "m.cpp" mutual_unit [])).
Definition mutual_project : CppProject := project_of mutual_file.

Definition twice_file : CppSourceCodeFile := fst (snd (load "t.cpp" twice_unit [])).
Definition twice_heap : Heap := snd (snd (load "t.cpp" twice_unit [])).

Definition ctor_file : CppSourceCodeFile := fst (snd (load "c.cpp" ctor_unit [])).
Definition ctor_heap : Heap := snd (snd (load "c.cpp" ctor_unit [])).

(** the project before and after [generate_report] has filled
    [all_functions] *)
Definition ctor_project_empty : CppProject := project_of ctor_file.
Definition ctor_project : CppProject :=
  CppProjectM.set_all_functions (func_defs ctor_file) ctor_project_empty.

(** the mutual-recursion project with [all_functions] filled, and the
    global state once the call sites of both functions are extracted *)
Definition mutual_full : CppProject :=
  CppProjectM.set_all_functions (func_defs mutual_file) mutual_project.

Definition mutual_extracted : State :=
  snd ((CppProjectM.with_object 0%nat
          (FunctionDefinitionM.extract_callsites mutual_full) ;;;
        CppProjectM.with_object 1%nat
          (FunctionDefinitionM.extract_callsites mutual_full))
         (mkState mutual_heap ∅)).

(** [void a(){ a(); }] on row 0 *)
Definition fun_self : Node :=
  void_function 10 0 0 "a" "void a(){ a(); }" 16 [call_stmt 20 0 10 "a"].

Definition self_unit : Node :=
  mkNode 1 "translation_unit" None true
    (Some (Utf8 "void a(){ a(); }")) 0 0 16 [fun_self].

Definition self_file : CppSourceCodeFile := fst (snd (load "s.cpp" self_unit [])).
Definition self_heap : Heap := snd (snd (load "s.cpp" self_unit [])).
Definition self_project : CppProject :=
  CppProjectM.set_all_functions (func_defs self_file) (project_of self_file).

Definition self_extracted : State :=
  snd (CppProjectM.with_object 0%nat
         (FunctionDefinitionM.extract_callsites self_project)
         (mkState self_heap ∅)).

(** a project of two files, [t.cpp] with [f] and [c.cpp] with [S::S] and
    [f], with their function objects in one heap *)
Definition two_files : list CppSourceCodeFile * Heap :=
  let first := snd (load "t.cpp" twice_unit []) in
  let second := snd (load "c.cpp" ctor_unit (snd first)) in
  ([fst first; fst second], snd second).

Definition two_file_project : CppProject :=
  mkCppProject (fst two_files) [] [] empty_report.

(** the function object at a reference of a heap *)
Definition object (h : Heap) (r : ref) : FunctionDefinition :=
  List.nth r h (FunctionDefinitionInit.initial mutual_unit EmptyString EmptyString).

(** [int add(int a, char *b){ }] on row 0 *)
Definition fun_add : Node :=
  inner 400 "function_definition" None "int add(int a, char *b){ }" 0 26
    [ leaf 401 "primitive_type" (Some "type") true "int" 0 3;
      inner 402 "function_declarator" (Some "declarator")
        "add(int a, char *b)" 0 23
        [ leaf 403 "identifier" (Some "declarator") true "add" 0 7;
          inner 404 "parameter_list" (Some "parameters")
            "(int a, char *b)" 0 23
            [ leaf 405 "(" None false "(" 0 8;
              inner 406 "parameter_declaration" None "int a" 0 13
                [ leaf 407 "primitive_type" (Some "type") true "int" 0 11;
                  leaf 408 "identifier" (Some "declarator") true "a" 0 13 ];
              leaf 409 "," None false "," 0 14;
              inner 410 "parameter_declaration" None "char *b" 0 22
                [ leaf 411 "primitive_type" (Some "type") true "char" 0 19;
                  inner 412 "pointer_declarator" (Some "declarator") "*b" 0 22
                    [ leaf 413 "*" None false "*" 0 21;
                      leaf 414 "identifier" (Some "declarator") true "b"
                        0 22 ] ];
              leaf 415 ")" None false ")" 0 23 ] ];
      inner 416 "compound_statement" (Some "body") "{ }" 0 26
        [ leaf 417 "{" None false "{" 0 24;
          leaf 418 "}" None false "}" 0 26 ] ].

Definition add_unit : Node :=
  mkNode 1 "translation_unit" None true
    (Some (Utf8 "int add(int a, char *b){ }")) 0 0 26 [fun_add].

(** [#include <stdio.h>] on row 0, [#define N 3] on row 1 and
    [typedef int T;] on row 2 *)
Definition include_stdio : Node :=
  inner 500 "preproc_include" None "#include <stdio.h>" 0 18
    [ leaf 501 "#include" None false "#include" 0 8;
      leaf 502 "system_lib_string" (Some "path") true "<stdio.h>" 0 18 ].

Definition define_N : Node :=
  inner 510 "preproc_def" None "#define N 3" 1 30
    [ leaf 511 "#define" None false "#define" 1 26;
      leaf 512 "identifier" (Some "name") true "N" 1 28;
      leaf 513 "preproc_arg" (Some "value") true "3" 1 30 ].

Definition typedef_T : Node :=
  inner 520 "type_definition" None "typedef int T;" 2 45
    [ leaf 521 "typedef" None false "typedef" 2 38;
      leaf 522 "primitive_type" (Some "type") true "int" 2 42;
      leaf 523 "type_identifier" (Some "declarator") true "T" 2 44;
      leaf 524 ";" None false ";" 2 45 ].

Definition types_unit : Node :=
  mkNode 1 "translation_unit" None true
    (Some (Utf8 "#include <stdio.h> #define N 3 typedef int T;")) 0 2 45
    [include_stdio; define_N; typedef_T].

(** the project of [void f(){ foo(); foo(); }], whose callee [foo] is not
    defined in it, with the call sites of [f] extracted *)
Definition twice_project : CppProject :=
  CppProjectM.set_all_functions (func_defs twice_file) (project_of twice_file).

Definition twice_extracted : State :=
  snd (CppProjectM.with_object 0%nat
         (FunctionDefinitionM.extract_callsites twice_project)
         (mkState twice_heap ∅)).

(** [void fname(){ }] alone in a file *)
Definition plain_unit (fname : string) : Node :=
  mkNode 1 "translation_unit" None true
    (Some (Utf8 ("void " ++ fname ++ "(){ }"))) 0 0 12
    [void_function 10 0 0 fname ("void " ++ fname ++ "(){ }") 12 []].

(** a project of two files, [a.cpp] with [namespace ns { void f(){ } }] and
    [b.cpp] with [void f(){ }], with their function objects in one heap *)
Definition scoped_files : list CppSourceCodeFile * Heap :=
  let first := snd (load "a.cpp" (namespace_unit "ns" "f") []) in
  let second := snd (load "b.cpp" (plain_unit "f") (snd first)) in
  ([fst first; fst second], snd second).

Definition scoped_project : CppProject :=
  mkCppProject (fst scoped_files) [] [] empty_report.

(** the project of [a.cpp] alone *)
Definition scoped_alone : CppProject :=
  mkCppProject (take 1 (fst scoped_files)) [] [] empty_report.

(** [namespace a { namespace b { void f(){ } } }] on row 0: the function,
    the inner block with its body, the outer block with its body *)
Definition inner_function : Node :=
  void_function 320 0 28 "f" "void f(){ }" 39 [].

Definition inner_body : Node :=
  inner 313 "declaration_list" (Some "body") "{ void f(){ } }" 0 41
    [ leaf 314 "{" None false "{" 0 27;
      inner_function;
      leaf 315 "}" None false "}" 0 41 ].

Definition inner_name : Node :=
  leaf 312 "namespace_identifier" (Some "name") true "b" 0 25.

Definition inner_block : Node :=
  inner 310 "namespace_definition" None "namespace b { void f(){ } }" 0 41
    [ leaf 311 "namespace" None false "namespace" 0 23;
      inner_name;
      inner_body ].

Definition outer_body : Node :=
  inner 303 "declaration_list" (Some "body")
    "{ namespace b { void f(){ } } }" 0 43
    [ leaf 304 "{" None false "{" 0 13;
      inner_block;
      leaf 305 "}" None false "}" 0 43 ].

Definition outer_name : Node :=
  leaf 302 "namespace_identifier" (Some "name") true "a" 0 11.

Definition outer_block : Node :=
  inner 300 "namespace_definition" None
    "namespace a { namespace b { void f(){ } } }" 0 43
    [ leaf 301 "namespace" None false "namespace" 0 9;
      outer_name;
      outer_body ].

Definition nested_namespace_unit : Node :=
  mkNode 1 "translation_unit" None true
    (Some (Utf8 "namespace a { namespace b { void f(){ } } }")) 0 0 43
    [outer_block].

(** [namespace ns {], [#define M(x) x] and [}] on rows 0 to 2: the macro
    function, the body of the block and the block *)
Definition macro_function : Node :=
  mkNode 420 "preproc_function_def" None true
    (Some (Utf8 "#define M(x) x")) 1 2 29
    [ leaf 421 "#define" None false "#define" 1 21;
      leaf 422 "identifier" (Some "name") true "M" 1 23;
      inner 423 "preproc_params" (Some "parameters") "(x)" 1 26
        [ leaf 424 "(" None false "(" 1 24;
          leaf 425 "identifier" None true "x" 1 25;
          leaf 426 ")" None false ")" 1 26 ];
      leaf 427 "preproc_arg" (Some "value") true "x" 1 28 ].

Definition macro_body : Node :=
  mkNode 403 "declaration_list" (Some "body") true
    (Some (Utf8 "{ #define M(x) x }")) 0 2 30
    [ leaf 404 "{" None false "{" 0 14;
      macro_function;
      leaf 405 "}" None false "}" 2 30 ].

Definition macro_block : Node :=
  mkNode 400 "namespace_definition" None true
    (Some (Utf8 "namespace ns { #define M(x) x }")) 0 2 30
    [ leaf 401 "namespace" None false "namespace" 0 9;
      leaf 402 "namespace_identifier" (Some "name") true "ns" 0 12;
      macro_body ].

Definition macro_unit : Node :=
  mkNode 1 "translation_unit" None true
    (Some (Utf8 "namespace ns { #define M(x) x }")) 0 2 30 [macro_block].

End Examples.

(** * Properties *)

(** ** The syntax tree *)

Lemma preorder_unfold n :
  preorder n = n :: flat_map preorder (children n).
Proof.
  destruct n; reflexivity.
Qed.

Lemma traverse_complexity_unfold n :
  _traverse_node_complexity n =
  (if Py.mem (ntype n) branch_nodes then 1 else 0) +
  fold_right (fun c acc => _traverse_node_complexity c + acc) 0 (children n).
Proof.
  destruct n; reflexivity.
Qed.

Lemma field_chain_unfold f n :
  field_chain f n =
  n :: match child_by_field_name f n with
       | Some c => field_chain f c
       | None => []
       end.
Proof.
  destruct n as [i ty fl nm tx sr er eb cs]; unfold child_by_field_name; simpl.
  f_equal. induction cs as [|c cs IH]; simpl; [reflexivity|].
  destruct (match nfield c with Some g => (g =? f)%string | None => false end);
    [reflexivity | exact IH].
Qed.

(** ** Complexity *)

Lemma traverse_complexity_count n :
  _traverse_node_complexity n = Z.of_nat (branch_count n).
Proof.
  induction n as [n IH] using Node_rect'.
  rewrite traverse_complexity_unfold. unfold branch_count.
  rewrite preorder_unfold.
  change (List.filter (fun c => Py.mem (ntype c) branch_nodes)
            (n :: flat_map preorder (children n)))
    with (if Py.mem (ntype n) branch_nodes
          then n :: List.filter (fun c => Py.mem (ntype c) branch_nodes)
                      (flat_map preorder (children n))
          else List.filter (fun c => Py.mem (ntype c) branch_nodes)
                 (flat_map preorder (children n))).
  assert (Hcs : fold_right (fun c acc => _traverse_node_complexity c + acc) 0
                  (children n) =
                Z.of_nat (List.length
                  (List.filter (fun c => Py.mem (ntype c) branch_nodes)
                     (flat_map preorder (children n))))).
  { induction IH as [|c cs Hc _ IHcs]; simpl; [reflexivity|].
    rewrite List.filter_app, List.length_app, Nat2Z.inj_add, IHcs, Hc.
    reflexivity. }
  rewrite Hcs. destruct (Py.mem (ntype n) branch_nodes).
  - change (List.length (n :: ?l)) with (S (List.length l)). lia.
  - lia.
Qed.

Ltac res_inv H :=
  repeat match type of H with
         | res_bind ?r _ = Ok _ =>
             let x := fresh "x" in
             let E := fresh "E" in
             destruct r as [x|] eqn:E; simpl in H; [|discriminate H]
         | (let (_, _) := ?p in _) = Ok _ => destruct p
         | (let '(_, _) := ?p in _) = Ok _ => destruct p
         | match ?o with Some _ => _ | None => _ end = Ok _ =>
             let E := fresh "E" in destruct o eqn:E; try discriminate H
         end.

Lemma extract_function_complexity ancestors self F :
  FunctionDefinitionInit.extract_function ancestors self = Ok F ->
  complexity F = complexity self + _traverse_node_complexity (root self).
Proof.
  unfold FunctionDefinitionInit.extract_function. intros H.
  destruct (child_by_field_name "declarator" (root self)); [|discriminate H].
  res_inv H.
  all: repeat match type of H with
         | context [let '(_, _) := ?p in _] => destruct p
         end; res_inv H.
  all: injection H as <-; reflexivity.
Qed.

Lemma extract_function_valid ancestors self F :
  FunctionDefinitionInit.extract_function ancestors self = Ok F ->
  valid F = valid self /\ root F = root self.
Proof.
  unfold FunctionDefinitionInit.extract_function. intros H.
  destruct (child_by_field_name "declarator" (root self)); [|discriminate H].
  res_inv H.
  all: repeat match type of H with
         | context [let '(_, _) := ?p in _] => destruct p
         end; res_inv H.
  all: injection H as <-; split; reflexivity.
Qed.

(** C1, as amended: the complexity of a function definition that is not a
    macro is the number of branch constructs in its subtree, each
    occurrence counted wherever it is nested, with nothing added; so it is
    at least 0. *)
Theorem C1_complexity_is_branch_count node ancestors file namespace F :
  (ntype node =? "preproc_function_def")%string = false ->
  FunctionDefinitionInit.new node ancestors file namespace = Ok F ->
  complexity F = Z.of_nat (branch_count node) /\ 0 <= complexity F.
Proof.
  unfold FunctionDefinitionInit.new, FunctionDefinitionInit._extract_information.
  simpl. intros -> H.
  apply extract_function_complexity in H. simpl in H.
  rewrite traverse_complexity_count in H. rewrite H. lia.
Qed.

Lemma C1_complexity_is_branch_count_witness :
  exists F,
    FunctionDefinitionInit.new Examples.fun_branchy [Examples.branchy_unit]
      "f.cpp" EmptyString = Ok F /\
    complexity F = 3.
Proof.
  eexists. split; [vm_compute; reflexivity|].
  exact (proj1 (C1_complexity_is_branch_count Examples.fun_branchy
                  [Examples.branchy_unit] "f.cpp" EmptyString _
                  eq_refl eq_refl)).
Defined.

(** C1 as stated fails: a function without a branch construct has
    complexity 0, not 1. *)
Lemma C1_counterexample :
  exists F,
    FunctionDefinitionInit.new Examples.fun_a [Examples.mutual_unit]
      "m.cpp" EmptyString = Ok F /\
    ~ (complexity F = 1 + Z.of_nat (branch_count Examples.fun_a) /\
       complexity F >= 1).
Proof.
  eexists. split; [vm_compute; reflexivity|].
  vm_compute. intros [H _]. discriminate H.
Qed.

(** the macro-function path fixes the complexity at 1 *)
Lemma macro_complexity_one self F :
  FunctionDefinitionInit.extract_macro self = Ok F ->
  valid self = true -> valid F = true -> complexity F = 1.
Proof.
  unfold FunctionDefinitionInit.extract_macro. intros H Hv HF.
  repeat match type of H with
         | match ?o with Some _ => _ | None => _ end = Ok _ =>
             destruct o
         | (if ?b then _ else _) = Ok _ => destruct b
         end;
    res_inv H; injection H as <-; simpl in *; congruence.
Qed.

(** ** Conditional-compilation blocks *)

(** C4, as amended: an [#ifdef X ... #else ... #endif] region yields
    exactly two records, with conditions [ifdef X] and [ifndef X]; their
    line ranges are contiguous, the first ending on the row of the [#else]
    directive, where the second starts. *)
Theorem C4_ifdef_else_blocks macro alt var_name t X namespace f h :
  ntype macro = "preproc_ifdef" ->
  ntext macro = Some (Utf8 t) -> Py.startswith t "#ifdef" = true ->
  child_by_field_name "name" macro = Some var_name ->
  ntext var_name = Some (Utf8 X) -> X <> EmptyString ->
  child_by_field_name "alternative" macro = Some alt ->
  ntype alt = "preproc_else" ->
  child_by_field_name "alternative" alt = None ->
  let b1 := mkMacroBlock [("ifdef", X)]
              (mkPos (source_file f) (start_row macro) (start_row alt)) in
  let b2 := mkMacroBlock [("ifndef", X)]
              (mkPos (source_file f) (start_row alt) (end_row alt)) in
  exists f',
    MacroBlocks._process_macro_block macro namespace [] (f, h)
      = (Ok tt, (f', h)) /\
    macro_blocks f' = (macro_blocks f ++ [b1; b2])%list /\
    func_defs f' = func_defs f /\ source_file f' = source_file f /\
    line_end (block_pos b1) = line_start (block_pos b2).
Proof.
  intros Hty Htx Hpre Hname HX Hne Halt Halty Hlast b1 b2.
  unfold MacroBlocks._process_macro_block.
  rewrite (field_chain_unfold "alternative" macro), Halt.
  rewrite (field_chain_unfold "alternative" alt), Hlast.
  assert (Htt : text_truthy macro = true).
  { unfold text_truthy. rewrite Htx. destruct t; [discriminate Hpre|reflexivity]. }
  assert (HXt : text_truthy var_name = true).
  { unfold text_truthy. rewrite HX. destruct X; [congruence|reflexivity]. }
  unfold MacroBlocks.process_branches, MacroBlocks.branch_condition, bind, lift.
  rewrite Hty, Halty. simpl String.eqb. simpl Py.mem.
  rewrite Hname, HXt, Htt. unfold decode. rewrite Htx, HX. simpl res_bind.
  rewrite Hpre. simpl.
  eexists. split; [reflexivity|]. simpl.
  rewrite <- List.app_assoc. repeat split.
Qed.

Lemma C4_ifdef_else_blocks_witness :
  exists f',
    MacroBlocks._process_macro_block Examples.ifdef_block EmptyString []
      (CppSourceCodeFileLookup.new_file "i.h", [])
      = (Ok tt, (f', [])) /\
    macro_blocks f' =
      [ mkMacroBlock [("ifdef", "X")] (mkPos "i.h" 0 11);
        mkMacroBlock [("ifndef", "X")] (mkPos "i.h" 11 12) ].
Proof.
  destruct (C4_ifdef_else_blocks Examples.ifdef_block Examples.else_branch
              (Examples.leaf 102 "identifier" (Some "name") true "X" 0 8)
              "#ifdef X int a; #else int z; #endif" "X" EmptyString
              (CppSourceCodeFileLookup.new_file "i.h") [])
    as (f' & Hrun & Hblocks & _);
    try reflexivity; [discriminate|].
  exists f'. split; [exact Hrun | exact Hblocks].
Defined.

(** C4 as stated fails: the two recorded ranges are not disjoint, the row
    of the [#else] directive lies in both. *)
Lemma C4_counterexample :
  exists b1 b2,
    macro_blocks (fst (snd (Examples.load "i.h" Examples.ifdef_unit [])))
      = [b1; b2] /\
    ~ (forall row, ~ (in_block row b1 /\ in_block row b2)).
Proof.
  do 2 eexists. split; [vm_compute; reflexivity|].
  intros H. apply (H 11). unfold in_block; simpl. lia.
Qed.

(** ** Source lookup *)

Lemma matching_sources_cons h source_code files nm exact :
  matching_sources h (source_code :: files) nm exact =
  match CppSourceCodeFileLookup.get_function_node h source_code nm exact with
  | Some func => (source_code, func) :: matching_sources h files nm exact
  | None => matching_sources h files nm exact
  end.
Proof.
  unfold matching_sources. simpl.
  destruct (CppSourceCodeFileLookup.get_function_node h source_code nm exact);
    reflexivity.
Qed.

Lemma last_default_irrelevant {A} (x : A) l d d' :
  List.last (x :: l) d = List.last (x :: l) d'.
Proof.
  revert x. induction l as [|y l IH]; intros x; [reflexivity|].
  change (List.last (y :: l) d = List.last (y :: l) d'). apply IH.
Qed.

Lemma sources_with_target_matching h files nm exact return_func acc :
  CppProjectM.sources_with_target h files nm exact return_func acc =
  (List.last (List.map (fun m => Some (snd m))
                (matching_sources h files nm exact)) return_func,
   (acc ++ List.map fst (matching_sources h files nm exact))%list).
Proof.
  revert return_func acc.
  induction files as [|source_code files IH]; intros return_func acc.
  - simpl. now rewrite List.app_nil_r.
  - rewrite matching_sources_cons. simpl.
    destruct (CppSourceCodeFileLookup.get_function_node h source_code nm exact)
      as [func|].
    + rewrite IH, <- List.app_assoc. simpl. f_equal.
      destruct (matching_sources h files nm exact); [reflexivity|].
      apply last_default_irrelevant.
    + apply IH.
Qed.

Lemma unique_target_matching h files nm exact :
  CppProjectM.unique_target
    (CppProjectM.sources_with_target h files nm exact None []) =
  match matching_sources h files nm exact with
  | [found] => Some found
  | _ => None
  end.
Proof.
  rewrite sources_with_target_matching.
  destruct (matching_sources h files nm exact) as [|[sc f] [|m2 ms]];
    try reflexivity.
  simpl List.map. simpl app.
  destruct (List.last _ _); reflexivity.
Qed.

Lemma find_source_matching h project nm :
  CppProjectM._find_source_with_func_def h project nm =
  match matching_sources h (source_code_files project) nm true with
  | [found] => Some found
  | _ =>
      match matching_sources h (source_code_files project) nm false with
      | [found] => Some found
      | _ => None
      end
  end.
Proof.
  unfold CppProjectM._find_source_with_func_def.
  rewrite !unique_target_matching.
  destruct (matching_sources h (source_code_files project) nm true)
    as [|m1 [|m2 ms]]; reflexivity.
Qed.

Lemma string_length_app (s t : string) :
  String.length (s ++ t) = (String.length s + String.length t)%nat.
Proof.
  induction s as [|c s IH]; [reflexivity|].
  change (S (String.length (s ++ t)) = S (String.length s + String.length t)).
  now f_equal.
Qed.

(** the exact pass compares the target with the name of a function that
    has a scope only after putting the scope in front of it, so it never
    matches such a function by its own name, which holds the scope
    already *)
Lemma exact_match_misses_own_name func :
  Py.truthy (namespace_or_class func) = true ->
  CppSourceCodeFileLookup.exact_match (name func) func = false.
Proof.
  intros Ht. unfold CppSourceCodeFileLookup.exact_match. rewrite Ht.
  apply String.eqb_neq. intros E. apply (f_equal String.length) in E.
  rewrite !string_length_app in E. simpl in E. lia.
Qed.

(** C6: the source lookup does not recognise the exact qualified name of a
    function that has a scope. In the project of [a.cpp], which holds
    [namespace ns { void f(){ } }], and [b.cpp], which holds [void f(){ }],
    the functions of [a.cpp] are named [ns::f] and the one of [b.cpp] is
    named [f]; the exact pass for [ns::f] finds no file, the fuzzy pass
    finds both files, [a.cpp] by the equal name and [b.cpp] by the last
    component, and the lookup returns nothing, although [a.cpp] is the only
    file with a function of exactly that qualified name. With [a.cpp] alone
    the same lookup returns [a.cpp], through the fuzzy pass. *)
Theorem C6_qualified_name_missed_by_exact_pass :
  let h := snd Examples.scoped_files in
  let files := fst Examples.scoped_files in
  let shown (found : CppSourceCodeFile * ref) :=
    (source_file (fst found), FunctionDefinitionM.name_of h (snd found)) in
  List.map (fun f => (source_file f,
                      List.map (FunctionDefinitionM.name_of h) (func_defs f)))
    files
  = [("a.cpp", ["ns::f"; "ns::f"]); ("b.cpp", ["f"])] /\
  matching_sources h files "ns::f" true = [] /\
  List.map shown (matching_sources h files "ns::f" false)
  = [("a.cpp", "ns::f"); ("b.cpp", "f")] /\
  CppProjectM._find_source_with_func_def h Examples.scoped_project "ns::f"
  = None /\
  shown <$> CppProjectM._find_source_with_func_def h Examples.scoped_alone
              "ns::f"
  = Some ("a.cpp", "ns::f").
Proof. vm_compute. repeat split; reflexivity. Qed.

(** ** The project-wide lookup *)

Lemma find_func_none h p l :
  (forall r func, In r l -> h !! r = Some func -> p func = false) ->
  CppSourceCodeFileLookup.find_func h p l = None.
Proof.
  unfold CppSourceCodeFileLookup.find_func.
  induction l as [|r l IH]; intros H; [reflexivity|]. simpl.
  destruct (h !! r) as [func|] eqn:E.
  - rewrite (H r func (or_introl eq_refl) E). apply IH.
    intros r' func' Hin. apply H. now right.
  - apply IH. intros r' func' Hin. apply H. now right.
Qed.

Lemma find_func_some h p l r :
  CppSourceCodeFileLookup.find_func h p l = Some r ->
  In r l /\ exists func, h !! r = Some func /\ p func = true.
Proof.
  unfold CppSourceCodeFileLookup.find_func. intros H.
  apply List.find_some in H. destruct H as [Hin H]. split; [exact Hin|].
  destruct (h !! r) as [func|]; [|discriminate H]. now exists func.
Qed.

(** the heuristic part of the search is closed to names under [std::] *)
Lemma search_std h target function_list one_layer_only namespace r :
  Py.startswith target "std::" = true ->
  Lookup.search h target function_list one_layer_only namespace = Some r ->
  exists func,
    In r function_list /\ h !! r = Some func /\
    (name func = target \/
     (namespace <> EmptyString /\ name func = namespace ++ "::" ++ target)).
Proof.
  intros Hstd. unfold Lookup.search.
  destruct (CppSourceCodeFileLookup.find_func h
              (fun function => (target =? name function)%string)
              function_list) as [r1|] eqn:E1.
  - intros [= <-]. apply find_func_some in E1.
    destruct E1 as (Hin & func & Hf & Hp). exists func.
    apply String.eqb_eq in Hp. auto.
  - destruct (Py.truthy namespace) eqn:Hns.
    + destruct (CppSourceCodeFileLookup.find_func h
                  (fun function =>
                     (namespace ++ "::" ++ target =? name function)%string)
                  function_list) as [r2|] eqn:E2.
      * intros [= <-]. apply find_func_some in E2.
        destruct E2 as (Hin & func & Hf & Hp). exists func.
        apply String.eqb_eq in Hp. repeat split; auto. right. split; auto.
        intros ->. discriminate Hns.
      * rewrite Hstd. destruct (negb (Py.contains "::" target)); discriminate.
    + rewrite Hstd. destruct (negb (Py.contains "::" target)); discriminate.
Qed.

(** C5, as amended: a lookup of a name under [std::] that is not in the
    cache returns no project function, whatever the names of the project
    functions end with, unless a project function has exactly that name,
    or that name qualified by the scope of the lookup. *)
Theorem C5_std_lookup_refused target function_list one_layer_only namespace s :
  Py.startswith target "std::" = true ->
  _function_node_cache s !! (target, namespace, one_layer_only) = None ->
  (forall r func, In r function_list -> heap s !! r = Some func ->
     name func <> target /\
     (namespace <> EmptyString -> name func <> namespace ++ "::" ++ target)) ->
  Lookup.get_function_node target function_list one_layer_only namespace s
    = (Ok None, s).
Proof.
  intros Hstd Hcache Hnames. unfold Lookup.get_function_node, bind, get.
  rewrite Hcache.
  destruct (Lookup.search (heap s) target function_list one_layer_only
              namespace) as [r|] eqn:E; [|reflexivity].
  exfalso. apply (search_std _ _ _ _ _ _ Hstd) in E.
  destruct E as (func & Hin & Hf & Hname).
  destruct (Hnames r func Hin Hf) as [H1 H2].
  destruct Hname as [Hname|[Hns Hname]]; [now apply H1 | now apply H2].
Qed.

Lemma C5_std_lookup_refused_witness :
  Py.endswith "lib::vector" "::vector" = true /\
  Lookup.get_function_node "std::vector" [0%nat; 1%nat] false EmptyString
    (mkState Examples.lib_heap ∅)
  = (Ok None, mkState Examples.lib_heap ∅).
Proof.
  split; [reflexivity|].
  apply C5_std_lookup_refused; [reflexivity | reflexivity |].
  intros r func [<-|[<-|[]]] Hf; vm_compute in Hf; injection Hf as <-;
    split; intros; discriminate.
Defined.

(** C5 as stated fails: a project function named [std::vector] itself is
    returned for the target [std::vector]. *)
Lemma C5_counterexample :
  FunctionDefinitionM.name_of Examples.std_heap 0%nat = "std::vector" /\
  fst (Lookup.get_function_node "std::vector" [0%nat; 1%nat] false EmptyString
         (mkState Examples.std_heap ∅))
  = Ok (Some 0%nat).
Proof. split; vm_compute; reflexivity. Qed.

(** ** The monad *)

Lemma bind_ok_inv {S A B} (m : M S A) (k : A -> M S B) s b s' :
  bind m k s = (Ok b, s') ->
  exists a s1, m s = (Ok a, s1) /\ k a s1 = (Ok b, s').
Proof.
  unfold bind. destruct (m s) as [[a|e] s1]; intros H.
  - now exists a, s1.
  - discriminate H.
Qed.

(** ** Report generation *)

(** C8: when report generation completes, the lookup cache is empty. *)
Theorem C8_cache_cleared limit entry_function harness_name harness_source
    st st' :
  CppProjectM.generate_report limit entry_function harness_name harness_source
    st = (Ok tt, st') ->
  _function_node_cache (snd st') = ∅.
Proof.
  unfold CppProjectM.generate_report. intros H.
  apply bind_ok_inv in H. destruct H as (s0 & s1 & _ & H).
  apply bind_ok_inv in H. destruct H as (u1 & s2 & _ & H).
  apply bind_ok_inv in H. destruct H as (func_list & s3 & _ & H).
  apply bind_ok_inv in H. destruct H as (u2 & s4 & _ & H).
  unfold modify in H. injection H as <-. reflexivity.
Qed.

Lemma C8_cache_cleared_witness :
  exists st',
    CppProjectM.generate_report 10 EmptyString EmptyString "h.cpp"
      (Examples.mutual_project,
       mkState Examples.mutual_heap {[ ("x", EmptyString, false) := 0%nat ]})
    = (Ok tt, st') /\
    _function_node_cache (snd st') = ∅.
Proof.
  pose proof (C8_cache_cleared 10 EmptyString EmptyString "h.cpp"
                (Examples.mutual_project,
                 mkState Examples.mutual_heap
                   {[ ("x", EmptyString, false) := 0%nat ]})) as H.
  destruct (CppProjectM.generate_report _ _ _ _ _) as [[[]|e] st'] eqn:E.
  - exists st'. split; [reflexivity | now apply H].
  - exfalso. vm_compute in E. discriminate E.
Defined.

(** before the final step the cache holds the resolutions made while the
    call sites were extracted *)
Lemma report_functions_fill_cache :
  _function_node_cache
    (snd (snd (CppProjectM.report_functions 10 [0%nat; 1%nat] []
                 (CppProjectM.set_all_functions [0%nat; 1%nat]
                    Examples.mutual_project,
                  mkState Examples.mutual_heap ∅))))
    !! ("b", EmptyString, false) = Some 1%nat.
Proof. vm_compute. reflexivity. Qed.

(** ** Sorting and sets of call sites *)

Lemma insert_by_perm {A} (key : A -> Z) x l :
  Permutation (insert_by key x l) (x :: l).
Proof.
  induction l as [|y l IH]; simpl; [reflexivity|].
  destruct (key x <=? key y); [reflexivity|].
  rewrite IH. apply perm_swap.
Qed.

Lemma sorted_perm {A} (key : A -> Z) l : Permutation (sorted key l) l.
Proof.
  induction l as [|x l IH]; simpl; [reflexivity|].
  rewrite insert_by_perm. now constructor.
Qed.

Lemma insert_by_sorted {A} (key : A -> Z) x l :
  StronglySorted (fun a b => key a <= key b) l ->
  StronglySorted (fun a b => key a <= key b) (insert_by key x l).
Proof.
  induction 1 as [|y l Hl IH Hy]; simpl.
  - repeat constructor.
  - destruct (key x <=? key y) eqn:E.
    + apply Z.leb_le in E. constructor; [now constructor|].
      constructor; [exact E|].
      eapply List.Forall_impl; [|exact Hy]. simpl. intros a Ha. lia.
    + apply Z.leb_gt in E. constructor; [exact IH|].
      eapply Permutation_Forall; [symmetry; apply insert_by_perm|].
      constructor; [lia | exact Hy].
Qed.

Lemma sorted_sorted {A} (key : A -> Z) l :
  StronglySorted (fun a b => key a <= key b) (sorted key l).
Proof.
  induction l as [|x l IH]; simpl; [constructor|]. now apply insert_by_sorted.
Qed.

Lemma py_set_in {A} `{EqDecision A} (l : list A) x :
  In x (py_set l) <-> In x l.
Proof.
  induction l as [|y l IH]; simpl; [reflexivity|].
  rewrite List.filter_In, IH. split.
  - intros [H|[H _]]; auto.
  - intros [H|H]; [now left|].
    destruct (decide (x = y)) as [->|Hne]; [now left|]. right. split; [exact H|].
    now rewrite bool_decide_eq_false_2.
Qed.

Lemma py_set_nodup {A} `{EqDecision A} (l : list A) : List.NoDup (py_set l).
Proof.
  induction l as [|y l IH]; simpl; constructor.
  - rewrite List.filter_In. intros [_ H].
    now rewrite bool_decide_eq_true_2 in H.
  - now apply List.NoDup_filter.
Qed.

Lemma sorted_set_nodup {A} `{EqDecision A} (key : A -> Z) (l : list A) :
  List.NoDup (sorted key (py_set l)).
Proof.
  eapply Permutation_NoDup; [symmetry; apply sorted_perm | apply py_set_nodup].
Qed.

(** ** Exceptions of the call-site extraction

    Every decoding in the extraction is guarded by a test that the text is
    present, so a decoding error is the only exception it can raise. *)

Lemma rsafe_ok {A} (a : A) : rsafe (Ok a).
Proof. intros e H. discriminate H. Qed.

Lemma rsafe_bind {A B} (r : res A) (k : A -> res B) :
  rsafe r -> (forall a, rsafe (k a)) -> rsafe (res_bind r k).
Proof.
  intros Hr Hk. destruct r as [a|e]; simpl; [apply Hk|].
  intros e' [= <-]. now apply Hr.
Qed.

Lemma rsafe_decode n : text_truthy n = true -> rsafe (decode n).
Proof.
  unfold text_truthy, decode.
  destruct (ntext n) as [[s|]|]; intros H e He; try discriminate.
  now injection He as <-.
Qed.

Lemma rsafe_debug_text n : rsafe (FunctionDefinitionM.debug_text n).
Proof.
  unfold FunctionDefinitionM.debug_text.
  destruct (text_truthy n) eqn:E; [now apply rsafe_decode | apply rsafe_ok].
Qed.

Lemma safe_ret {S A} (a : A) : safe (@ret S A a).
Proof. intros s. apply rsafe_ok. Qed.

Lemma safe_lift {S A} (r : res A) : rsafe r -> safe (@lift S A r).
Proof. intros H s. exact H. Qed.

Lemma safe_bind {S A B} (m : M S A) (k : A -> M S B) :
  safe m -> (forall a, safe (k a)) -> safe (bind m k).
Proof.
  intros Hm Hk s. unfold bind. specialize (Hm s).
  destruct (m s) as [[a|e] s1]; simpl in *; [apply Hk|].
  intros e' [= <-]. now apply Hm.
Qed.

Lemma safe_get {S} : safe (@get S).
Proof. intros s. apply rsafe_ok. Qed.

Lemma safe_self : safe FunctionDefinitionM.self.
Proof. intros s. apply rsafe_ok. Qed.

Lemma safe_assign_var k v : safe (FunctionDefinitionM.assign_var k v).
Proof. intros [f g]. apply rsafe_ok. Qed.

Lemma safe_global {A} (m : M State A) :
  safe m -> safe (FunctionDefinitionM.global m).
Proof.
  intros H [f g]. unfold FunctionDefinitionM.global. specialize (H g).
  destruct (m g) as [r g']. exact H.
Qed.

Lemma safe_get_function_node target l flag ns :
  safe (Lookup.get_function_node target l flag ns).
Proof.
  intros s. unfold Lookup.get_function_node, bind, get, put, ret.
  destruct (_function_node_cache s !! (target, ns, flag)); [apply rsafe_ok|].
  destruct (Lookup.search _ _ _ _ _); apply rsafe_ok.
Qed.

Ltac safe_step :=
  match goal with
  | |- safe (bind _ _) => apply safe_bind; [|intros ?]
  | |- safe (ret _) => apply safe_ret
  | |- safe get => apply safe_get
  | |- safe FunctionDefinitionM.self => apply safe_self
  | |- safe (FunctionDefinitionM.assign_var _ _) => apply safe_assign_var
  | |- safe (FunctionDefinitionM.global _) => apply safe_global
  | |- safe (Lookup.get_function_node _ _ _ _) => apply safe_get_function_node
  | |- safe (lift _) => apply safe_lift
  | |- rsafe (Ok _) => apply rsafe_ok
  | |- rsafe (res_bind _ _) => apply rsafe_bind; [|intros ?]
  | |- rsafe (FunctionDefinitionM.debug_text _) => apply rsafe_debug_text
  | |- rsafe (decode _) => apply rsafe_decode; assumption
  | |- safe (let (_, _) := ?p in _) => destruct p
  | |- rsafe (let (_, _) := ?p in _) => destruct p
  | |- context [if ?b then _ else _] => destruct b eqn:?
  | |- context [match ?o with Some _ => _ | None => _ end] => destruct o eqn:?
  | |- context [match ?l with [] => _ | _ :: _ => _ end] => destruct l eqn:?
  end.

Lemma safe_qualify_member project full_name o :
  safe (FunctionDefinitionM.qualify_member project full_name o).
Proof. unfold FunctionDefinitionM.qualify_member. repeat safe_step. Qed.

Lemma rsafe_member_name field : rsafe (FunctionDefinitionM.member_name field).
Proof. unfold FunctionDefinitionM.member_name. repeat safe_step. Qed.

Lemma safe_field_expr_return_type project chain :
  safe (FunctionDefinitionM.field_expr_return_type project chain).
Proof.
  induction chain as [|field_expr rest IH];
    cbn [FunctionDefinitionM.field_expr_return_type]; [apply safe_ret|].
  destruct rest as [|arg rest']; [apply safe_ret|].
  destruct (child_by_field_name "field" field_expr) as [field|];
    [|apply safe_ret].
  apply safe_bind; [apply safe_lift, rsafe_member_name|]. intros full_name.
  destruct (ntype arg =? "field_expression")%string.
  { apply safe_bind; [exact IH|]. intros inner. apply safe_qualify_member. }
  destruct (ntype arg =? "this")%string.
  { apply safe_bind; [apply safe_self|]. intros f. apply safe_qualify_member. }
  destruct (Py.mem (ntype arg) ["identifier"; "qualified_identifier"]).
  { destruct (text_truthy arg) eqn:E; [|apply safe_qualify_member].
    apply safe_bind; [apply safe_lift, rsafe_decode, E|]. intros t.
    apply safe_bind; [apply safe_self|]. intros f. apply safe_qualify_member. }
  destruct (ntype arg =? "call_expression")%string; [apply safe_ret|].
  apply safe_qualify_member.
Qed.

Lemma safe_resolve_simple_call func project :
  text_truthy func = true ->
  safe (FunctionDefinitionM.resolve_simple_call func project).
Proof.
  intros Hf. unfold FunctionDefinitionM.resolve_simple_call.
  repeat safe_step.
Qed.

Lemma safe_process_invoke expr project :
  safe (FunctionDefinitionM._process_invoke expr project).
Proof.
  unfold FunctionDefinitionM._process_invoke.
  apply safe_bind; [apply safe_lift, rsafe_debug_text|]. intros _.
  destruct (child_by_field_name "function" expr) as [func|]; [|apply safe_ret].
  apply safe_bind.
  - destruct (Py.mem (ntype func) _ && text_truthy func) eqn:E.
    + apply andb_true_iff in E. now apply safe_resolve_simple_call.
    + destruct (ntype func =? "field_expression")%string; [|apply safe_ret].
      apply safe_bind; [apply safe_field_expr_return_type|].
      intros r. apply safe_ret.
  - intros target_name. destruct (Py.truthy target_name); [|apply safe_ret].
    apply safe_bind; [apply safe_self|]. intros f.
    apply safe_bind; [apply safe_get|]. intros s. apply safe_ret.
Qed.

Lemma rsafe_declared_type var_type_obj :
  rsafe (FunctionDefinitionM.declared_type var_type_obj).
Proof.
  unfold FunctionDefinitionM.declared_type.
  apply rsafe_bind; [repeat safe_step|]. intros [var_type o].
  repeat safe_step.
Qed.

Lemma safe_process_declaration stmt project :
  safe (FunctionDefinitionM.process_declaration stmt project).
Proof.
  unfold FunctionDefinitionM.process_declaration.
  destruct (child_by_field_name "type" stmt) as [var_type_obj|];
    [|apply safe_ret].
  destruct (Py.mem (ntype var_type_obj) _); [apply safe_ret|].
  apply safe_bind; [apply safe_lift, rsafe_declared_type|]. intros var_type.
  destruct (child_by_field_name "declarator" stmt) as [var_name|];
    [|apply safe_ret].
  destruct (text_truthy var_name) eqn:E; simpl negb; cbv iota;
    [|apply safe_ret].
  apply safe_bind; [apply safe_lift, rsafe_decode, E|]. intros _.
  apply safe_bind; [apply safe_get|]. intros s.
  destruct (skip_to_declarator (Some var_name)) as [vn|]; [|apply safe_ret].
  destruct (_extract_pointer_array_from_type vn) as [[pcount acount] vn'].
  apply safe_bind; [|intros _; apply safe_ret].
  destruct (text_truthy vn') eqn:E'; [|apply safe_ret].
  apply safe_bind; [apply safe_lift, rsafe_decode, E'|]. intros t.
  apply safe_assign_var.
Qed.

Lemma safe_process_callsites stmt project :
  safe (FunctionDefinitionM._process_callsites stmt project).
Proof.
  unfold FunctionDefinitionM._process_callsites.
  apply safe_bind; [apply safe_lift, rsafe_debug_text|]. intros _.
  destruct (ntype stmt =? "call_expression")%string;
    [apply safe_process_invoke|].
  destruct (ntype stmt =? "new_expression")%string.
  { destruct (child_by_field_name "type" stmt) as [ctr_type|];
      [|apply safe_ret].
    destruct (text_truthy ctr_type) eqn:E; [|apply safe_ret].
    apply safe_bind; [apply safe_lift, rsafe_decode, E|]. intros cls.
    apply safe_ret. }
  destruct (ntype stmt =? "declaration")%string;
    [apply safe_process_declaration | apply safe_ret].
Qed.

(** the body of the traversal loop never raises *)
Lemma visit_ok project node visited callsites s :
  exists r s',
    FunctionDefinitionM.visit project node visited callsites s = (Ok r, s').
Proof.
  unfold FunctionDefinitionM.visit.
  destruct (bool_decide (nid node ∈ visited)); [now eexists _, _|].
  unfold bind, try_except_decode, ret.
  pose proof (safe_process_callsites node project s) as Hs.
  destruct (FunctionDefinitionM._process_callsites node project s)
    as [[found|e] s1]; [now eexists _, _|].
  simpl in Hs. rewrite (Hs e eq_refl). now eexists _, _.
Qed.

(** the traversal never raises *)
Lemma traverse_ok fuel project cursor visited callsites s :
  exists cs s',
    FunctionDefinitionM.traverse fuel project cursor visited callsites s
    = (Ok cs, s').
Proof.
  revert cursor visited callsites s.
  induction fuel as [|fuel IH]; intros cursor visited callsites s; simpl.
  - now eexists _, _.
  - unfold bind.
    destruct (visit_ok project (cursor_node cursor) visited callsites s)
      as (r & s1 & ->).
    destruct (next_node cursor) as [cursor'|]; [apply IH | now eexists _, _].
Qed.

(** ** The iterative traversal is the preorder walk *)

Lemma ascend_path_pending path :
  concat (List.map (fun lvl => concat (List.map preorder (snd lvl))) path) =
  match ascend_path path with
  | Some c => pending c
  | None => []
  end.
Proof.
  induction path as [|[p sibs] up IH]; simpl; [reflexivity|].
  destruct sibs as [|sib rest]; simpl; [exact IH|].
  unfold pending. simpl. now rewrite <- List.app_assoc.
Qed.

Lemma next_node_pending c :
  pending c =
  cursor_node c :: match next_node c with
                   | Some c' => pending c'
                   | None => []
                   end.
Proof.
  unfold next_node, goto_first_child, ascend, pending at 1.
  rewrite preorder_unfold.
  destruct (children (cursor_node c)) as [|ch rest]; simpl.
  - now rewrite ascend_path_pending.
  - unfold pending. simpl. rewrite flat_map_concat_map.
    now rewrite <- List.app_assoc.
Qed.

Lemma traverse_complete project fuel c visited callsites s :
  (List.length (pending c) <= fuel)%nat ->
  FunctionDefinitionM.traverse fuel project c visited callsites s =
  visit_all project (pending c) visited callsites s.
Proof.
  revert c visited callsites s.
  induction fuel as [|fuel IH]; intros c visited callsites s Hlen;
    rewrite next_node_pending in Hlen |- *; simpl in Hlen; [lia|].
  simpl. unfold bind.
  destruct (FunctionDefinitionM.visit project (cursor_node c) visited
              callsites s) as [[r|e] s1]; [|reflexivity].
  destruct (next_node c) as [c'|]; [apply IH; lia | reflexivity].
Qed.

(** the loop of [extract_callsites] runs the body on every node of the
    subtree, parents before children, within its bound on the turns *)
Lemma traverse_preorder project node s :
  FunctionDefinitionM.traverse (tree_size node) project (walk node) ∅ [] s =
  visit_all project (preorder node) ∅ [] s.
Proof.
  rewrite traverse_complete.
  - unfold pending, walk. simpl. now rewrite List.app_nil_r.
  - unfold pending, walk, tree_size. simpl. now rewrite List.app_nil_r.
Qed.

(** ** Extraction of call sites *)

(** the first extraction records the call sites found by the traversal,
    as a set, sorted by offset *)
Lemma extract_callsites_fresh project f g :
  base_callsites f = [] ->
  exists found fv g' f',
    visit_all project (preorder (root f)) ∅ [] (f, g) = (Ok found, (fv, g')) /\
    FunctionDefinitionM.extract_callsites project (f, g) = (Ok tt, (f', g')) /\
    base_callsites f' =
      List.map drop_offset
        (sorted FunctionDefinitionM.offset_of (py_set found)).
Proof.
  intros Hbase.
  destruct (traverse_ok (tree_size (root f)) project (walk (root f)) ∅ [] (f, g))
    as (found & [fv g'] & Htr).
  exists found, fv, g'.
  unfold FunctionDefinitionM.extract_callsites, bind, FunctionDefinitionM.self.
  cbn [fst]. rewrite Hbase, Htr. rewrite traverse_preorder in Htr.
  cbn [fst snd]. change (detailed_callsites (set_base_callsites ?v fv))
    with (detailed_callsites fv).
  destruct (detailed_callsites fv); eexists; repeat split; eauto.
Qed.

(** C3, as amended: after the call sites of a function are extracted, the
    recorded call sites are those of a list of (target, byte offset, line)
    triples in non-decreasing order of byte offset and without duplicate
    triples, which are the triples that the traversal of the function found;
    the offset is then dropped from each. *)
Theorem C3_callsites_sorted_distinct project f g :
  base_callsites f = [] ->
  exists cs found fv f' g',
    FunctionDefinitionM.extract_callsites project (f, g) = (Ok tt, (f', g')) /\
    visit_all project (preorder (root f)) ∅ [] (f, g) = (Ok found, (fv, g')) /\
    base_callsites f' = List.map drop_offset cs /\
    StronglySorted
      (fun x y => FunctionDefinitionM.offset_of x
                  <= FunctionDefinitionM.offset_of y) cs /\
    List.NoDup cs /\
    (forall x, In x cs <-> In x found).
Proof.
  intros Hbase.
  destruct (extract_callsites_fresh project f g Hbase)
    as (found & fv & g' & f' & Hv & Hrun & Hcs).
  exists (sorted FunctionDefinitionM.offset_of (py_set found)), found, fv, f', g'.
  repeat split; auto.
  - apply sorted_sorted.
  - apply sorted_set_nodup.
  - intros H. apply py_set_in.
    eapply Permutation_in; [apply sorted_perm | exact H].
  - intros H. eapply Permutation_in; [symmetry; apply sorted_perm|].
    now apply py_set_in.
Qed.

Lemma C3_callsites_sorted_distinct_witness :
  exists cs f' g',
    FunctionDefinitionM.extract_callsites (Examples.project_of Examples.twice_file)
      (Examples.object Examples.twice_heap 0%nat, mkState Examples.twice_heap ∅)
    = (Ok tt, (f', g')) /\
    cs = [("foo", 13, 1); ("foo", 20, 1)] /\
    base_callsites f' = List.map drop_offset cs.
Proof.
  destruct (C3_callsites_sorted_distinct
              (Examples.project_of Examples.twice_file)
              (Examples.object Examples.twice_heap 0%nat)
              (mkState Examples.twice_heap ∅) eq_refl)
    as (cs & found & fv & f' & g' & Hrun & _).
  exists [("foo", 13, 1); ("foo", 20, 1)], f', g'.
  split; [exact Hrun|]. split; [reflexivity|].
  vm_compute in Hrun. injection Hrun as <- _. reflexivity.
Defined.

(** C3 as stated fails: a target called twice on one line is recorded as
    two equal (target, line) pairs. *)
Lemma C3_counterexample :
  exists f' g',
    FunctionDefinitionM.extract_callsites (Examples.project_of Examples.twice_file)
      (Examples.object Examples.twice_heap 0%nat, mkState Examples.twice_heap ∅)
    = (Ok tt, (f', g')) /\
    base_callsites f' = [("foo", 1); ("foo", 1)] /\
    ~ List.NoDup (base_callsites f').
Proof.
  do 2 eexists. split; [vm_compute; reflexivity|].
  split; [reflexivity|].
  intros H. inversion H as [|x l Hin _]. apply Hin. now left.
Qed.

(** a function whose call sites and their locations are recorded is left
    alone, and so is the global state *)
Lemma extract_callsites_cached project f g :
  base_callsites f <> [] -> detailed_callsites f <> [] ->
  FunctionDefinitionM.extract_callsites project (f, g) = (Ok tt, (f, g)).
Proof.
  intros Hb Hd.
  unfold FunctionDefinitionM.extract_callsites, bind, FunctionDefinitionM.self,
    ret.
  cbn [fst snd]. destruct (base_callsites f); [congruence|].
  cbn [fst snd]. destruct (detailed_callsites f); [congruence|]. reflexivity.
Qed.

(** after an extraction, recorded call sites have recorded locations *)
Lemma extract_callsites_detailed project f g f1 g1 :
  FunctionDefinitionM.extract_callsites project (f, g) = (Ok tt, (f1, g1)) ->
  base_callsites f1 <> [] -> detailed_callsites f1 <> [].
Proof.
  unfold FunctionDefinitionM.extract_callsites. intros H.
  apply bind_ok_inv in H. destruct H as (f0 & s0 & _ & H).
  apply bind_ok_inv in H. destruct H as (u & [fm gm] & _ & H).
  apply bind_ok_inv in H. destruct H as (fm' & s1 & Hself & H).
  unfold FunctionDefinitionM.self in Hself. injection Hself as <- <-.
  cbn [fst snd] in H. destruct (detailed_callsites fm) eqn:Hd.
  - injection H as <- <-. simpl.
    destruct (base_callsites fm); [congruence|]. discriminate.
  - unfold ret in H. injection H as <- <-. rewrite Hd. discriminate.
Qed.

(** C7, as amended: call-site extraction is memoized when it recorded at
    least one call site: a second invocation, for whatever project, then
    returns with the function object and the global state exactly as the
    first left them. *)
Theorem C7_extraction_cached_when_nonempty project1 project2 f g f1 g1 :
  FunctionDefinitionM.extract_callsites project1 (f, g) = (Ok tt, (f1, g1)) ->
  base_callsites f1 <> [] ->
  FunctionDefinitionM.extract_callsites project2 (f1, g1) = (Ok tt, (f1, g1)).
Proof.
  intros Hrun Hb. apply extract_callsites_cached; [exact Hb|].
  eapply extract_callsites_detailed; eauto.
Qed.

Lemma C7_extraction_cached_when_nonempty_witness :
  exists f1 g1,
    FunctionDefinitionM.extract_callsites Examples.ctor_project
      (Examples.object Examples.ctor_heap 1%nat, mkState Examples.ctor_heap ∅)
    = (Ok tt, (f1, g1)) /\
    base_callsites f1 = [("S::S", 2)] /\
    FunctionDefinitionM.extract_callsites Examples.ctor_project_empty (f1, g1)
    = (Ok tt, (f1, g1)).
Proof.
  destruct (FunctionDefinitionM.extract_callsites Examples.ctor_project
              (Examples.object Examples.ctor_heap 1%nat,
               mkState Examples.ctor_heap ∅)) as [r [f1 g1]] eqn:E.
  assert (Hr : r = Ok tt /\ base_callsites f1 = [("S::S", 2)]).
  { vm_compute in E. injection E as <- <- _. split; reflexivity. }
  destruct Hr as [-> Hb]. exists f1, g1. split; [reflexivity|].
  split; [exact Hb|].
  apply (C7_extraction_cached_when_nonempty Examples.ctor_project
           Examples.ctor_project_empty _ _ _ _ E).
  rewrite Hb. discriminate.
Defined.

(** C7 as stated fails: a function without recorded call sites is traversed
    again by the second invocation, which here records a call site that the
    first one did not. *)
Lemma C7_counterexample :
  exists f1 g1 f2 g2,
    FunctionDefinitionM.extract_callsites Examples.ctor_project_empty
      (Examples.object Examples.ctor_heap 1%nat, mkState Examples.ctor_heap ∅)
    = (Ok tt, (f1, g1)) /\
    FunctionDefinitionM.extract_callsites Examples.ctor_project (f1, g1)
    = (Ok tt, (f2, g2)) /\
    base_callsites f1 = [] /\
    base_callsites f2 = [("S::S", 2)] /\
    detailed_callsites f2 <> detailed_callsites f1.
Proof.
  do 4 eexists. split; [vm_compute; reflexivity|].
  split; [vm_compute; reflexivity|].
  repeat split. discriminate.
Qed.

(** ** Function depth *)

(** a deeper recursion limit does not change a result *)
Lemma depth_loop_mono
    (rec1 rec2 : ref -> list string -> M State (Z * list string))
    project function l :
  (forall r v s res s', rec1 r v s = (Ok res, s') -> rec2 r v s = (Ok res, s')) ->
  forall d visited s res s',
    CppProjectM.depth_loop rec1 project function l d visited s = (Ok res, s') ->
    CppProjectM.depth_loop rec2 project function l d visited s = (Ok res, s').
Proof.
  intros Hrec. induction l as [|callsite l IH]; intros d visited s res s' H;
    [exact H|].
  simpl in H |- *. unfold bind, get in H |- *.
  destruct (CppProjectM._find_source_with_func_def (heap s) project
              (fst callsite)) as [target|]; [|now apply IH].
  destruct (bool_decide _); [now apply IH|].
  destruct (rec1 (snd target) visited s) as [[r|e] s1] eqn:E;
    [|discriminate H].
  rewrite (Hrec _ _ _ _ _ E).
  destruct (CppProjectM.set_object_depth function (Z.max d (fst r + 1)) s1)
    as [[u|e] s2]; [now apply IH | exact H].
Qed.

Lemma recursive_function_depth_mono project n m :
  (n <= m)%nat ->
  forall function visited s res s',
    CppProjectM._recursive_function_depth n project function visited s
      = (Ok res, s') ->
    CppProjectM._recursive_function_depth m project function visited s
      = (Ok res, s').
Proof.
  revert m. induction n as [|n IH]; intros m Hle function visited s res s' H;
    [discriminate H|].
  destruct m as [|m]; [lia|].
  cbn [CppProjectM._recursive_function_depth] in H |- *.
  unfold bind, get in H |- *.
  destruct (heap s !! function) as [f|]; [|exact H].
  destruct (negb (depth f =? -1)); [exact H|].
  destruct (base_callsites f) as [|c cs]; [exact H|].
  eapply depth_loop_mono; [|exact H].
  intros r v s0 res0 s0' H0. apply (IH m); [lia | exact H0].
Qed.

Lemma calculate_function_depth_mono project n m target s d s' :
  (n <= m)%nat ->
  CppProjectM._calculate_function_depth n project target s = (Ok d, s') ->
  CppProjectM._calculate_function_depth m project target s = (Ok d, s').
Proof.
  unfold CppProjectM._calculate_function_depth. intros Hle H.
  apply bind_ok_inv in H. destruct H as (r & s1 & Hrec & Hret).
  unfold bind.
  now rewrite (recursive_function_depth_mono project n m Hle _ _ _ _ _ Hrec).
Qed.

(** C2, as amended: for [void a(){ b(); } void b(){ a(); }] the depth
    computation terminates under every recursion limit of at least 2; the
    callee found on the current recursion path contributes exactly 1 without
    further descent, so with the call sites of both functions recorded and
    no depth memoized yet, the depth of each of the two functions is 2. *)
Theorem C2_mutual_recursion_depth limit :
  (2 <= limit)%nat ->
  fst (CppProjectM._calculate_function_depth limit Examples.mutual_full 0%nat
         Examples.mutual_extracted) = Ok 2 /\
  fst (CppProjectM._calculate_function_depth limit Examples.mutual_full 1%nat
         Examples.mutual_extracted) = Ok 2.
Proof.
  intros Hle. split.
  - destruct (CppProjectM._calculate_function_depth 2 Examples.mutual_full
                0%nat Examples.mutual_extracted) as [r s'] eqn:E.
    assert (Hr : r = Ok 2) by (vm_compute in E; now injection E as <- _).
    subst r.
    now rewrite (calculate_function_depth_mono _ 2 limit _ _ _ _ Hle E).
  - destruct (CppProjectM._calculate_function_depth 2 Examples.mutual_full
                1%nat Examples.mutual_extracted) as [r s'] eqn:E.
    assert (Hr : r = Ok 2) by (vm_compute in E; now injection E as <- _).
    subst r.
    now rewrite (calculate_function_depth_mono _ 2 limit _ _ _ _ Hle E).
Qed.

Lemma C2_mutual_recursion_depth_witness :
  fst (CppProjectM._calculate_function_depth 1000 Examples.mutual_full 0%nat
         Examples.mutual_extracted) = Ok 2 /\
  fst (CppProjectM._calculate_function_depth 1000 Examples.mutual_full 1%nat
         Examples.mutual_extracted) = Ok 2.
Proof. apply C2_mutual_recursion_depth. lia. Defined.

(** C2 as stated fails: the two depths are not both 1, neither when computed
    on the recorded call sites nor as reported by [generate_report]. *)
Lemma C2_counterexample :
  (exists da db,
     fst (CppProjectM._calculate_function_depth 1000 Examples.mutual_full
            0%nat Examples.mutual_extracted) = Ok da /\
     fst (CppProjectM._calculate_function_depth 1000 Examples.mutual_full
            1%nat Examples.mutual_extracted) = Ok db /\
     ~ (da = 1 /\ db = 1)) /\
  (exists da db,
     List.map functionDepth <$>
       all_functions_elements
         (report (fst (snd (CppProjectM.generate_report 1000 EmptyString
                              EmptyString "h.cpp"
                              (Examples.mutual_project,
                               mkState Examples.mutual_heap ∅)))))
     = Some [da; db] /\
     ~ (da = 1 /\ db = 1)).
Proof.
  split.
  - exists 2, 2. repeat split; [vm_compute; reflexivity ..|]. lia.
  - exists 1, 2. split; [vm_compute; reflexivity|]. lia.
Qed.

(** a function that calls itself has depth 1 *)
Lemma self_recursion_depth limit :
  (1 <= limit)%nat ->
  fst (CppProjectM._calculate_function_depth limit Examples.self_project 0%nat
         Examples.self_extracted) = Ok 1.
Proof.
  intros Hle.
  destruct (CppProjectM._calculate_function_depth 1 Examples.self_project
              0%nat Examples.self_extracted) as [r s'] eqn:E.
  assert (Hr : r = Ok 1) by (vm_compute in E; now injection E as <- _).
  subst r.
  now rewrite (calculate_function_depth_mono _ 1 limit _ _ _ _ Hle E).
Qed.

(** ** Reachable functions *)

Lemma get_function_node_run target l flag ns s :
  exists o s',
    Lookup.get_function_node target l flag ns s = (Ok o, s') /\
    heap s' = heap s.
Proof.
  unfold Lookup.get_function_node, bind, get, put, ret.
  destruct (_function_node_cache s !! (target, ns, flag)); [now eexists _, _|].
  destruct (Lookup.search _ _ _ _ _); now eexists _, _.
Qed.

Lemma reachable_loop_grows
    (recurse : string -> gset string -> M State (gset string)) l :
  (forall f v s r s', recurse f v s = (Ok r, s') -> v ⊆ r /\ heap s' = heap s) ->
  forall v s r s',
    CppProjectM.reachable_loop recurse l v s = (Ok r, s') ->
    v ⊆ r /\ heap s' = heap s.
Proof.
  intros Hrec. induction l as [|c l IH]; intros v s r s' H; simpl in H.
  - injection H as <- <-. split; [set_solver | reflexivity].
  - destruct (bool_decide (fst c ∈ v)); [now apply IH|].
    apply bind_ok_inv in H. destruct H as (v1 & s1 & H1 & H2).
    apply Hrec in H1. apply IH in H2. destruct H1, H2.
    split; [set_solver | congruence].
Qed.

(** a run that completes returns a set that extends the visited one and
    holds the entry point, and leaves the heap alone *)
Lemma reachable_grows project limit :
  forall function visited s r s',
    CppProjectM.get_reachable_functions limit project function visited s
      = (Ok r, s') ->
    visited ⊆ r /\ heap s' = heap s /\
    (Py.truthy function = true -> function ∈ r).
Proof.
  induction limit as [|limit IH]; intros function visited s r s' H;
    [discriminate H|].
  cbn [CppProjectM.get_reachable_functions] in H.
  destruct (Py.truthy function) eqn:Ht; simpl negb in H; cbv iota in H.
  2:{ injection H as <- <-. repeat split; [set_solver | discriminate]. }
  apply bind_ok_inv in H. destruct H as (s0 & s0' & Hget & H).
  injection Hget as <- <-.
  apply bind_ok_inv in H. destruct H as (func_node & s1 & Hlook & H).
  destruct (get_function_node_run function (all_functions project) false
              EmptyString s) as (o & s1' & Hrun & Hheap).
  rewrite Hrun in Hlook. injection Hlook as <- <-.
  assert (Hdone : forall r0 s0, ret ({[function]} ∪ visited) s1' = (Ok r0, s0) ->
                    visited ⊆ r0 /\ heap s0 = heap s /\
                    (true = true -> function ∈ r0)).
  { intros r0 s0 [= <- <-]. repeat split; [set_solver | exact Hheap | set_solver]. }
  destruct o as [func_node|]; [|now apply Hdone].
  destruct (fst <$> CppProjectM._find_source_with_func_def (heap s) project
                      function); [|now apply Hdone].
  apply bind_ok_inv in H. destruct H as (s2 & s2' & Hget & H).
  injection Hget as <- <-.
  apply reachable_loop_grows in H.
  - destruct H as [Hsub Hh]. repeat split; [set_solver | congruence | set_solver].
  - intros f v s0 r0 s0' H0. apply IH in H0. tauto.
Qed.

Lemma callsites_of_targets h func_node c :
  In c (CppProjectM.callsites_of h func_node) ->
  fst c ∈ callsite_targets h.
Proof.
  unfold CppProjectM.callsites_of, callsite_targets. intros Hin.
  destruct (h !! func_node) as [f|] eqn:E; [|destruct Hin].
  apply elem_of_list_to_set, list_elem_of_In, List.in_map, List.in_concat.
  exists (base_callsites f). split; [|exact Hin].
  apply List.in_map. apply list_elem_of_In. eapply list_elem_of_lookup_2, E.
Qed.

(** the loop completes when every nested call does: every target that it
    descends into is a recorded call-site target not visited before *)
Lemma reachable_loop_completes h
    (recurse : string -> gset string -> M State (gset string)) (bound : nat) l :
  (forall f v s,
     heap s = h ->
     (size (callsite_targets h ∖ ({[f]} ∪ v)) < bound)%nat ->
     exists r s', recurse f v s = (Ok r, s') /\ v ⊆ r /\ heap s' = h) ->
  (forall c, In c l -> fst c ∈ callsite_targets h) ->
  forall v s,
    heap s = h ->
    (size (callsite_targets h ∖ v) <= bound)%nat ->
    exists r s',
      CppProjectM.reachable_loop recurse l v s = (Ok r, s').
Proof.
  intros Hrec. induction l as [|c l IH]; intros Hl v s Hs Hsize; simpl.
  - now eexists _, _.
  - destruct (bool_decide (fst c ∈ v)) eqn:Hv.
    + apply IH; auto. intros c' Hc'. apply Hl. now right.
    + apply bool_decide_eq_false in Hv.
      assert (Hc : fst c ∈ callsite_targets h) by (apply Hl; now left).
      destruct (Hrec (fst c) v s Hs) as (r1 & s1 & Hrun & Hsub & Hh).
      { eapply Nat.lt_le_trans; [|exact Hsize].
        apply subset_size. set_solver. }
      unfold bind. rewrite Hrun.
      apply IH; auto.
      * intros c' Hc'. apply Hl. now right.
      * etransitivity; [|exact Hsize]. apply subseteq_size. set_solver.
Qed.

(** the computation completes under every recursion limit above the number
    of recorded call-site targets that are not visited yet *)
Lemma reachable_completes project limit :
  forall function visited s,
    (size (callsite_targets (heap s) ∖ ({[function]} ∪ visited)) < limit)%nat ->
    exists r s',
      CppProjectM.get_reachable_functions limit project function visited s
        = (Ok r, s').
Proof.
  induction limit as [|limit IH]; intros function visited s Hsize; [lia|].
  cbn [CppProjectM.get_reachable_functions].
  destruct (Py.truthy function) eqn:Ht; cbn [negb]; [|now eexists _, _].
  destruct (get_function_node_run function (all_functions project) false
              EmptyString s) as (o & s1 & Hrun & Hheap).
  unfold bind, get. rewrite Hrun.
  destruct o as [func_node|]; [|now eexists _, _].
  destruct (fst <$> CppProjectM._find_source_with_func_def (heap s) project
                      function); [|now eexists _, _].
  eapply (reachable_loop_completes (heap s) _ limit).
  - intros f v s0 Hs0 Hlt.
    destruct (IH f v s0) as (r & s' & Hr); [now rewrite Hs0|].
    exists r, s'. split; [exact Hr|].
    apply reachable_grows in Hr. destruct Hr as (Hsub & Hh & _).
    split; [exact Hsub | congruence].
  - intros cs Hcs. rewrite Hheap in Hcs.
    now apply callsites_of_targets in Hcs.
  - exact Hheap.
  - lia.
Qed.

(** an entry point for which no function object or no source file is found
    is the only name added *)
Lemma reachable_unlocated project limit function visited s :
  Py.truthy function = true ->
  fst (Lookup.get_function_node function (all_functions project) false
         EmptyString s) = Ok None \/
  CppProjectM._find_source_with_func_def (heap s) project function = None ->
  exists s',
    CppProjectM.get_reachable_functions (S limit) project function visited s
    = (Ok ({[function]} ∪ visited), s').
Proof.
  intros Ht Hnone. cbn [CppProjectM.get_reachable_functions].
  rewrite Ht. cbn [negb].
  destruct (get_function_node_run function (all_functions project) false
              EmptyString s) as (o & s1 & Hrun & Hheap).
  unfold bind, get. rewrite Hrun. rewrite Hrun in Hnone. simpl in Hnone.
  destruct o as [func_node|]; [|now eexists].
  destruct Hnone as [Hnone|Hnone]; [discriminate Hnone|].
  rewrite Hnone. now eexists.
Qed.

(** C10: for every non-empty entry-point name, under every recursion limit
    above the number of recorded call-site targets, the computation of the
    reachable functions completes and the returned set contains the
    entry-point name; when no function object, or no source file, is found
    for the name, the returned set is exactly the singleton of the name. *)
Theorem C10_reachable_contains_entry project function limit s :
  Py.truthy function = true ->
  (size (callsite_targets (heap s)) < limit)%nat ->
  exists r s',
    CppProjectM.get_reachable_functions limit project function ∅ s
      = (Ok r, s') /\
    function ∈ r /\
    (fst (Lookup.get_function_node function (all_functions project) false
            EmptyString s) = Ok None \/
     CppProjectM._find_source_with_func_def (heap s) project function = None ->
     r = {[function]}).
Proof.
  intros Ht Hlimit.
  destruct (reachable_completes project limit function ∅ s) as (r & s' & Hrun).
  { eapply Nat.le_lt_trans; [|exact Hlimit]. apply subseteq_size. set_solver. }
  exists r, s'. split; [exact Hrun|]. split.
  - apply reachable_grows in Hrun. now apply Hrun.
  - intros Hnone. destruct limit as [|limit]; [lia|].
    destruct (reachable_unlocated project limit function ∅ s Ht Hnone)
      as (s1 & Hrun1).
    rewrite Hrun1 in Hrun. injection Hrun as <- _. set_solver.
Qed.

Lemma mutual_targets :
  callsite_targets (heap Examples.mutual_extracted) = {[ "a"; "b" ]}.
Proof. vm_compute. reflexivity. Qed.

Lemma mutual_targets_size :
  size (callsite_targets (heap Examples.mutual_extracted)) = 2%nat.
Proof.
  rewrite mutual_targets. rewrite size_union.
  - now rewrite !size_singleton.
  - set_solver.
Qed.

Lemma C10_reachable_contains_entry_witness :
  exists r s',
    CppProjectM.get_reachable_functions 1000 Examples.mutual_full "a" ∅
      Examples.mutual_extracted = (Ok r, s') /\
    "a" ∈ r.
Proof.
  destruct (C10_reachable_contains_entry Examples.mutual_full "a" 1000
              Examples.mutual_extracted eq_refl)
    as (r & s' & Hrun & Hin & _).
  - rewrite mutual_targets_size. lia.
  - exists r, s'. split; [exact Hrun | exact Hin].
Defined.

(** the entry point alone is returned for a name that is not in the
    project, and both functions of the mutual recursion for one of them *)
Lemma reachable_examples :
  fst (CppProjectM.get_reachable_functions 1000 Examples.mutual_full "zzz" ∅
         Examples.mutual_extracted) = Ok {[ "zzz" ]} /\
  fst (CppProjectM.get_reachable_functions 1000 Examples.mutual_full "a" ∅
         Examples.mutual_extracted) = Ok {[ "a"; "b" ]}.
Proof. split; vm_compute; reflexivity. Qed.

(** ** The walk over the tree of a file *)

Lemma extends_refl st : extends st st.
Proof.
  repeat split; exists []; now rewrite List.app_nil_r.
Qed.

Lemma extends_trans st1 st2 st3 :
  extends st1 st2 -> extends st2 st3 -> extends st1 st3.
Proof.
  intros (Hs1 & [a1 Ha1] & [o1 Ho1]) (Hs2 & [a2 Ha2] & [o2 Ho2]).
  split; [congruence|]. split.
  - exists (a1 ++ a2)%list. now rewrite Ha2, Ha1, List.app_assoc.
  - exists (o1 ++ o2)%list. now rewrite Ho2, Ho1, List.app_assoc.
Qed.

Lemma frame_ret {A} (a : A) : frame (ret a).
Proof. intros st. apply extends_refl. Qed.

Lemma frame_lift {A} (r : res A) : frame (lift r).
Proof. intros st. apply extends_refl. Qed.

Lemma frame_self : frame CppSourceCodeFileM.self.
Proof. intros st. apply extends_refl. Qed.

Lemma frame_bind {A B} (m : M CppSourceCodeFileM.St A)
    (k : A -> M CppSourceCodeFileM.St B) :
  frame m -> (forall a, frame (k a)) -> frame (bind m k).
Proof.
  intros Hm Hk st. unfold bind. specialize (Hm st).
  destruct (m st) as [[a|e] s1]; simpl in *; [|exact Hm].
  eapply extends_trans; [exact Hm | apply Hk].
Qed.

Lemma frame_append_func_def func : frame (CppSourceCodeFileM.append_func_def func).
Proof.
  intros [f h]. repeat split; simpl; eauto.
Qed.

Lemma frame_unchanged {A} (m : M CppSourceCodeFileM.St A) :
  (forall st, func_defs (fst (snd (m st))) = func_defs (fst st) /\
              source_file (fst (snd (m st))) = source_file (fst st) /\
              snd (snd (m st)) = snd st) ->
  frame m.
Proof.
  intros H st. destruct (H st) as (Hf & Hs & Hh).
  split; [exact Hs|]. split.
  - exists []. now rewrite List.app_nil_r.
  - exists []. now rewrite List.app_nil_r.
Qed.

Lemma frame_append_struct_def d : frame (CppSourceCodeFileM.append_struct_def d).
Proof. apply frame_unchanged. now intros [f h]. Qed.

Lemma frame_append_union_def d : frame (CppSourceCodeFileM.append_union_def d).
Proof. apply frame_unchanged. now intros [f h]. Qed.

Lemma frame_append_enum_def d : frame (CppSourceCodeFileM.append_enum_def d).
Proof. apply frame_unchanged. now intros [f h]. Qed.

Lemma frame_append_preproc_def d :
  frame (CppSourceCodeFileM.append_preproc_def d).
Proof. apply frame_unchanged. now intros [f h]. Qed.

Lemma frame_append_typedef d : frame (CppSourceCodeFileM.append_typedef d).
Proof. apply frame_unchanged. now intros [f h]. Qed.

Lemma frame_add_include p : frame (CppSourceCodeFileM.add_include p).
Proof. apply frame_unchanged. now intros [f h]. Qed.

Lemma frame_append_macro_block b :
  frame (CppSourceCodeFileM.append_macro_block b).
Proof. apply frame_unchanged. now intros [f h]. Qed.

Ltac frame_step :=
  match goal with
  | |- frame (bind _ _) => apply frame_bind; [|intros ?]
  | |- frame (ret _) => apply frame_ret
  | |- frame (lift _) => apply frame_lift
  | |- frame CppSourceCodeFileM.self => apply frame_self
  | |- frame (CppSourceCodeFileM.append_func_def _) =>
      apply frame_append_func_def
  | |- frame (CppSourceCodeFileM.append_struct_def _) =>
      apply frame_append_struct_def
  | |- frame (CppSourceCodeFileM.append_union_def _) =>
      apply frame_append_union_def
  | |- frame (CppSourceCodeFileM.append_enum_def _) =>
      apply frame_append_enum_def
  | |- frame (CppSourceCodeFileM.append_preproc_def _) =>
      apply frame_append_preproc_def
  | |- frame (CppSourceCodeFileM.append_typedef _) =>
      apply frame_append_typedef
  | |- frame (CppSourceCodeFileM.add_include _) => apply frame_add_include
  | |- frame (CppSourceCodeFileM.append_macro_block _) =>
      apply frame_append_macro_block
  | |- context [if ?b then _ else _] => destruct b
  | |- context [match ?o with Some _ => _ | None => _ end] => destruct o
  end.

Lemma frame_process_function_node node ancestors namespace :
  frame (CppSourceCodeFileM._process_function_node node ancestors namespace).
Proof. unfold CppSourceCodeFileM._process_function_node. repeat frame_step. Qed.

Lemma frame_process_enum node namespace :
  frame (CppSourceCodeFileM._process_enum node namespace).
Proof. unfold CppSourceCodeFileM._process_enum. repeat frame_step. Qed.

Lemma frame_process_macro_definition node namespace :
  frame (CppSourceCodeFileM._process_macro_definition node namespace).
Proof.
  unfold CppSourceCodeFileM._process_macro_definition. repeat frame_step.
Qed.

Lemma frame_process_struct node parent namespace :
  frame (CppSourceCodeFileM._process_struct node parent namespace).
Proof. unfold CppSourceCodeFileM._process_struct. repeat frame_step. Qed.

Lemma frame_process_union node parent namespace :
  frame (CppSourceCodeFileM._process_union node parent namespace).
Proof. unfold CppSourceCodeFileM._process_union. repeat frame_step. Qed.

Lemma frame_process_typedef node namespace :
  frame (CppSourceCodeFileM._process_typedef node namespace).
Proof. unfold CppSourceCodeFileM._process_typedef. repeat frame_step. Qed.

Lemma frame_process_include node namespace :
  frame (CppSourceCodeFileM._process_include node namespace).
Proof. unfold CppSourceCodeFileM._process_include. repeat frame_step. Qed.

Lemma frame_process_branches chain conditions :
  frame (MacroBlocks.process_branches chain conditions).
Proof.
  revert conditions. induction chain as [|macro rest IH]; intros conditions;
    cbn [MacroBlocks.process_branches]; [apply frame_ret|].
  apply frame_bind; [apply frame_lift|]. intros [added|]; [|apply frame_ret].
  apply frame_bind; [apply frame_self|]. intros f.
  destruct rest as [|alternative rest']; [apply frame_append_macro_block|].
  apply frame_bind; [apply frame_append_macro_block|]. intros _. apply IH.
Qed.

Lemma frame_dispatch walk node ancestors child namespace :
  (forall ns, frame (walk ns)) ->
  frame (TreeWalk.dispatch walk node ancestors child namespace).
Proof.
  intros Hwalk. unfold TreeWalk.dispatch.
  destruct (Py.mem (ntype child) _); [apply frame_process_function_node|].
  destruct (ntype child =? "namespace_definition")%string.
  { unfold CppSourceCodeFileM._process_namespace_node.
    apply frame_bind; [apply frame_lift|]. intros ns. apply Hwalk. }
  destruct (ntype child =? "enum_specifier")%string;
    [apply frame_process_enum|].
  destruct (ntype child =? "preproc_def")%string;
    [apply frame_process_macro_definition|].
  destruct (ntype child =? "struct_specifier")%string;
    [apply frame_process_struct|].
  destruct (ntype child =? "union_specifier")%string;
    [apply frame_process_union|].
  destruct (ntype child =? "type_definition")%string;
    [apply frame_process_typedef|].
  destruct (ntype child =? "preproc_include")%string;
    [apply frame_process_include|].
  destruct (Py.mem (ntype child) _); [|apply frame_ret].
  apply frame_process_branches.
Qed.

Lemma frame_process_children walk node ancestors namespace l :
  Forall (fun c => forall ns, frame (walk c ns)) l ->
  frame (TreeWalk.process_children walk node ancestors namespace l).
Proof.
  induction 1 as [|c l Hc _ IH]; cbn [TreeWalk.process_children];
    [apply frame_ret|].
  apply frame_bind; [now apply frame_dispatch|]. intros _.
  apply frame_bind; [apply Hc|]. intros _. exact IH.
Qed.

Lemma frame_process_tree node :
  forall ancestors namespace,
    frame (TreeWalk.process_tree ancestors node namespace).
Proof.
  induction node as [node IH] using Node_rect'. intros ancestors namespace.
  destruct node as [i ty fl nm tx sr er eb cs].
  cbn [TreeWalk.process_tree children] in *.
  apply frame_process_children.
  eapply List.Forall_impl; [|exact IH]. intros c Hc ns. apply Hc.
Qed.

Lemma recorded_extends_l st0 st st' F r :
  extends st0 st -> recorded st st' F r -> recorded st0 st' F r.
Proof.
  intros (_ & [a Ha] & [o Ho]) (Hr & Hl & before & after & Hf).
  split; [|split; [exact Hl|]].
  - rewrite Ho, List.length_app in Hr. lia.
  - exists (a ++ before)%list, after.
    now rewrite Hf, Ha, <- !List.app_assoc.
Qed.

Lemma recorded_extends_r st st1 st' F r :
  recorded st st1 F r -> extends st1 st' -> recorded st st' F r.
Proof.
  intros (Hr & Hl & before & after & Hf) (_ & [a Ha] & [o Ho]).
  split; [exact Hr|]. split.
  - rewrite Ho. now apply lookup_app_l_Some.
  - exists before, (after ++ a)%list.
    now rewrite Ha, Hf, <- !List.app_assoc.
Qed.

Lemma recordable_handled f :
  recordable f = true ->
  Py.mem (ntype f) ["function_definition"; "preproc_function_def"] = true.
Proof.
  unfold recordable, Py.mem. intros H. simpl. apply orb_true_iff in H.
  destruct H as [->|H]; [reflexivity|].
  apply andb_true_iff in H. destruct H as [-> _]. now rewrite orb_true_r.
Qed.

Lemma function_definition_recordable f :
  ntype f = "function_definition" -> recordable f = true.
Proof. unfold recordable. now intros ->. Qed.

(** the constructor leaves an object valid exactly for a recordable node *)
Lemma new_valid_recordable node ancestors file namespace F :
  Py.mem (ntype node) ["function_definition"; "preproc_function_def"]
    = true ->
  FunctionDefinitionInit.new node ancestors file namespace = Ok F ->
  valid F = recordable node /\ root F = node.
Proof.
  intros Hty Hnew.
  unfold FunctionDefinitionInit.new,
    FunctionDefinitionInit._extract_information in Hnew.
  simpl in Hnew. unfold recordable.
  destruct (ntype node =? "preproc_function_def")%string eqn:Hmacro.
  - apply String.eqb_eq in Hmacro. rewrite Hmacro. simpl.
    unfold FunctionDefinitionInit.extract_macro in Hnew. simpl in Hnew.
    destruct (child_by_field_name "name" node) as [name_node|];
      [|now injection Hnew as <-].
    destruct (child_by_field_name "parameters" node) as [param_node|];
      [|now injection Hnew as <-].
    destruct (child_by_field_name "value" node) as [def_node|];
      [|now injection Hnew as <-].
    destruct (text_truthy name_node && text_truthy param_node
              && text_truthy def_node); [|now injection Hnew as <-].
    res_inv Hnew. now injection Hnew as <-.
  - apply extract_function_valid in Hnew. simpl in Hnew.
    unfold Py.mem in Hty. simpl in Hty. rewrite Hmacro in Hty.
    rewrite !orb_false_r in Hty. rewrite Hty. exact Hnew.
Qed.

(** a valid function object is allocated and entered in the list *)
Lemma process_function_node_records node ancestors namespace st st' :
  recordable node = true ->
  CppSourceCodeFileM._process_function_node node ancestors namespace st
    = (Ok tt, st') ->
  exists F,
    FunctionDefinitionInit.new node ancestors (source_file (fst st)) namespace
      = Ok F /\
    recorded st st' F (List.length (snd st)) /\
    extends st st'.
Proof.
  intros Hty Hrun.
  pose proof (frame_process_function_node node ancestors namespace st) as Hext.
  rewrite Hrun in Hext. simpl in Hext.
  unfold CppSourceCodeFileM._process_function_node, bind,
    CppSourceCodeFileM.self, lift in Hrun.
  destruct (FunctionDefinitionInit.new node ancestors (source_file (fst st))
              namespace) as [F|e] eqn:Hnew; [|discriminate Hrun].
  exists F. split; [reflexivity|]. split; [|exact Hext].
  assert (Hv : valid F = true).
  { destruct (new_valid_recordable _ _ _ _ _ (recordable_handled _ Hty) Hnew)
      as [Hv _]. now rewrite Hv. }
  rewrite Hv in Hrun. destruct st as [f h].
  unfold CppSourceCodeFileM.append_func_def in Hrun. injection Hrun as <-.
  split; [simpl; lia|]. split.
  - cbn [snd]. now apply list_lookup_middle.
  - exists [], []. reflexivity.
Qed.

Lemma bind_assoc {S A B C} (m : M S A) (k : A -> M S B) (k' : B -> M S C) s :
  bind (bind m k) k' s = bind m (fun a => bind (k a) k') s.
Proof. unfold bind. destruct (m s) as [[a|e] s1]; reflexivity. Qed.

Lemma bind_ext {S A B} (m : M S A) (k1 k2 : A -> M S B) s :
  (forall a s', k1 a s' = k2 a s') -> bind m k1 s = bind m k2 s.
Proof.
  intros H. unfold bind. destruct (m s) as [[a|e] s1]; [apply H | reflexivity].
Qed.

Lemma process_children_app walk node ancestors namespace l1 l2 st :
  TreeWalk.process_children walk node ancestors namespace (l1 ++ l2)%list st =
  bind (TreeWalk.process_children walk node ancestors namespace l1)
       (fun _ => TreeWalk.process_children walk node ancestors namespace l2) st.
Proof.
  revert st. induction l1 as [|c l1 IH]; intros st; [reflexivity|].
  cbn [app TreeWalk.process_children].
  rewrite bind_assoc. apply bind_ext. intros _ s1.
  rewrite bind_assoc. apply bind_ext. intros _ s2.
  apply IH.
Qed.

(** a function definition among the children of a node gets a function
    object in the scope in which the children are walked *)
Lemma process_children_records walk node ancestors namespace l1 f l2 st st' :
  (forall c ns, frame (walk c ns)) ->
  recordable f = true ->
  TreeWalk.process_children walk node ancestors namespace (l1 ++ f :: l2)%list st
    = (Ok tt, st') ->
  exists F r,
    FunctionDefinitionInit.new f (node :: ancestors) (source_file (fst st))
      namespace = Ok F /\
    recorded st st' F r.
Proof.
  intros Hwalk Hty Hrun.
  assert (Hframe : forall l,
            frame (TreeWalk.process_children walk node ancestors namespace l)).
  { intros l. apply frame_process_children.
    apply List.Forall_forall. intros c _. apply Hwalk. }
  rewrite process_children_app in Hrun.
  apply bind_ok_inv in Hrun. destruct Hrun as (u1 & s1 & Hpre & Hrun).
  cbn [TreeWalk.process_children] in Hrun.
  apply bind_ok_inv in Hrun. destruct Hrun as (u2 & s2 & Hdisp & Hrun).
  unfold TreeWalk.dispatch in Hdisp.
  rewrite (recordable_handled _ Hty) in Hdisp.
  destruct u2.
  apply process_function_node_records in Hdisp; [|exact Hty].
  destruct Hdisp as (F & Hnew & Hrec & _).
  pose proof (Hframe l1 st) as Hext1. rewrite Hpre in Hext1. simpl in Hext1.
  assert (Hext2 : extends s2 st').
  { pose proof (frame_bind _ _ (Hwalk f namespace)
                  (fun _ => Hframe l2) s2) as H.
    unfold TreeWalk.process_children in H, Hrun. rewrite Hrun in H. exact H. }
  exists F, (List.length (snd s1)). split.
  - destruct Hext1 as (Hs & _). now rewrite <- Hs.
  - eapply recorded_extends_l; [exact Hext1|].
    eapply recorded_extends_r; [exact Hrec | exact Hext2].
Qed.

Lemma process_tree_unfold ancestors node namespace :
  TreeWalk.process_tree ancestors node namespace =
  TreeWalk.process_children (TreeWalk.process_tree (node :: ancestors)) node
    ancestors namespace (children node).
Proof. destruct node; reflexivity. Qed.

Lemma extended_namespace_named block nm t namespace :
  child_by_field_name "name" block = Some nm ->
  ntype nm = "namespace_identifier" ->
  ntext nm = Some (Utf8 t) -> t <> EmptyString ->
  CppSourceCodeFileM.extended_namespace block namespace =
  Ok (CppSourceCodeFileM.strip_leading_scope (namespace ++ "::" ++ t)).
Proof.
  intros Hnm Hty Htx Hne. unfold CppSourceCodeFileM.extended_namespace.
  rewrite Hnm, Hty. simpl.
  unfold text_truthy, decode. rewrite Htx.
  destruct t; [congruence | reflexivity].
Qed.

(** the unconditional recursion reaches every function definition of a
    subtree in the scope in which the walk of the subtree started *)
Lemma process_tree_records chain :
  forall node ancestors namespace f st st',
    nested node chain f ->
    recordable f = true ->
    TreeWalk.process_tree ancestors node namespace st = (Ok tt, st') ->
    exists F r,
      FunctionDefinitionInit.new f (List.rev chain ++ node :: ancestors)%list
        (source_file (fst st)) namespace = Ok F /\
      recorded st st' F r.
Proof.
  induction chain as [|c chain IH];
    intros node ancestors namespace f st st' Hin Hf Hrun.
  - apply List.in_split in Hin. destruct Hin as (l1 & l2 & Hchildren).
    rewrite process_tree_unfold, Hchildren in Hrun.
    apply process_children_records in Hrun; [exact Hrun | | exact Hf].
    intros; apply frame_process_tree.
  - destruct Hin as [Hc Hin].
    apply List.in_split in Hc. destruct Hc as (l1 & l2 & Hchildren).
    assert (Hwalk : forall a n ns, frame (TreeWalk.process_tree a n ns))
      by (intros; apply frame_process_tree).
    assert (Hloop : forall l,
              frame (TreeWalk.process_children
                       (TreeWalk.process_tree (node :: ancestors)) node
                       ancestors namespace l)).
    { intros l. apply frame_process_children, List.Forall_forall.
      intros; apply Hwalk. }
    rewrite process_tree_unfold, Hchildren, process_children_app in Hrun.
    apply bind_ok_inv in Hrun. destruct Hrun as ([] & s1 & Hpre & Hrun).
    cbn [TreeWalk.process_children] in Hrun.
    apply bind_ok_inv in Hrun. destruct Hrun as ([] & s2 & Hdisp & Hrun).
    apply bind_ok_inv in Hrun. destruct Hrun as ([] & s3 & Hinner & Hpost).
    assert (Hext2 : extends st s2).
    { eapply extends_trans.
      - pose proof (Hloop l1 st) as H. rewrite Hpre in H. exact H.
      - pose proof (frame_dispatch
                      (TreeWalk.process_tree (node :: ancestors) c) node
                      ancestors c namespace (fun ns => Hwalk _ _ ns) s1) as H.
        rewrite Hdisp in H. exact H. }
    assert (Hext3 : extends s3 st').
    { pose proof (Hloop l2 s3) as H.
      unfold TreeWalk.process_children in H, Hpost. now rewrite Hpost in H. }
    destruct (IH c (node :: ancestors) namespace f s2 s3 Hin Hf Hinner)
      as (F & r & Hnew & Hrec).
    exists F, r. split.
    + simpl List.rev. rewrite <- List.app_assoc. simpl.
      destruct Hext2 as (Hs & _). now rewrite <- Hs.
    + eapply recorded_extends_l; [exact Hext2|].
      eapply recorded_extends_r; [exact Hrec | exact Hext3].
Qed.

(** the two walks of a namespace block: the function handler comes to a
    recordable node below the block first in the scope of the block and
    then in the outer scope *)
Lemma namespace_block_walked_twice
    ancestors node namespace pre block post nm t chain f st st' :
  children node = (pre ++ block :: post)%list ->
  ntype block = "namespace_definition" ->
  child_by_field_name "name" block = Some nm ->
  ntype nm = "namespace_identifier" ->
  ntext nm = Some (Utf8 t) -> t <> EmptyString ->
  nested block chain f ->
  recordable f = true ->
  TreeWalk.process_tree ancestors node namespace st = (Ok tt, st') ->
  exists F1 F2 r1 r2 A B C,
    FunctionDefinitionInit.new f
      (List.rev chain ++ block :: node :: ancestors)%list
      (source_file (fst st))
      (CppSourceCodeFileM.strip_leading_scope (namespace ++ "::" ++ t))
      = Ok F1 /\
    FunctionDefinitionInit.new f
      (List.rev chain ++ block :: node :: ancestors)%list
      (source_file (fst st)) namespace = Ok F2 /\
    root F1 = f /\ root F2 = f /\
    (r1 < r2)%nat /\
    snd st' !! r1 = Some F1 /\ snd st' !! r2 = Some F2 /\
    func_defs (fst st') =
      (func_defs (fst st) ++ A ++ r1 :: B ++ r2 :: C)%list.
Proof.
  intros Hnode Hblock Hnm Hnmty Hnmtx Ht Hin Hf Hrun.
  assert (Hwalk : forall a c ns, frame (TreeWalk.process_tree a c ns))
    by (intros a c ns; apply frame_process_tree).
  rewrite process_tree_unfold, Hnode, process_children_app in Hrun.
  apply bind_ok_inv in Hrun. destruct Hrun as ([] & sA & Hpre & Hrun).
  cbn [TreeWalk.process_children] in Hrun.
  apply bind_ok_inv in Hrun. destruct Hrun as ([] & sB & Hdisp & Hrun).
  apply bind_ok_inv in Hrun. destruct Hrun as ([] & sC & Houter & Hpost).
  (* the namespace handler *)
  unfold TreeWalk.dispatch in Hdisp. rewrite Hblock in Hdisp. simpl in Hdisp.
  unfold CppSourceCodeFileM._process_namespace_node in Hdisp.
  rewrite (extended_namespace_named block nm t namespace Hnm Hnmty Hnmtx Ht)
    in Hdisp.
  unfold bind, lift in Hdisp.
  pose proof (Hwalk (node :: ancestors) block
                (CppSourceCodeFileM.strip_leading_scope
                   (namespace ++ "::" ++ t)) sA) as HextAB.
  rewrite Hdisp in HextAB. simpl in HextAB.
  apply (process_tree_records chain _ _ _ f _ _ Hin Hf) in Hdisp.
  destruct Hdisp as (F1 & r1 & Hnew1 & Hrec1).
  (* the unconditional recursion *)
  pose proof (Hwalk (node :: ancestors) block namespace sB) as HextBC.
  rewrite Houter in HextBC. simpl in HextBC.
  apply (process_tree_records chain _ _ _ f _ _ Hin Hf) in Houter.
  destruct Houter as (F2 & r2 & Hnew2 & Hrec2).
  (* the states before and after *)
  assert (HextA : extends st sA).
  { pose proof (frame_process_children
                  (TreeWalk.process_tree (node :: ancestors)) node ancestors
                  namespace pre) as H.
    specialize (H ltac:(apply List.Forall_forall; intros; apply Hwalk) st).
    now rewrite Hpre in H. }
  assert (HextC : extends sC st').
  { pose proof (frame_process_children
                  (TreeWalk.process_tree (node :: ancestors)) node ancestors
                  namespace post) as H.
    specialize (H ltac:(apply List.Forall_forall; intros; apply Hwalk) sC).
    unfold TreeWalk.process_children in H, Hpost. now rewrite Hpost in H. }
  assert (HsA : source_file (fst sA) = source_file (fst st)) by apply HextA.
  assert (HsB : source_file (fst sB) = source_file (fst st)).
  { destruct HextAB as (Hx & _). congruence. }
  rewrite HsA in Hnew1. rewrite HsB in Hnew2.
  exists F1, F2, r1, r2.
  pose proof (recorded_extends_r _ _ _ _ _
                (recorded_extends_r _ _ _ _ _ Hrec1 HextBC) HextC) as H1.
  pose proof (recorded_extends_r _ _ _ _ _ Hrec2 HextC) as H2.
  destruct Hrec1 as (Hr1 & Hl1 & b1 & a1 & Hfd1).
  destruct Hrec2 as (Hr2 & Hl2 & b2 & a2 & Hfd2).
  destruct HextA as (_ & [a0 Ha0] & _). destruct HextC as (_ & [a3 Ha3] & _).
  exists (a0 ++ b1)%list, (a1 ++ b2)%list, (a2 ++ a3)%list.
  split; [exact Hnew1|]. split; [exact Hnew2|].
  split;
    [exact (proj2 (new_valid_recordable _ _ _ _ _
                     (recordable_handled _ Hf) Hnew1))|].
  split;
    [exact (proj2 (new_valid_recordable _ _ _ _ _
                     (recordable_handled _ Hf) Hnew2))|].
  split; [apply lookup_lt_Some in Hl1; lia|].
  split; [apply H1|]. split; [apply H2|].
  rewrite Ha3, Hfd2, Hfd1, Ha0.
  repeat (rewrite <- List.app_assoc; simpl). reflexivity.
Qed.

(** in that file the function list holds exactly the two entries, and both
    objects carry the same qualified name *)
Lemma namespace_function_listed_twice :
  func_defs (fst (snd (Examples.load "n.cpp"
                         (Examples.namespace_unit "std" "vector") [])))
    = [0%nat; 1%nat] /\
  List.map (fun F => (nid (root F), name F, namespace_or_class F))
    Examples.std_heap
    = [(210%N, "std::vector", "std"); (210%N, "std::vector", "std")].
Proof. split; vm_compute; reflexivity. Qed.

(** ** Further facts about the lookups and the constructor *)

(** in a project of two files that both define [f], the lookup of [f] has
    no result; [S::S], which only the fuzzy pass finds, and only in one
    file, is found there; a name that no file defines has no result *)
Lemma find_source_examples :
  List.map (fun m => source_file (fst m))
    (matching_sources (snd Examples.two_files) (fst Examples.two_files)
       "f" true) = ["t.cpp"; "c.cpp"] /\
  CppProjectM._find_source_with_func_def (snd Examples.two_files)
    Examples.two_file_project "f" = None /\
  matching_sources (snd Examples.two_files) (fst Examples.two_files)
    "S::S" true = [] /\
  (fun m => (source_file (fst m), snd m)) <$>
    CppProjectM._find_source_with_func_def (snd Examples.two_files)
      Examples.two_file_project "S::S" = Some ("c.cpp", 1%nat) /\
  CppProjectM._find_source_with_func_def (snd Examples.two_files)
    Examples.two_file_project "g" = None.
Proof. repeat split; vm_compute; reflexivity. Qed.

(** a function object is constructed without recorded call sites and
    without a memoized depth *)
Lemma new_fresh node ancestors file namespace F :
  FunctionDefinitionInit.new node ancestors file namespace = Ok F ->
  base_callsites F = [] /\ detailed_callsites F = [] /\ depth F = -1.
Proof.
  unfold FunctionDefinitionInit.new, FunctionDefinitionInit._extract_information.
  simpl. destruct (ntype node =? "preproc_function_def")%string.
  - unfold FunctionDefinitionInit.extract_macro. simpl. intros H.
    repeat match type of H with
           | match ?o with Some _ => _ | None => _ end = Ok _ => destruct o
           | (if ?b then _ else _) = Ok _ => destruct b
           end;
      res_inv H; injection H as <-; repeat split.
  - unfold FunctionDefinitionInit.extract_function. simpl. intros H.
    destruct (child_by_field_name "declarator" node); [|discriminate H].
    res_inv H.
    all: repeat match type of H with
           | context [let '(_, _) := ?p in _] => destruct p
           end; res_inv H.
    all: injection H as <-; repeat split.
Qed.

(** ** Completion of the depth computation *)

Lemma map_insert_same {A B} (g : A -> B) (h : list A) r x y :
  h !! r = Some x -> g y = g x ->
  List.map g (<[r := y]> h) = List.map g h.
Proof.
  revert r. induction h as [|a h IH]; intros [|r] E Hg; try discriminate E.
  - injection E as ->. simpl. now rewrite Hg.
  - simpl. f_equal. now apply IH.
Qed.

Lemma set_object_depth_names r d s u s' :
  CppProjectM.set_object_depth r d s = (Ok u, s') ->
  heap_names (heap s') = heap_names (heap s) /\
  List.length (heap s') = List.length (heap s).
Proof.
  unfold CppProjectM.set_object_depth, modify. intros [= _ <-].
  destruct (heap s !! r) as [f|] eqn:E; [|now split].
  simpl. split; [|apply length_insert].
  unfold heap_names. f_equal. now apply (map_insert_same name _ _ f).
Qed.

Lemma name_in_heap_names h r f :
  h !! r = Some f -> name f ∈ heap_names h.
Proof.
  intros E. unfold heap_names.
  apply elem_of_list_to_set, list_elem_of_In, List.in_map, list_elem_of_In.
  eapply list_elem_of_lookup_2, E.
Qed.

(** a function found by the source lookup is an object of the heap *)
Lemma get_function_node_valid h source_code nm exact r :
  CppSourceCodeFileLookup.get_function_node h source_code nm exact = Some r ->
  exists f, h !! r = Some f.
Proof.
  unfold CppSourceCodeFileLookup.get_function_node.
  assert (Hfound : forall p l,
            CppSourceCodeFileLookup.find_func h p l = Some r ->
            exists f, h !! r = Some f).
  { intros p l E. apply find_func_some in E.
    destruct E as (_ & f & Hf & _). now exists f. }
  destruct (CppSourceCodeFileLookup.find_func h
              (CppSourceCodeFileLookup.exact_match nm) (func_defs source_code))
    as [r1|] eqn:E1.
  - intros [= <-]. eapply Hfound, E1.
  - destruct exact; [discriminate|].
    destruct (CppSourceCodeFileLookup.find_func h
                (fun func => (name func =? nm)%string) (func_defs source_code))
      as [r2|] eqn:E2.
    + intros [= <-]. eapply Hfound, E2.
    + apply Hfound.
Qed.

Lemma find_source_valid h project nm found :
  CppProjectM._find_source_with_func_def h project nm = Some found ->
  exists f, h !! snd found = Some f.
Proof.
  rewrite find_source_matching.
  intros H.
  assert (Hin : exists exact,
             In found (matching_sources h (source_code_files project) nm exact)).
  { destruct (matching_sources h (source_code_files project) nm true)
      as [|m1 [|m2 ms]] eqn:E1.
    - destruct (matching_sources h (source_code_files project) nm false)
        as [|m1 [|m2 ms]] eqn:E2; try discriminate H.
      injection H as <-. exists false. rewrite E2. now left.
    - injection H as <-. exists true. rewrite E1. now left.
    - destruct (matching_sources h (source_code_files project) nm false)
        as [|m1' [|m2' ms']] eqn:E2; try discriminate H.
      injection H as <-. exists false. rewrite E2. now left. }
  destruct Hin as [exact Hin]. unfold matching_sources in Hin.
  apply list_elem_of_In, list_elem_of_omap in Hin.
  destruct Hin as (sc & _ & Hsc).
  destruct (CppSourceCodeFileLookup.get_function_node h sc nm exact)
    as [r|] eqn:E; [|discriminate Hsc].
  injection Hsc as <-. simpl. eapply get_function_node_valid, E.
Qed.

(** the loop over the call sites completes when every nested call does:
    it only descends into functions whose names are not visited yet *)
Lemma depth_loop_completes project function (N0 : gset string)
    (recurse : ref -> list string -> M State (Z * list string))
    (bound : nat) l :
  (forall t v s,
     heap_names (heap s) = N0 -> is_Some (heap s !! t) ->
     (size (N0 ∖ (list_to_set v
                   ∪ {[FunctionDefinitionM.name_of (heap s) t]})) < bound)%nat ->
     exists r s',
       recurse t v s = (Ok r, s') /\
       heap_names (heap s') = N0 /\
       List.length (heap s') = List.length (heap s) /\
       (list_to_set v : gset string) ⊆ list_to_set (snd r)) ->
  forall d v s,
    heap_names (heap s) = N0 ->
    (size (N0 ∖ list_to_set v) <= bound)%nat ->
    exists r s',
      CppProjectM.depth_loop recurse project function l d v s = (Ok r, s') /\
      heap_names (heap s') = N0 /\
      List.length (heap s') = List.length (heap s) /\
      (list_to_set v : gset string) ⊆ list_to_set (snd r).
Proof.
  intros Hrec. induction l as [|callsite l IH]; intros d v s HN Hsize.
  - eexists _, _. split; [reflexivity|]. repeat split; auto.
  - cbn [CppProjectM.depth_loop]. unfold bind, get.
    destruct (CppProjectM._find_source_with_func_def (heap s) project
                (fst callsite)) as [target|] eqn:E.
    + destruct (bool_decide _) eqn:Hv; [now apply IH|].
      apply bool_decide_eq_false in Hv.
      destruct (find_source_valid _ _ _ _ E) as [ft Hft].
      assert (Hname : FunctionDefinitionM.name_of (heap s) (snd target)
                      ∈ N0).
      { unfold FunctionDefinitionM.name_of. rewrite Hft, <- HN.
        eapply name_in_heap_names, Hft. }
      destruct (Hrec (snd target) v s HN (ex_intro _ ft Hft))
        as (r1 & s1 & Hrun & HN1 & Hlen1 & Hsub1).
      { eapply Nat.lt_le_trans; [|exact Hsize].
        apply subset_size. clear - Hv Hname. split; [set_solver|].
        intros Hsub.
        assert (Hin : FunctionDefinitionM.name_of (heap s) (snd target)
                      ∈ N0 ∖ list_to_set v) by set_solver.
        apply Hsub in Hin. set_solver. }
      rewrite Hrun.
      destruct (CppProjectM.set_object_depth function
                  (Z.max d (fst r1 + 1)) s1) as [[u|e] s2] eqn:E2;
        [|discriminate E2].
      apply set_object_depth_names in E2. destruct E2 as [HN2 Hlen2].
      destruct (IH (Z.max d (fst r1 + 1)) (snd r1) s2)
        as (r & s' & Hloop & HN' & Hlen' & Hsub'); [congruence | |].
      { etransitivity; [|exact Hsize]. apply subseteq_size.
        clear - Hsub1. set_solver. }
      exists r, s'. split; [exact Hloop|]. split; [exact HN'|].
      split; [congruence | clear - Hsub1 Hsub'; set_solver].
    + destruct (IH d (v ++ [fst callsite])%list s HN)
        as (r & s' & Hloop & HN' & Hlen' & Hsub').
      { etransitivity; [|exact Hsize]. apply subseteq_size.
        clear. set_solver. }
      exists r, s'. split; [exact Hloop|]. split; [exact HN'|].
      split; [exact Hlen' | clear - Hsub'; set_solver].
Qed.

(** the depth computation completes under every recursion limit above the
    number of function names that are not on the recursion path *)
Lemma recursive_function_depth_completes project limit :
  forall function visited s,
    is_Some (heap s !! function) ->
    (size (heap_names (heap s)
           ∖ (list_to_set visited
              ∪ {[FunctionDefinitionM.name_of (heap s) function]})) < limit)%nat ->
    exists r s',
      CppProjectM._recursive_function_depth limit project function visited s
        = (Ok r, s') /\
      heap_names (heap s') = heap_names (heap s) /\
      List.length (heap s') = List.length (heap s) /\
      (list_to_set visited : gset string) ⊆ list_to_set (snd r).
Proof.
  induction limit as [|limit IH]; intros function visited s [f Hf] Hsize;
    [lia|].
  cbn [CppProjectM._recursive_function_depth]. unfold bind, get.
  rewrite Hf.
  destruct (negb (depth f =? -1)).
  { eexists _, _. split; [reflexivity|]. repeat split; auto. }
  destruct (base_callsites f) as [|c cs] eqn:Hcs.
  { eexists _, _. split; [reflexivity|]. repeat split; auto. }
  unfold FunctionDefinitionM.name_of in Hsize. rewrite Hf in Hsize.
  destruct (depth_loop_completes project function (heap_names (heap s))
              (CppProjectM._recursive_function_depth limit project) limit
              (c :: cs)) with (d := 0) (v := (visited ++ [name f])%list)
              (s := s)
    as (r & s' & Hloop & HN' & Hlen' & Hsub'); auto.
  - intros t v s0 HN0 Ht Hlt. rewrite <- HN0 in Hlt.
    destruct (IH t v s0 Ht Hlt) as (r & s' & Hr & HN' & Hlen' & Hsub').
    exists r, s'. split; [exact Hr|]. split; [congruence|]. split; auto.
  - assert (Heq : (list_to_set (visited ++ [name f])%list : gset string)
                  = list_to_set visited ∪ {[name f]}) by (clear; set_solver).
    rewrite Heq. lia.
  - exists r, s'. split; [exact Hloop|]. split; [exact HN'|].
    split; [exact Hlen' | clear - Hsub'; set_solver].
Qed.

(** ** What the traversal of a function leaves alone *)

Lemma only_var_map_ret {A} (a : A) : only_var_map (ret a).
Proof. intros st. now split. Qed.

Lemma only_var_map_lift {A} (r : res A) : only_var_map (lift r).
Proof. intros st. now split. Qed.

Lemma only_var_map_get : only_var_map get.
Proof. intros st. now split. Qed.

Lemma only_var_map_self : only_var_map FunctionDefinitionM.self.
Proof. intros st. now split. Qed.

Lemma only_var_map_bind {A B} (m : M FunctionDefinitionM.St A)
    (k : A -> M FunctionDefinitionM.St B) :
  only_var_map m -> (forall a, only_var_map (k a)) -> only_var_map (bind m k).
Proof.
  intros Hm Hk st. unfold bind. specialize (Hm st).
  destruct (m st) as [[a|e] s1]; cbn [fst snd] in *; [|exact Hm].
  specialize (Hk a s1). destruct Hm, Hk. split; congruence.
Qed.

Lemma only_var_map_assign_var k v : only_var_map (FunctionDefinitionM.assign_var k v).
Proof. intros [f g]. now split. Qed.

Lemma only_var_map_global {A} (m : M State A) :
  (forall s, heap (snd (m s)) = heap s) ->
  only_var_map (FunctionDefinitionM.global m).
Proof.
  intros H [f g]. unfold FunctionDefinitionM.global. specialize (H g).
  destruct (m g) as [r g']. now split.
Qed.

Lemma get_function_node_heap target l flag ns s :
  heap (snd (Lookup.get_function_node target l flag ns s)) = heap s.
Proof.
  destruct (get_function_node_run target l flag ns s) as (o & s' & -> & H).
  exact H.
Qed.

Lemma only_var_map_try_except {A} (m h : M FunctionDefinitionM.St A) :
  only_var_map m -> only_var_map h -> only_var_map (try_except_decode m h).
Proof.
  intros Hm Hh st. unfold try_except_decode. specialize (Hm st).
  destruct (m st) as [[a|[| |]] s1]; cbn [fst snd] in *; try exact Hm.
  specialize (Hh s1). destruct Hm, Hh. split; congruence.
Qed.

Ltac only_var_map_step :=
  match goal with
  | |- only_var_map (bind _ _) => apply only_var_map_bind; [|intros ?]
  | |- only_var_map (ret _) => apply only_var_map_ret
  | |- only_var_map get => apply only_var_map_get
  | |- only_var_map FunctionDefinitionM.self => apply only_var_map_self
  | |- only_var_map (FunctionDefinitionM.assign_var _ _) => apply only_var_map_assign_var
  | |- only_var_map (FunctionDefinitionM.global (Lookup.get_function_node _ _ _ _)) =>
      apply only_var_map_global; intros ?; apply get_function_node_heap
  | |- only_var_map (lift _) => apply only_var_map_lift
  | |- only_var_map (let (_, _) := ?p in _) => destruct p
  | |- context [if ?b then _ else _] => destruct b
  | |- context [match ?o with Some _ => _ | None => _ end] => destruct o
  end.

Lemma only_var_map_qualify_member project full_name o :
  only_var_map (FunctionDefinitionM.qualify_member project full_name o).
Proof. unfold FunctionDefinitionM.qualify_member. repeat only_var_map_step. Qed.

Lemma only_var_map_field_expr_return_type project chain :
  only_var_map (FunctionDefinitionM.field_expr_return_type project chain).
Proof.
  induction chain as [|field_expr rest IH];
    cbn [FunctionDefinitionM.field_expr_return_type]; [apply only_var_map_ret|].
  destruct rest as [|arg rest']; [apply only_var_map_ret|].
  destruct (child_by_field_name "field" field_expr) as [field|];
    [|apply only_var_map_ret].
  apply only_var_map_bind; [apply only_var_map_lift|]. intros full_name.
  destruct (ntype arg =? "field_expression")%string.
  { apply only_var_map_bind; [exact IH|]. intros inner. apply only_var_map_qualify_member. }
  destruct (ntype arg =? "this")%string.
  { apply only_var_map_bind; [apply only_var_map_self|]. intros f.
    apply only_var_map_qualify_member. }
  destruct (Py.mem (ntype arg) ["identifier"; "qualified_identifier"]).
  { destruct (text_truthy arg); [|apply only_var_map_qualify_member].
    apply only_var_map_bind; [apply only_var_map_lift|]. intros t.
    apply only_var_map_bind; [apply only_var_map_self|]. intros f.
    apply only_var_map_qualify_member. }
  destruct (ntype arg =? "call_expression")%string; [apply only_var_map_ret|].
  apply only_var_map_qualify_member.
Qed.

Lemma only_var_map_resolve_simple_call func project :
  only_var_map (FunctionDefinitionM.resolve_simple_call func project).
Proof. unfold FunctionDefinitionM.resolve_simple_call. repeat only_var_map_step. Qed.

Lemma only_var_map_process_invoke expr project :
  only_var_map (FunctionDefinitionM._process_invoke expr project).
Proof.
  unfold FunctionDefinitionM._process_invoke.
  apply only_var_map_bind; [apply only_var_map_lift|]. intros _.
  destruct (child_by_field_name "function" expr) as [func|]; [|apply only_var_map_ret].
  apply only_var_map_bind.
  - destruct (Py.mem (ntype func) _ && text_truthy func);
      [apply only_var_map_resolve_simple_call|].
    destruct (ntype func =? "field_expression")%string; [|apply only_var_map_ret].
    apply only_var_map_bind; [apply only_var_map_field_expr_return_type|].
    intros r. apply only_var_map_ret.
  - intros target_name. destruct (Py.truthy target_name); [|apply only_var_map_ret].
    apply only_var_map_bind; [apply only_var_map_self|]. intros f.
    apply only_var_map_bind; [apply only_var_map_get|]. intros s. apply only_var_map_ret.
Qed.

Lemma only_var_map_process_declaration stmt project :
  only_var_map (FunctionDefinitionM.process_declaration stmt project).
Proof.
  unfold FunctionDefinitionM.process_declaration.
  destruct (child_by_field_name "type" stmt) as [var_type_obj|];
    [|apply only_var_map_ret].
  destruct (Py.mem (ntype var_type_obj) _); [apply only_var_map_ret|].
  apply only_var_map_bind; [apply only_var_map_lift|]. intros var_type.
  destruct (child_by_field_name "declarator" stmt) as [var_name|];
    [|apply only_var_map_ret].
  destruct (negb (text_truthy var_name)); [apply only_var_map_ret|].
  apply only_var_map_bind; [apply only_var_map_lift|]. intros _.
  apply only_var_map_bind; [apply only_var_map_get|]. intros s.
  destruct (skip_to_declarator (Some var_name)) as [vn|]; [|apply only_var_map_ret].
  destruct (_extract_pointer_array_from_type vn) as [[pcount acount] vn'].
  apply only_var_map_bind; [|intros _; apply only_var_map_ret].
  destruct (text_truthy vn'); [|apply only_var_map_ret].
  apply only_var_map_bind; [apply only_var_map_lift|]. intros t. apply only_var_map_assign_var.
Qed.

Lemma only_var_map_process_callsites stmt project :
  only_var_map (FunctionDefinitionM._process_callsites stmt project).
Proof.
  unfold FunctionDefinitionM._process_callsites.
  apply only_var_map_bind; [apply only_var_map_lift|]. intros _.
  destruct (ntype stmt =? "call_expression")%string;
    [apply only_var_map_process_invoke|].
  destruct (ntype stmt =? "new_expression")%string.
  { destruct (child_by_field_name "type" stmt) as [ctr_type|];
      [|apply only_var_map_ret].
    destruct (text_truthy ctr_type); [|apply only_var_map_ret].
    apply only_var_map_bind; [apply only_var_map_lift|]. intros cls. apply only_var_map_ret. }
  destruct (ntype stmt =? "declaration")%string;
    [apply only_var_map_process_declaration | apply only_var_map_ret].
Qed.

Lemma only_var_map_visit project node visited callsites :
  only_var_map (FunctionDefinitionM.visit project node visited callsites).
Proof.
  unfold FunctionDefinitionM.visit.
  destruct (bool_decide _); [apply only_var_map_ret|].
  apply only_var_map_bind; [|intros found; apply only_var_map_ret].
  apply only_var_map_try_except; [apply only_var_map_process_callsites | apply only_var_map_ret].
Qed.

Lemma only_var_map_traverse fuel project :
  forall cursor visited callsites,
    only_var_map (FunctionDefinitionM.traverse fuel project cursor visited callsites).
Proof.
  induction fuel as [|fuel IH]; intros cursor visited callsites;
    cbn [FunctionDefinitionM.traverse]; [apply only_var_map_ret|].
  apply only_var_map_bind; [apply only_var_map_visit|]. intros r.
  destruct (next_node cursor); [apply IH | apply only_var_map_ret].
Qed.

(** ** What call-site extraction leaves alone *)

Lemma only_var_map_keeps {A} (m : M FunctionDefinitionM.St A) :
  only_var_map m -> keeps m.
Proof.
  intros Hm st. destruct (Hm st) as [Hf Hh]. split; [|exact Hh].
  change (set_base_callsites []
            (set_detailed_callsites []
               (set_var_map ∅ (fst (snd (m st))))) =
          set_base_callsites []
            (set_detailed_callsites [] (set_var_map ∅ (fst st)))).
  now rewrite Hf.
Qed.

Lemma keeps_ret {A} (a : A) : keeps (ret a).
Proof. intros st. now split. Qed.

Lemma keeps_self : keeps FunctionDefinitionM.self.
Proof. intros st. now split. Qed.

Lemma keeps_bind {A B} (m : M FunctionDefinitionM.St A)
    (k : A -> M FunctionDefinitionM.St B) :
  keeps m -> (forall a, keeps (k a)) -> keeps (bind m k).
Proof.
  intros Hm Hk st. unfold bind. specialize (Hm st).
  destruct (m st) as [[a|e] s1]; cbn [fst snd] in *; [|exact Hm].
  specialize (Hk a s1). destruct Hm, Hk. split; congruence.
Qed.

Lemma keeps_traverse fuel project cursor visited callsites :
  keeps (FunctionDefinitionM.traverse fuel project cursor visited callsites).
Proof. apply only_var_map_keeps, only_var_map_traverse. Qed.

Lemma keeps_extract_callsites project :
  keeps (FunctionDefinitionM.extract_callsites project).
Proof.
  unfold FunctionDefinitionM.extract_callsites.
  apply keeps_bind; [apply keeps_self|]. intros f.
  apply keeps_bind.
  - destruct (base_callsites f); [|apply keeps_ret].
    apply keeps_bind; [apply keeps_traverse|]. intros callsites.
    intros [f0 g0]. now split.
  - intros _. apply keeps_bind; [apply keeps_self|]. intros f1.
    destruct (detailed_callsites f1); [|apply keeps_ret].
    intros [f0 g0]. now split.
Qed.

(** X1: the loop of call-site extraction, bounded by the number of nodes of
    the function, runs its body on every node of the subtree of the function
    once, parents before children and siblings from left to right, and
    ends because the cursor has nowhere to go, not because of the bound. *)
Theorem X1_traversal_visits_preorder project node s :
  FunctionDefinitionM.traverse (tree_size node) project (walk node) ∅ [] s =
  visit_all project (preorder node) ∅ [] s.
Proof. apply traverse_preorder. Qed.

Lemma extract_callsites_returns project st :
  exists st', FunctionDefinitionM.extract_callsites project st = (Ok tt, st').
Proof.
  destruct st as [f g].
  unfold FunctionDefinitionM.extract_callsites, bind, FunctionDefinitionM.self,
    ret.
  cbn [fst snd].
  destruct (base_callsites f) as [|c cs].
  - destruct (traverse_ok (tree_size (root f)) project (walk (root f)) ∅ []
                (f, g)) as (found & [fv g'] & ->).
    cbn [fst snd].
    change (detailed_callsites (set_base_callsites ?v fv))
      with (detailed_callsites fv).
    destruct (detailed_callsites fv); now eexists.
  - cbn [fst snd]. destruct (detailed_callsites f); now eexists.
Qed.

(** X2: call-site extraction never raises: a decoding error is caught at the
    node where it occurs, and nothing else can be raised, so every
    invocation returns. *)
Theorem X2_extract_callsites_never_raises project st :
  exists st', FunctionDefinitionM.extract_callsites project st = (Ok tt, st').
Proof. apply extract_callsites_returns. Qed.

(** X3: call-site extraction assigns nothing of the function object but its
    two call-site lists and its variable map, and changes no object of the
    heap (only the lookup cache may grow). *)
Theorem X3_extract_callsites_keeps project st :
  immutable_part (fst (snd (FunctionDefinitionM.extract_callsites project st)))
    = immutable_part (fst st) /\
  heap (snd (snd (FunctionDefinitionM.extract_callsites project st)))
    = heap (snd st).
Proof. apply keeps_extract_callsites. Qed.

(** ** Completion of report generation *)

Lemma calculate_function_depth_completes project limit target s :
  is_Some (heap s !! target) ->
  (size (heap_names (heap s)) < limit)%nat ->
  exists d s',
    CppProjectM._calculate_function_depth limit project target s = (Ok d, s') /\
    heap_names (heap s') = heap_names (heap s) /\
    List.length (heap s') = List.length (heap s) /\
    _function_node_cache s' = _function_node_cache s.
Proof.
  intros Ht Hsize.
  destruct (recursive_function_depth_completes project limit target [] s Ht)
    as (r & s' & Hrun & HN & Hlen & _).
  { eapply Nat.le_lt_trans; [|exact Hsize]. apply subseteq_size.
    clear. set_solver. }
  unfold CppProjectM._calculate_function_depth, bind. rewrite Hrun.
  exists (fst r), s'. split; [reflexivity|]. split; [exact HN|].
  split; [exact Hlen|].
  (* the cache is not touched by the depth computation *)
  clear - Hrun.
  assert (Hloop : forall limit l function d v s r s',
             (forall t v s r s',
                CppProjectM._recursive_function_depth limit project t v s
                  = (Ok r, s') ->
                _function_node_cache s' = _function_node_cache s) ->
             CppProjectM.depth_loop
               (CppProjectM._recursive_function_depth limit project) project
               function l d v s = (Ok r, s') ->
             _function_node_cache s' = _function_node_cache s).
  { intros n l function. induction l as [|c l IH]; intros d v s0 r0 s0' Hrec H.
    - now injection H as _ <-.
    - cbn [CppProjectM.depth_loop] in H. unfold bind, get in H.
      destruct (CppProjectM._find_source_with_func_def (heap s0) project
                  (fst c)) as [tg|]; [|now apply IH in H].
      destruct (bool_decide _); [now apply IH in H|].
      destruct (CppProjectM._recursive_function_depth n project (snd tg) v s0)
        as [[r1|e] s1] eqn:E; [|discriminate H].
      apply Hrec in E.
      unfold CppProjectM.set_object_depth, modify in H.
      apply IH in H; [|exact Hrec].
      rewrite H. destruct (heap s1 !! function); simpl; exact E. }
  revert target s r s' Hrun. generalize (@nil string).
  induction limit as [|limit IH]; intros v target s r s' Hrun;
    [discriminate Hrun|].
  cbn [CppProjectM._recursive_function_depth] in Hrun.
  unfold bind, get in Hrun.
  destruct (heap s !! target) as [f|]; [|discriminate Hrun].
  destruct (negb (depth f =? -1)); [now injection Hrun as _ <-|].
  destruct (base_callsites f) as [|c cs]; [now injection Hrun as _ <-|].
  eapply Hloop; [|exact Hrun]. intros t v0 s0 r0 s0' H0. eapply IH, H0.
Qed.

(** X4: the depth computation of a function object of the heap completes,
    without a recursion error, under every recursion limit above the number
    of distinct function names of the heap, whatever the call graph (cycles
    included); it changes no name and no cache entry. *)
Theorem X4_function_depth_completes project limit target s :
  is_Some (heap s !! target) ->
  (size (heap_names (heap s)) < limit)%nat ->
  exists d s',
    CppProjectM._calculate_function_depth limit project target s = (Ok d, s') /\
    heap_names (heap s') = heap_names (heap s) /\
    List.length (heap s') = List.length (heap s) /\
    _function_node_cache s' = _function_node_cache s.
Proof. apply calculate_function_depth_completes. Qed.

Lemma mutual_names :
  heap_names (heap Examples.mutual_extracted) = {[ "a"; "b" ]}.
Proof. vm_compute. reflexivity. Qed.

Lemma mutual_names_size :
  size (heap_names (heap Examples.mutual_extracted)) = 2%nat.
Proof.
  rewrite mutual_names. rewrite size_union.
  - now rewrite !size_singleton.
  - set_solver.
Qed.

Lemma X4_function_depth_completes_witness :
  exists d s',
    CppProjectM._calculate_function_depth 3 Examples.mutual_full 0%nat
      Examples.mutual_extracted = (Ok d, s').
Proof.
  destruct (X4_function_depth_completes Examples.mutual_full 3 0%nat
              Examples.mutual_extracted) as (d & s' & Hrun & _).
  - vm_compute. eexists. reflexivity.
  - rewrite mutual_names_size. lia.
  - exists d, s'. exact Hrun.
Defined.

(** running a method that keeps the object on an object of the heap changes
    neither the number of objects nor their names *)
Lemma with_object_extract project r s :
  is_Some (heap s !! r) ->
  exists s',
    CppProjectM.with_object r (FunctionDefinitionM.extract_callsites project) s
      = (Ok tt, s') /\
    heap_names (heap s') = heap_names (heap s) /\
    List.length (heap s') = List.length (heap s).
Proof.
  intros [f Hf]. unfold CppProjectM.with_object. rewrite Hf.
  destruct (extract_callsites_returns project (f, s)) as ([f' s1] & Hrun).
  pose proof (keeps_extract_callsites project (f, s)) as [Himm Hheap].
  rewrite Hrun in Himm, Hheap |- *. cbn [fst snd] in Himm, Hheap.
  eexists. split; [reflexivity|]. simpl. rewrite Hheap.
  split; [|apply length_insert].
  unfold heap_names. f_equal. apply (map_insert_same name _ _ f); [exact Hf|].
  change (name (immutable_part f') = name (immutable_part f)).
  now rewrite Himm.
Qed.

Lemma report_function_completes limit func p g :
  is_Some (heap g !! func) ->
  (size (heap_names (heap g)) < limit)%nat ->
  exists d g',
    CppProjectM.report_function limit func (p, g) = (Ok d, (p, g')) /\
    heap_names (heap g') = heap_names (heap g) /\
    List.length (heap g') = List.length (heap g).
Proof.
  intros Hf Hsize.
  destruct (with_object_extract p func g Hf) as (g1 & Hrun1 & HN1 & Hlen1).
  assert (Hf1 : is_Some (heap g1 !! func)).
  { apply lookup_lt_is_Some. rewrite Hlen1. now apply lookup_lt_is_Some. }
  destruct (calculate_function_depth_completes p limit func g1 Hf1)
    as (d & g2 & Hrun2 & HN2 & Hlen2 & _); [now rewrite HN1|].
  assert (Hf2 : is_Some (heap g2 !! func)).
  { apply lookup_lt_is_Some. rewrite Hlen2. now apply lookup_lt_is_Some. }
  unfold CppProjectM.report_function, bind, get, CppProjectM.global.
  cbn [fst snd]. rewrite Hrun1. cbn [fst snd].
  destruct Hf1 as [f1 Hf1]. rewrite Hf1. rewrite Hrun2. cbn [fst snd].
  destruct Hf2 as [f2 Hf2]. rewrite Hf2.
  eexists _, g2. split; [reflexivity|]. split; congruence.
Qed.

Lemma report_functions_completes limit l : forall func_list p g,
  Forall (fun func => is_Some (heap g !! func)) l ->
  (size (heap_names (heap g)) < limit)%nat ->
  exists added g',
    CppProjectM.report_functions limit l func_list (p, g)
      = (Ok (func_list ++ added)%list, (p, g')) /\
    List.length added = List.length l /\
    heap_names (heap g') = heap_names (heap g) /\
    List.length (heap g') = List.length (heap g).
Proof.
  induction l as [|func l IH]; intros func_list p g Hall Hsize.
  - exists [], g. rewrite app_nil_r. repeat split; reflexivity.
  - apply Forall_cons in Hall. destruct Hall as [Hf Hall].
    destruct (report_function_completes limit func p g Hf Hsize)
      as (d & g1 & Hrun1 & HN1 & Hlen1).
    cbn [CppProjectM.report_functions]. unfold bind. rewrite Hrun1.
    cbn [fst snd].
    destruct (IH (func_list ++ [d])%list p g1) as (added & g' & Hrun & Hl & HN & Hlen).
    + eapply Forall_impl; [exact Hall|]. intros r Hr. cbn beta in Hr |- *.
      apply lookup_lt_is_Some. rewrite Hlen1. now apply lookup_lt_is_Some.
    + now rewrite HN1.
    + exists (d :: added), g'. rewrite Hrun, <- app_assoc.
      split; [reflexivity|]. simpl. split; [now rewrite Hl|].
      split; congruence.
Qed.

Lemma generate_report_completes limit entry_function harness_name
    harness_source p g :
  Forall (fun func => is_Some (heap g !! func))
    (concat (List.map func_defs (source_code_files p))) ->
  (size (heap_names (heap g)) < limit)%nat ->
  exists p' g',
    CppProjectM.generate_report limit entry_function harness_name
      harness_source (p, g) = (Ok tt, (p', g')) /\
    all_functions p' = concat (List.map func_defs (source_code_files p)) /\
    (internal_func_list p = [] ->
     List.length (internal_func_list p') = List.length (all_functions p')) /\
    heap_names (heap g') = heap_names (heap g) /\
    List.length (heap g') = List.length (heap g).
Proof.
  intros Hall Hsize.
  unfold CppProjectM.generate_report, bind, get, put, modify. cbn [fst snd].
  destruct (internal_func_list p) as [|d0 l0] eqn:Hint.
  - match goal with
    | |- context [CppProjectM.report_functions limit ?l [] (?q, g)] =>
        destruct (report_functions_completes limit l [] q g Hall Hsize)
          as (added & g' & Hrun & Hlen & HN & Hl)
    end.
    rewrite Hrun. cbn [fst snd].
    eexists _, _. split; [reflexivity|]. cbn.
    split; [reflexivity|]. split; [intros _; exact Hlen|]. now split.
  - cbn [fst snd]. eexists _, _. split; [reflexivity|]. cbn.
    split; [reflexivity|]. split; [discriminate|]. now split.
Qed.

(** X5: report generation completes, without raising, for every project
    whose recursion limit is above the number of distinct function names:
    all the functions of the source files become [all_functions], and when
    no function list was built before, the list built has one element for
    each of them, in their order; the function objects keep their names. *)
Theorem X5_generate_report_completes limit entry_function harness_name
    harness_source p g :
  Forall (fun func => is_Some (heap g !! func))
    (concat (List.map func_defs (source_code_files p))) ->
  (size (heap_names (heap g)) < limit)%nat ->
  exists p' g',
    CppProjectM.generate_report limit entry_function harness_name
      harness_source (p, g) = (Ok tt, (p', g')) /\
    all_functions p' = concat (List.map func_defs (source_code_files p)) /\
    (internal_func_list p = [] ->
     List.length (internal_func_list p') = List.length (all_functions p')) /\
    heap_names (heap g') = heap_names (heap g) /\
    List.length (heap g') = List.length (heap g).
Proof. apply generate_report_completes. Qed.

Lemma mutual_heap_names :
  heap_names Examples.mutual_heap = {[ "a"; "b" ]}.
Proof. vm_compute. reflexivity. Qed.

Lemma mutual_heap_names_size :
  size (heap_names Examples.mutual_heap) = 2%nat.
Proof.
  rewrite mutual_heap_names. rewrite size_union.
  - now rewrite !size_singleton.
  - set_solver.
Qed.

Lemma mutual_heap_valid :
  Forall (fun func => is_Some (Examples.mutual_heap !! func))
    (concat (List.map func_defs (source_code_files Examples.mutual_project))).
Proof. vm_compute. repeat constructor; eexists; reflexivity. Qed.

Lemma X5_generate_report_completes_witness :
  exists p' g',
    CppProjectM.generate_report 3 EmptyString EmptyString "m.cpp"
      (Examples.mutual_project, mkState Examples.mutual_heap ∅)
      = (Ok tt, (p', g')) /\
    List.length (internal_func_list p') = List.length (all_functions p').
Proof.
  destruct (X5_generate_report_completes 3 EmptyString EmptyString "m.cpp"
              Examples.mutual_project (mkState Examples.mutual_heap ∅))
    as (p' & g' & Hrun & _ & Hlen & _).
  - exact mutual_heap_valid.
  - cbn [heap]. rewrite mutual_heap_names_size. lia.
  - exists p', g'. split; [exact Hrun | apply Hlen; reflexivity].
Defined.

(** ** Bounds of the reachable set *)

Lemma reachable_loop_bounded h
    (recurse : string -> gset string -> M State (gset string)) l :
  (forall f v s r s',
     heap s = h -> recurse f v s = (Ok r, s') ->
     r ⊆ {[f]} ∪ v ∪ callsite_targets h /\ heap s' = h) ->
  (forall c, In c l -> fst c ∈ callsite_targets h) ->
  forall v s r s',
    heap s = h ->
    CppProjectM.reachable_loop recurse l v s = (Ok r, s') ->
    r ⊆ v ∪ callsite_targets h.
Proof.
  intros Hrec. induction l as [|c l IH]; intros Hl v s r s' Hs H; simpl in H.
  - injection H as <- <-. set_solver.
  - assert (Hl' : forall c', In c' l -> fst c' ∈ callsite_targets h)
      by (intros c' Hc'; apply Hl; now right).
    assert (Hc : fst c ∈ callsite_targets h) by (apply Hl; now left).
    destruct (bool_decide (fst c ∈ v)); [now apply (IH Hl' v s r s')|].
    apply bind_ok_inv in H. destruct H as (v1 & s1 & H1 & H2).
    apply (Hrec _ _ _ _ _ Hs) in H1. destruct H1 as [Hsub1 Hs1].
    apply (IH Hl' _ _ _ _ Hs1) in H2.
    clear - Hc Hsub1 H2. set_solver.
Qed.

Lemma reachable_bounded project limit :
  forall function visited s r s',
    CppProjectM.get_reachable_functions limit project function visited s
      = (Ok r, s') ->
    r ⊆ {[function]} ∪ visited ∪ callsite_targets (heap s).
Proof.
  induction limit as [|limit IH]; intros function visited s r s' H;
    [discriminate H|].
  cbn [CppProjectM.get_reachable_functions] in H.
  destruct (Py.truthy function) eqn:Ht; simpl negb in H; cbv iota in H.
  2:{ injection H as <- <-. set_solver. }
  apply bind_ok_inv in H. destruct H as (s0 & s0' & Hget & H).
  injection Hget as <- <-.
  apply bind_ok_inv in H. destruct H as (func_node & s1 & Hlook & H).
  destruct (get_function_node_run function (all_functions project) false
              EmptyString s) as (o & s1' & Hrun & Hheap).
  rewrite Hrun in Hlook. injection Hlook as <- <-.
  assert (Hdone : forall r0 s0, ret ({[function]} ∪ visited) s1' = (Ok r0, s0) ->
                    r0 ⊆ {[function]} ∪ visited ∪ callsite_targets (heap s)).
  { intros r0 s0 [= <- <-]. set_solver. }
  destruct o as [func_node|]; [|now apply Hdone in H].
  destruct (fst <$> CppProjectM._find_source_with_func_def (heap s) project
                      function); [|now apply Hdone in H].
  apply bind_ok_inv in H. destruct H as (s2 & s2' & Hget & H).
  injection Hget as <- <-.
  apply (reachable_loop_bounded (heap s)) in H.
  - exact H.
  - intros f v s0 r0 s0' Hs0 H0. split.
    + apply IH in H0. now rewrite Hs0 in H0.
    + apply reachable_grows in H0. destruct H0 as (_ & Hh & _). congruence.
  - intros cs Hcs. rewrite Hheap in Hcs. now apply callsites_of_targets in Hcs.
  - exact Hheap.
Qed.

(** X6: under every recursion limit above the number of recorded call-site
    targets the set of reachable functions is computed, it keeps the names
    given as already visited, and it holds nothing but those, the entry
    point and names recorded as call-site targets; no function object is
    changed. *)
Theorem X6_reachable_within_targets project function visited limit s :
  (size (callsite_targets (heap s)) < limit)%nat ->
  exists r s',
    CppProjectM.get_reachable_functions limit project function visited s
      = (Ok r, s') /\
    visited ⊆ r /\
    r ⊆ {[function]} ∪ visited ∪ callsite_targets (heap s) /\
    heap s' = heap s.
Proof.
  intros Hlimit.
  destruct (reachable_completes project limit function visited s)
    as (r & s' & Hrun).
  { eapply Nat.le_lt_trans; [|exact Hlimit]. apply subseteq_size.
    clear. set_solver. }
  exists r, s'. split; [exact Hrun|].
  pose proof (reachable_bounded _ _ _ _ _ _ _ Hrun) as Hb.
  apply reachable_grows in Hrun. destruct Hrun as (Hsub & Hh & _).
  repeat split; assumption.
Qed.

Lemma X6_reachable_within_targets_witness :
  exists r s',
    CppProjectM.get_reachable_functions 3 Examples.mutual_full "b" {[ "x" ]}
      Examples.mutual_extracted = (Ok r, s') /\
    "x" ∈ r /\ r ⊆ {[ "b" ]} ∪ {[ "x" ]} ∪ {[ "a"; "b" ]}.
Proof.
  destruct (X6_reachable_within_targets Examples.mutual_full "b" {[ "x" ]} 3
              Examples.mutual_extracted)
    as (r & s' & Hrun & Hsub & Hb & _).
  - rewrite mutual_targets_size. lia.
  - exists r, s'. split; [exact Hrun|]. rewrite mutual_targets in Hb.
    split; [clear - Hsub; set_solver | exact Hb].
Defined.

(** ** Range of the depths *)

Lemma depth_loop_range
    (recurse : ref -> list string -> M State (Z * list string))
    project function l :
  (forall t v s r s',
     Forall (fun f => depth f = -1 \/ 1 <= depth f) (heap s) ->
     recurse t v s = (Ok r, s') ->
     0 <= fst r /\ Forall (fun f => depth f = -1 \/ 1 <= depth f) (heap s')) ->
  forall d v s r s',
    0 <= d ->
    Forall (fun f => depth f = -1 \/ 1 <= depth f) (heap s) ->
    CppProjectM.depth_loop recurse project function l d v s = (Ok r, s') ->
    0 <= fst r /\ Forall (fun f => depth f = -1 \/ 1 <= depth f) (heap s').
Proof.
  intros Hrec. induction l as [|c l IH]; intros d v s r s' Hd Hinv H.
  - injection H as <- <-. now split.
  - cbn [CppProjectM.depth_loop] in H. unfold bind, get in H.
    destruct (CppProjectM._find_source_with_func_def (heap s) project (fst c))
      as [target|]; [|now apply IH in H].
    destruct (bool_decide _); [apply IH in H; [exact H | lia | exact Hinv]|].
    destruct (recurse (snd target) v s) as [[r1|e] s1] eqn:E; [|discriminate H].
    apply (Hrec _ _ _ _ _ Hinv) in E. destruct E as [Hr1 Hinv1].
    unfold CppProjectM.set_object_depth, modify in H.
    apply IH in H; [exact H | lia |].
    destruct (heap s1 !! function) as [f|]; [|exact Hinv1].
    cbn [heap set_heap]. apply Forall_insert; [exact Hinv1|].
    right. cbn [depth set_depth]. lia.
Qed.

Lemma recursive_function_depth_range project limit :
  forall function visited s r s',
    Forall (fun f => depth f = -1 \/ 1 <= depth f) (heap s) ->
    CppProjectM._recursive_function_depth limit project function visited s
      = (Ok r, s') ->
    0 <= fst r /\ Forall (fun f => depth f = -1 \/ 1 <= depth f) (heap s').
Proof.
  induction limit as [|limit IH]; intros function visited s r s' Hinv H;
    [discriminate H|].
  cbn [CppProjectM._recursive_function_depth] in H. unfold bind, get in H.
  destruct (heap s !! function) as [f|] eqn:Hf; [|discriminate H].
  destruct (depth f =? -1) eqn:Hd; cbn [negb] in H.
  - destruct (base_callsites f) as [|c cs]; [injection H as <- <-; now split|].
    eapply depth_loop_range in H; [exact H | | lia | exact Hinv].
    intros t v s0 r0 s0' Hinv0 H0. eapply IH; [exact Hinv0 | exact H0].
  - injection H as <- <-. split; [|exact Hinv]. cbn [fst].
    apply Z.eqb_neq in Hd.
    pose proof (proj1 (Forall_lookup _ _) Hinv _ _ Hf) as Hrange.
    cbn beta in Hrange. lia.
Qed.

(** X7: a depth is never negative, and a depth of 0 is never memoized: when
    every function object has no memoized depth (-1) or one of at least 1,
    the depth computed for a function of the heap is at least 0, and
    afterwards every object still has no memoized depth or one of at least
    1.  So the depth of a function without resolved callees is computed anew
    by every call. *)
Theorem X7_function_depth_range project limit target s :
  is_Some (heap s !! target) ->
  (size (heap_names (heap s)) < limit)%nat ->
  Forall (fun f => depth f = -1 \/ 1 <= depth f) (heap s) ->
  exists d s',
    CppProjectM._calculate_function_depth limit project target s = (Ok d, s') /\
    0 <= d /\
    Forall (fun f => depth f = -1 \/ 1 <= depth f) (heap s').
Proof.
  intros Ht Hsize Hinv.
  destruct (calculate_function_depth_completes project limit target s Ht Hsize)
    as (d & s' & Hrun & _).
  exists d, s'. split; [exact Hrun|].
  unfold CppProjectM._calculate_function_depth, bind in Hrun.
  destruct (CppProjectM._recursive_function_depth limit project target [] s)
    as [[r|e] s1] eqn:E; [|discriminate Hrun].
  injection Hrun as <- <-.
  eapply recursive_function_depth_range; [exact Hinv | exact E].
Qed.

Lemma mutual_depths :
  Forall (fun f => depth f = -1 \/ 1 <= depth f)
    (heap Examples.mutual_extracted).
Proof. vm_compute. repeat constructor. Qed.

Lemma X7_function_depth_range_witness :
  exists d s',
    CppProjectM._calculate_function_depth 3 Examples.mutual_full 1%nat
      Examples.mutual_extracted = (Ok d, s') /\
    0 <= d.
Proof.
  destruct (X7_function_depth_range Examples.mutual_full 3 1%nat
              Examples.mutual_extracted) as (d & s' & Hrun & Hd & _).
  - vm_compute. eexists. reflexivity.
  - rewrite mutual_names_size. lia.
  - exact mutual_depths.
  - exists d, s'. split; [exact Hrun | exact Hd].
Defined.

(** ** The lookup cache *)

(** X8: the project-wide lookup remembers what it finds and only that: a
    function found for a target, scope and flag is returned by every later
    lookup of the same three, whatever function list is passed then (an
    empty one included), and a lookup that finds nothing changes neither
    the cache nor anything else. *)
Theorem X8_lookup_memoized target function_list one_layer_only namespace s o s' :
  Lookup.get_function_node target function_list one_layer_only namespace s
    = (Ok o, s') ->
  match o with
  | Some function =>
      forall function_list',
        Lookup.get_function_node target function_list' one_layer_only
          namespace s' = (Ok (Some function), s')
  | None => s' = s
  end.
Proof.
  unfold Lookup.get_function_node, bind, get, put, ret.
  destruct (_function_node_cache s !! (target, namespace, one_layer_only))
    as [cached|] eqn:Hc.
  - intros [= <- <-] function_list'. now rewrite Hc.
  - destruct (Lookup.search (heap s) target function_list one_layer_only
                namespace) as [function|].
    + intros [= <- <-] function_list'. cbn [_function_node_cache set_cache].
      now rewrite lookup_insert_eq.
    + now intros [= <- <-].
Qed.

Lemma X8_lookup_memoized_witness :
  Lookup.get_function_node "lib::vector" [] false EmptyString
    (snd (Lookup.get_function_node "lib::vector" [0%nat; 1%nat] false
            EmptyString (mkState Examples.lib_heap ∅)))
  = (Ok (Some 0%nat),
     snd (Lookup.get_function_node "lib::vector" [0%nat; 1%nat] false
            EmptyString (mkState Examples.lib_heap ∅))).
Proof.
  apply (X8_lookup_memoized "lib::vector" [0%nat; 1%nat] false EmptyString
           (mkState Examples.lib_heap ∅) (Some 0%nat)).
  vm_compute. reflexivity.
Defined.

Lemma suffix_match_some h function_list name_split r :
  Lookup.suffix_match h function_list name_split = Some r ->
  In r function_list /\
  exists func count,
    h !! r = Some func /\ (count < List.length name_split)%nat /\
    Py.endswith (name func) (Py.join (drop count name_split)) = true.
Proof.
  induction name_split as [|part rest IH]; [discriminate|].
  cbn [Lookup.suffix_match].
  destruct (CppSourceCodeFileLookup.find_func h _ function_list) as [r1|] eqn:E.
  - intros [= <-]. apply find_func_some in E.
    destruct E as (Hin & func & Hf & Hp). split; [exact Hin|].
    exists func, 0%nat. split; [exact Hf|]. split; [simpl; lia | exact Hp].
  - intros H. apply IH in H. destruct H as (Hin & func & count & Hf & Hlt & Hp).
    split; [exact Hin|]. exists func, (S count).
    split; [exact Hf|]. split; [simpl; lia | exact Hp].
Qed.

(** X9: a function returned by a lookup that is not answered from the
    cache is an object of the function list passed, and it is named like
    the target, or like the target within the scope of the lookup; only
    for a target that holds [::] and is not under [std::] may its name
    instead end with the target, or with the target without some of its
    leading scopes. *)
Theorem X9_lookup_sound target function_list one_layer_only namespace s r s' :
  _function_node_cache s !! (target, namespace, one_layer_only) = None ->
  Lookup.get_function_node target function_list one_layer_only namespace s
    = (Ok (Some r), s') ->
  In r function_list /\
  exists func,
    heap s !! r = Some func /\
    (name func = target \/
     (namespace <> EmptyString /\ name func = namespace ++ "::" ++ target) \/
     (Py.contains "::" target = true /\
      Py.startswith target "std::" = false /\
      exists count,
        let name_split :=
          if one_layer_only then Py.split1 target else Py.split target in
        (count < List.length name_split)%nat /\
        Py.endswith (name func) (Py.join (drop count name_split)) = true)).
Proof.
  intros Hc. unfold Lookup.get_function_node, bind, get, put, ret.
  rewrite Hc.
  destruct (Lookup.search (heap s) target function_list one_layer_only
              namespace) as [function|] eqn:E; [|discriminate].
  intros [= <- <-]. revert E. unfold Lookup.search.
  destruct (CppSourceCodeFileLookup.find_func (heap s)
              (fun function => (target =? name function)%string)
              function_list) as [r1|] eqn:E1.
  { intros [= <-]. apply find_func_some in E1.
    destruct E1 as (Hin & func & Hf & Hp). split; [exact Hin|].
    exists func. apply String.eqb_eq in Hp. auto. }
  assert (Hheur :
    (if negb (Py.contains "::" target) then None
     else if Py.startswith target "std::" then None
     else Lookup.suffix_match (heap s) function_list
            (if one_layer_only then Py.split1 target else Py.split target))
      = Some function ->
    In function function_list /\
    exists func,
      heap s !! function = Some func /\
      (name func = target \/
       (namespace <> EmptyString /\ name func = namespace ++ "::" ++ target) \/
       (Py.contains "::" target = true /\
        Py.startswith target "std::" = false /\
        exists count,
          let name_split :=
            if one_layer_only then Py.split1 target else Py.split target in
          (count < List.length name_split)%nat /\
          Py.endswith (name func) (Py.join (drop count name_split)) = true))).
  { destruct (Py.contains "::" target); [|discriminate]. cbn [negb].
    destruct (Py.startswith target "std::"); [discriminate|].
    intros H. apply suffix_match_some in H.
    destruct H as (Hin & func & count & Hf & Hlt & Hp).
    split; [exact Hin|]. exists func. split; [exact Hf|].
    right. right. repeat split. now exists count. }
  destruct (Py.truthy namespace) eqn:Hns; [|exact Hheur].
  destruct (CppSourceCodeFileLookup.find_func (heap s)
              (fun function =>
                 (namespace ++ "::" ++ target =? name function)%string)
              function_list) as [r2|] eqn:E2; [|exact Hheur].
  intros [= <-]. apply find_func_some in E2.
  destruct E2 as (Hin & func & Hf & Hp). split; [exact Hin|].
  exists func. apply String.eqb_eq in Hp. split; [exact Hf|].
  right. left. split; [|now symmetry]. intros ->. discriminate Hns.
Qed.

Lemma X9_lookup_sound_witness :
  exists r s',
    Lookup.get_function_node "x::lib::vector" [0%nat; 1%nat] false EmptyString
      (mkState Examples.lib_heap ∅) = (Ok (Some r), s') /\
    In r [0%nat; 1%nat].
Proof.
  assert (E : Lookup.get_function_node "x::lib::vector" [0%nat; 1%nat] false
                EmptyString (mkState Examples.lib_heap ∅)
              = (Ok (Some 0%nat),
                 snd (Lookup.get_function_node "x::lib::vector"
                        [0%nat; 1%nat] false EmptyString
                        (mkState Examples.lib_heap ∅))))
    by (vm_compute; reflexivity).
  eexists _, _. split; [exact E|].
  eapply (X9_lookup_sound "x::lib::vector" [0%nat; 1%nat] false EmptyString
            (mkState Examples.lib_heap ∅)); [reflexivity | exact E].
Defined.

(** ** The walk of a whole file *)

(** X10: the walk of a tree only appends: whatever the tree, the parents
    passed and the scope, and also when the walk stops with an error, the
    functions recorded before remain at the front of the function list of
    the file, in their order, the function objects allocated before remain
    in place, and the name of the file is kept. *)
Theorem X10_walk_appends ancestors node namespace st :
  extends st (snd (TreeWalk.process_tree ancestors node namespace st)).
Proof. apply frame_process_tree. Qed.

(** X11: when the processing of a file completes, no function definition of
    the tree is missed: for every node of kind [function_definition] below
    the root, at any depth, the function list of the file holds a function
    object built from that node with the parents it has in the tree; it is
    the object built in the outermost scope, whatever blocks enclose the
    definition. *)
Theorem X11_function_definitions_recorded
    root chain f source_file h file h' :
  nested root chain f ->
  ntype f = "function_definition" ->
  CppSourceCodeFileLookup.language_specific_process root
    (CppSourceCodeFileLookup.new_file source_file, h) = (Ok tt, (file, h')) ->
  exists F r,
    FunctionDefinitionInit.new f (List.rev chain ++ [root])%list source_file
      EmptyString = Ok F /\
    In r (func_defs file) /\ h' !! r = Some F /\ (List.length h <= r)%nat.
Proof.
  intros Hin Hf Hrun.
  unfold CppSourceCodeFileLookup.language_specific_process in Hrun.
  apply bind_ok_inv in Hrun. destruct Hrun as ([] & [f1 h1] & Hwalk & Hstore).
  destruct (process_tree_records chain root [] EmptyString f _ _ Hin
              (function_definition_recordable _ Hf) Hwalk)
    as (F & r & Hnew & Hlen & Hl & before & after & Hfd).
  exists F, r. split; [exact Hnew|].
  unfold CppSourceCodeFileLookup.store_full_type_defs in Hstore.
  injection Hstore as <- <-. cbn [func_defs fst snd] in *.
  split; [|split; [exact Hl | exact Hlen]].
  rewrite Hfd. apply in_or_app. right. apply in_or_app. right. now left.
Qed.

Lemma X11_function_definitions_recorded_witness :
  exists F r,
    FunctionDefinitionInit.new (Examples.namespace_function "g")
      (List.rev [Examples.namespace_block "n" "g"; Examples.namespace_body "g"]
         ++ [Examples.namespace_unit "n" "g"])%list "n.cpp" EmptyString
      = Ok F /\
    In r (func_defs (fst (snd (Examples.load "n.cpp"
                                 (Examples.namespace_unit "n" "g") [])))) /\
    snd (snd (Examples.load "n.cpp" (Examples.namespace_unit "n" "g") []))
      !! r = Some F /\
    (List.length (@nil FunctionDefinition) <= r)%nat.
Proof.
  apply (X11_function_definitions_recorded
           (Examples.namespace_unit "n" "g")
           [Examples.namespace_block "n" "g"; Examples.namespace_body "g"]
           (Examples.namespace_function "g") "n.cpp" []).
  - simpl. split; [now left|]. split; [right; right; now left|].
    right. now left.
  - reflexivity.
  - vm_compute. reflexivity.
Defined.

(** ** Chains of conditional blocks *)

Lemma process_branches_blocks chain :
  forall conditions st,
    exists added,
      macro_blocks (fst (snd (MacroBlocks.process_branches chain conditions st)))
        = (macro_blocks (fst st) ++ added)%list /\
      source_file (fst (snd (MacroBlocks.process_branches chain conditions st)))
        = source_file (fst st) /\
      (List.length added <= List.length chain)%nat /\
      contiguous added /\
      match added, chain with
      | b :: _, macro :: _ => line_start (block_pos b) = start_row macro
      | _, _ => True
      end /\
      Forall (fun b => pos_source_file (block_pos b) = source_file (fst st))
        added.
Proof.
  induction chain as [|macro rest IH]; intros conditions st.
  - exists []. cbn. rewrite app_nil_r. repeat split; auto.
  - cbn [MacroBlocks.process_branches]. unfold bind, lift.
    destruct (MacroBlocks.branch_condition macro
                (MacroBlocks.negate_last conditions)) as [[conds|]|e].
    2,3: exists []; cbn; rewrite app_nil_r; repeat split; auto; lia.
    unfold CppSourceCodeFileM.self. cbn [fst snd].
    destruct st as [f h]. cbn [fst snd].
    destruct rest as [|alternative rest'].
    + eexists [_]. cbn. repeat split; auto.
    + unfold CppSourceCodeFileM.append_macro_block. cbn [fst snd].
      match goal with
      | |- context [MacroBlocks.process_branches _ ?c ?s] =>
          destruct (IH c s)
            as (added & Hblocks & Hfile & Hlen & Hcont & Hhead & Hsrc)
      end.
      cbn [fst snd macro_blocks source_file] in Hblocks, Hfile, Hsrc.
      eexists (_ :: added). rewrite Hblocks, Hfile, <- app_assoc.
      split; [reflexivity|]. split; [reflexivity|].
      split; [simpl in Hlen |- *; lia|]. split; [|split].
      * destruct added as [|b added']; [exact I|].
        split; [|exact Hcont]. cbn. now rewrite Hhead.
      * reflexivity.
      * constructor; [reflexivity | exact Hsrc].
Qed.

(** X12: the records that one conditional block adds, for a chain of
    [#if], [#elif] and [#else] branches of any length, are appended to the
    records of the file, at most one for each branch; the first starts
    on the row of the block, every record ends on the row on which the next
    one starts, and all name the file. *)
Theorem X12_macro_blocks_contiguous macro namespace conditions st :
  exists added,
    macro_blocks
      (fst (snd (MacroBlocks._process_macro_block macro namespace conditions
                   st)))
      = (macro_blocks (fst st) ++ added)%list /\
    (List.length added <= List.length (field_chain "alternative" macro))%nat /\
    contiguous added /\
    match added with
    | b :: _ => line_start (block_pos b) = start_row macro
    | [] => True
    end /\
    Forall (fun b => pos_source_file (block_pos b) = source_file (fst st))
      added.
Proof.
  unfold MacroBlocks._process_macro_block.
  destruct (process_branches_blocks (field_chain "alternative" macro)
              conditions st)
    as (added & Hblocks & _ & Hlen & Hcont & Hhead & Hsrc).
  exists added. split; [exact Hblocks|]. split; [exact Hlen|].
  split; [exact Hcont|]. split; [|exact Hsrc].
  destruct added as [|b added']; [exact I|].
  now rewrite field_chain_unfold in Hhead.
Qed.

(** ** Uses of a function *)

Lemma string_app_nil_r (s : string) : s ++ EmptyString = s.
Proof.
  induction s as [|c s IH]; [reflexivity|].
  change (String c (s ++ EmptyString) = String c s). now f_equal.
Qed.

Lemma string_app_assoc (s t u : string) : (s ++ t) ++ u = s ++ t ++ u.
Proof.
  induction s as [|c s IH]; [reflexivity|].
  change (String c ((s ++ t) ++ u) = String c (s ++ t ++ u)). now f_equal.
Qed.

Lemma prefix_refl s : String.prefix s s = true.
Proof.
  induction s as [|c s IH]; [reflexivity|]. simpl.
  destruct (ascii_dec c c); [exact IH | congruence].
Qed.

Lemma prefix_trans a : forall b c,
  String.prefix a b = true -> String.prefix b c = true ->
  String.prefix a c = true.
Proof.
  induction a as [|x a IH]; intros b c Hab Hbc; [now destruct c|].
  destruct b as [|y b]; [discriminate Hab|].
  destruct c as [|z c]; [discriminate Hbc|].
  simpl in *.
  destruct (ascii_dec x y) as [->|]; [|discriminate Hab].
  destruct (ascii_dec y z) as [->|]; [|discriminate Hbc].
  eapply IH; eassumption.
Qed.

Lemma endswith_refl s : Py.endswith s s = true.
Proof. apply prefix_refl. Qed.

Lemma endswith_trans s t u :
  Py.endswith s t = true -> Py.endswith t u = true -> Py.endswith s u = true.
Proof.
  unfold Py.endswith, Py.startswith. intros Hst Htu.
  eapply prefix_trans; eassumption.
Qed.

Lemma calls_target_suffix target target' function :
  Py.endswith target target' = true ->
  CppProjectM.calls_target target function = true ->
  CppProjectM.calls_target target' function = true.
Proof.
  unfold CppProjectM.calls_target. intros Hsuf H.
  apply List.existsb_exists in H. destruct H as (callsite & Hin & H).
  apply List.existsb_exists. exists callsite. split; [exact Hin|].
  apply orb_true_iff. right. apply orb_true_iff in H.
  destruct H as [H|H].
  - apply String.eqb_eq in H. now rewrite H.
  - eapply endswith_trans; eassumption.
Qed.

Lemma filter_length_le {A} (p q : A -> bool) l :
  (forall x, p x = true -> q x = true) ->
  (List.length (List.filter p l) <= List.length (List.filter q l))%nat.
Proof.
  intros Hpq. induction l as [|x l IH]; [reflexivity|]. simpl.
  destruct (p x) eqn:Hp.
  - rewrite (Hpq x Hp). simpl. lia.
  - destruct (q x); simpl; lia.
Qed.

Lemma rev_onto_app s : forall acc,
  Py.rev_onto s acc = (Py.rev_onto s EmptyString ++ acc)%string.
Proof.
  induction s as [|c s IH]; intros acc; [reflexivity|]. simpl.
  rewrite (IH (String c acc)), (IH (String c EmptyString)).
  now rewrite string_app_assoc.
Qed.

Lemma rev_app s t : Py.rev (s ++ t) = (Py.rev t ++ Py.rev s)%string.
Proof.
  unfold Py.rev. induction s as [|c s IH]; simpl.
  - now rewrite string_app_nil_r.
  - rewrite rev_onto_app, IH, (rev_onto_app s (String c EmptyString)).
    now rewrite string_app_assoc.
Qed.

Lemma rev_rev s : Py.rev (Py.rev s) = s.
Proof.
  induction s as [|c s IH]; [reflexivity|].
  change (String c s) with (String c EmptyString ++ s)%string at 1.
  rewrite rev_app, rev_app, IH. reflexivity.
Qed.

Lemma prefix_app p : forall s,
  String.prefix p s = true <-> exists q, s = (p ++ q)%string.
Proof.
  induction p as [|c p IH]; intros s.
  - split; [intros _; now exists s | now destruct s].
  - destruct s as [|d s]; simpl.
    + split; [discriminate | intros [q H]; discriminate H].
    + destruct (ascii_dec c d) as [->|Hne].
      * rewrite IH. split; intros [q H]; exists q.
        -- change (String d s = String d (p ++ q)). congruence.
        -- change (String d s = String d (p ++ q)) in H. congruence.
      * split; [discriminate|]. intros [q H].
        change (String d s = String c (p ++ q)) in H. congruence.
Qed.

(** [s.endswith(p)]: [s] is [p] after some front part *)
Lemma endswith_app s p :
  Py.endswith s p = true <-> exists front, s = (front ++ p)%string.
Proof.
  unfold Py.endswith, Py.startswith. rewrite prefix_app. split.
  - intros [q H]. exists (Py.rev q).
    rewrite <- (rev_rev s), H, rev_app, rev_rev. reflexivity.
  - intros [front ->]. exists (Py.rev front). apply rev_app.
Qed.

Lemma calls_target_caller h target r :
  match h !! r with
  | Some function => CppProjectM.calls_target target function
  | None => false
  end = true <-> is_caller h target r.
Proof.
  unfold is_caller. destruct (h !! r) as [function|].
  - unfold CppProjectM.calls_target. rewrite List.existsb_exists. split.
    + intros (callsite & Hin & H). apply orb_true_iff in H.
      destruct H as [H|H].
      * apply String.eqb_eq in H.
        exists function, callsite, EmptyString. now rewrite H.
      * apply endswith_app in H. destruct H as [front H].
        now exists function, callsite, front.
    + intros (function' & callsite & front & [= <-] & Hin & H).
      exists callsite. split; [exact Hin|]. apply orb_true_iff. right.
      apply endswith_app. now exists front.
  - split; [discriminate|]. now intros (? & ? & ? & ? & _).
Qed.

Lemma filter_callers_counted h target l :
  callers_counted h target l
    (List.length
       (List.filter
          (fun r => match h !! r with
                    | Some function => CppProjectM.calls_target target function
                    | None => false
                    end) l)).
Proof.
  induction l as [|r l IH]; [constructor|]. simpl.
  destruct (match h !! r with
            | Some function => CppProjectM.calls_target target function
            | None => false
            end) eqn:E.
  - simpl. apply counted_caller; [|exact IH]. now apply calls_target_caller.
  - apply counted_other; [|exact IH]. intros H.
    apply calls_target_caller in H. congruence.
Qed.

(** the count of a list is unique *)
Lemma callers_counted_unique h target l : forall n m,
  callers_counted h target l n -> callers_counted h target l m -> n = m.
Proof.
  induction l as [|r l IH]; intros n m Hn Hm.
  - inversion Hn. inversion Hm. reflexivity.
  - inversion Hn; subst; inversion Hm; subst;
      try contradiction; try f_equal; eauto.
Qed.

(** X13: the uses of a function are counted in functions, not in call
    sites, and by the end of the target of a call: the count is the number
    of entries of the function lists of the source files, taken file by
    file, that have a call site whose target ends with the name (the name
    itself included), each entry counting once however many of its call
    sites match; so it is at most the number of these entries, and a name
    that ends with a second name has at most as many uses as the second
    one, since each of its callers is counted as a caller of the second
    too. *)
Theorem X13_function_uses_by_suffix h project target :
  (forall n,
     callers_counted h target
       (concat (List.map func_defs (source_code_files project))) n <->
     CppProjectM._calculate_function_uses h project target = Z.of_nat n) /\
  0 <= CppProjectM._calculate_function_uses h project target
    <= Z.of_nat (List.length
                   (concat (List.map func_defs (source_code_files project)))) /\
  forall target',
    Py.endswith target target' = true ->
    CppProjectM._calculate_function_uses h project target
      <= CppProjectM._calculate_function_uses h project target'.
Proof.
  unfold CppProjectM._calculate_function_uses. split; [|split; [split|]].
  - intros n. split.
    + intros Hn. f_equal.
      eapply callers_counted_unique; [apply filter_callers_counted|exact Hn].
    + intros Hn. apply Nat2Z.inj in Hn. subst n.
      apply filter_callers_counted.
  - lia.
  - apply inj_le, List.filter_length_le.
  - intros target' Hsuf. apply inj_le, filter_length_le. intros r H.
    destruct (h !! r) as [function|]; [|discriminate H].
    eapply calls_target_suffix; eassumption.
Qed.

Lemma X13_function_uses_by_suffix_witness :
  callers_counted (heap Examples.mutual_extracted) "b"
    (concat (List.map func_defs (source_code_files Examples.mutual_full)))
    1 /\
  CppProjectM._calculate_function_uses (heap Examples.mutual_extracted)
    Examples.mutual_full "x::b"
    <= CppProjectM._calculate_function_uses (heap Examples.mutual_extracted)
         Examples.mutual_full "b".
Proof.
  split.
  - apply (proj1 (X13_function_uses_by_suffix (heap Examples.mutual_extracted)
                    Examples.mutual_full "b") 1%nat).
    vm_compute. reflexivity.
  - exact (proj2 (proj2 (X13_function_uses_by_suffix
                           (heap Examples.mutual_extracted)
                           Examples.mutual_full "x::b")) "b" eq_refl).
Defined.

(** ** The lookup in one source file *)

Lemma method_lookup_sound h f target exact r :
  CppSourceCodeFileLookup.get_function_node h f target exact = Some r ->
  In r (func_defs f) /\
  exists func,
    h !! r = Some func /\
    (CppSourceCodeFileLookup.exact_match target func = true \/
     (exact = false /\
      (name func = target \/ name func = Py.last (Py.split target)))).
Proof.
  unfold CppSourceCodeFileLookup.get_function_node.
  destruct (CppSourceCodeFileLookup.find_func h
              (CppSourceCodeFileLookup.exact_match target) (func_defs f))
    as [r1|] eqn:E1.
  { intros [= <-]. apply find_func_some in E1.
    destruct E1 as (Hin & func & Hf & Hp). split; [exact Hin|].
    exists func. auto. }
  destruct exact; [discriminate|].
  destruct (CppSourceCodeFileLookup.find_func h
              (fun func => (name func =? target)%string) (func_defs f))
    as [r2|] eqn:E2.
  { intros [= <-]. apply find_func_some in E2.
    destruct E2 as (Hin & func & Hf & Hp). split; [exact Hin|].
    exists func. apply String.eqb_eq in Hp. auto. }
  intros E3. apply find_func_some in E3.
  destruct E3 as (Hin & func & Hf & Hp). split; [exact Hin|].
  exists func. apply String.eqb_eq in Hp. auto.
Qed.

(** X14: the lookup of a name in one source file returns a function of
    that file only: one whose name, qualified by its scope when it has one,
    is the name looked up, or, when the lookup is not exact, one whose
    bare name is the name looked up or its last component; and what the
    exact lookup finds, the lookup that is not exact returns as well. *)
Theorem X14_file_lookup_sound h f target exact r :
  CppSourceCodeFileLookup.get_function_node h f target exact = Some r ->
  In r (func_defs f) /\
  (exists func,
     h !! r = Some func /\
     (CppSourceCodeFileLookup.exact_match target func = true \/
      (exact = false /\
       (name func = target \/ name func = Py.last (Py.split target))))) /\
  (exact = true ->
   CppSourceCodeFileLookup.get_function_node h f target false = Some r).
Proof.
  intros H. destruct (method_lookup_sound _ _ _ _ _ H) as [Hin Hfunc].
  split; [exact Hin|]. split; [exact Hfunc|].
  intros ->. revert H. unfold CppSourceCodeFileLookup.get_function_node.
  destruct (CppSourceCodeFileLookup.find_func h
              (CppSourceCodeFileLookup.exact_match target) (func_defs f));
    [auto | discriminate].
Qed.

Lemma X14_file_lookup_sound_witness :
  In 1%nat (func_defs Examples.ctor_file) /\
  CppSourceCodeFileLookup.get_function_node Examples.ctor_heap
    Examples.ctor_file "x::f" false = Some 1%nat.
Proof.
  split.
  - exact (proj1 (X14_file_lookup_sound Examples.ctor_heap Examples.ctor_file
                    "x::f" false 1%nat eq_refl)).
  - reflexivity.
Defined.

(** X15: the source lookup of the project returns a file of the project
    together with a function of that very file, an object of the heap that
    the lookup of the name in that file returns (exactly, or else not
    exactly). *)
Theorem X15_find_source_consistent h project nm source_code func :
  CppProjectM._find_source_with_func_def h project nm
    = Some (source_code, func) ->
  In source_code (source_code_files project) /\
  In func (func_defs source_code) /\
  is_Some (h !! func) /\
  CppSourceCodeFileLookup.get_function_node h source_code nm false
    = Some func.
Proof.
  rewrite find_source_matching. intros H.
  assert (Hin : exists exact,
             In (source_code, func)
               (matching_sources h (source_code_files project) nm exact)).
  { destruct (matching_sources h (source_code_files project) nm true)
      as [|m1 [|m2 ms]] eqn:E1.
    - destruct (matching_sources h (source_code_files project) nm false)
        as [|m1 [|m2 ms]] eqn:E2; try discriminate H.
      injection H as ->. exists false. rewrite E2. now left.
    - injection H as ->. exists true. rewrite E1. now left.
    - destruct (matching_sources h (source_code_files project) nm false)
        as [|m1' [|m2' ms']] eqn:E2; try discriminate H.
      injection H as ->. exists false. rewrite E2. now left. }
  destruct Hin as [exact Hin]. unfold matching_sources in Hin.
  apply list_elem_of_In, list_elem_of_omap in Hin.
  destruct Hin as (sc & Hsc & Hfound).
  destruct (CppSourceCodeFileLookup.get_function_node h sc nm exact)
    as [r|] eqn:E; [|discriminate Hfound].
  injection Hfound as -> ->.
  split; [now apply list_elem_of_In|].
  destruct (method_lookup_sound _ _ _ _ _ E) as (Hr & f & Hf & _).
  split; [exact Hr|]. split; [now exists f|].
  destruct exact; [|exact E].
  revert E. unfold CppSourceCodeFileLookup.get_function_node.
  destruct (CppSourceCodeFileLookup.find_func h
              (CppSourceCodeFileLookup.exact_match nm) (func_defs source_code));
    [auto | discriminate].
Qed.

Lemma X15_find_source_consistent_witness :
  exists source_code,
    CppProjectM._find_source_with_func_def (snd Examples.two_files)
      Examples.two_file_project "S::S" = Some (source_code, 1%nat) /\
    In 1%nat (func_defs source_code).
Proof.
  destruct (CppProjectM._find_source_with_func_def (snd Examples.two_files)
              Examples.two_file_project "S::S") as [[source_code func]|] eqn:E.
  - assert (Hfunc : func = 1%nat) by (vm_compute in E; congruence).
    subst func. exists source_code. split; [reflexivity|].
    exact (proj1 (proj2 (X15_find_source_consistent _ _ _ _ _ E))).
  - exfalso. vm_compute in E. discriminate E.
Defined.

(** ** Parameters of a function *)

Lemma macro_params_length l : forall idx params,
  FunctionDefinitionInit.macro_params idx l = Ok params ->
  List.length params = List.length l.
Proof.
  induction l as [|param l IH]; intros idx params H; simpl in H.
  - now injection H as <-.
  - destruct (if text_truthy param then decode param else Ok _) as [nm|];
      [|discriminate H].
    simpl in H.
    destruct (FunctionDefinitionInit.macro_params (S idx) l) as [rest|] eqn:E;
      [|discriminate H].
    simpl in H. injection H as <-. simpl. f_equal. eapply IH, E.
Qed.

Lemma scan_params_inv l : forall acc r,
  FunctionDefinitionInit.scan_params l acc = Ok r ->
  List.length (fst (fst acc)) = List.length (snd (fst acc)) ->
  dom (snd acc) = (list_to_set (fst (fst acc)) : gset string) ->
  List.length (fst (fst r)) = List.length (snd (fst r)) /\
  dom (snd r) = (list_to_set (fst (fst r)) : gset string).
Proof.
  induction l as [|param l IH]; intros acc r H Hlen Hdom.
  - injection H as <-. now split.
  - cbn [FunctionDefinitionInit.scan_params] in H.
    destruct (ntype param =? "parameter_declaration")%string;
      [|now apply (IH acc)].
    destruct (skip_to_declarator (child_by_field_name "declarator" param))
      as [param_name|].
    2:{ destruct (child_by_field_name "type" param),
          (child_by_field_name "declarator" param); now apply (IH acc). }
    destruct (_extract_pointer_array_from_type param_name)
      as [[pcount acount] pn].
    assert (Hstep : forall param_type,
      match param_type with
      | None => Raise AttributeError
      | Some param_type =>
          res_bind (decode param_type) (fun ty =>
          res_bind (decode pn) (fun nm =>
            let '(names, types, vars) := acc in
            FunctionDefinitionInit.scan_params l
              ((names ++ [Py.remove_char "&" nm])%list,
               (types ++ [(ty ++ Py.repeat "*" pcount
                              ++ Py.repeat "[]" acount)%string])%list,
               <[Py.remove_char "&" nm :=
                   (ty ++ Py.repeat "*" pcount
                       ++ Py.repeat "[]" acount)%string]> vars)))
      end = Ok r ->
      List.length (fst (fst r)) = List.length (snd (fst r)) /\
      dom (snd r) = (list_to_set (fst (fst r)) : gset string)).
    { intros param_type H'.
      destruct param_type as [param_type|]; [|discriminate H'].
      destruct (decode param_type) as [ty|]; [|discriminate H']. simpl in H'.
      destruct (decode pn) as [nm|]; [|discriminate H']. simpl in H'.
      destruct acc as [[names types] vars]. cbn [fst snd] in *.
      apply IH in H'; [exact H' | |]; cbn [fst snd].
      - rewrite !length_app. simpl. lia.
      - rewrite dom_insert_L, list_to_set_app_L, Hdom. clear. set_solver. }
    destruct (child_by_field_name "type" param) as [param_type|];
      [exact (Hstep (Some param_type) H)|].
    destruct (child_by_field_name "declarator" param);
      [exact (Hstep None H) | now apply (IH acc)].
Qed.

Lemma extract_function_args ancestors self F :
  FunctionDefinitionInit.extract_function ancestors self = Ok F ->
  List.length (arg_names self) = List.length (arg_types self) ->
  dom (var_map self) = (list_to_set (arg_names self) : gset string) ->
  List.length (arg_names F) = List.length (arg_types F) /\
  dom (var_map F) = (list_to_set (arg_names F) : gset string).
Proof.
  unfold FunctionDefinitionInit.extract_function. intros H Hlen Hdom.
  destruct (child_by_field_name "declarator" (root self)); [|discriminate H].
  destruct (decode n) as [sig|]; [|discriminate H]. simpl in H.
  destruct (FunctionDefinitionInit.scan_declarator_children (children n) None)
    as [param_list_node|]; [|discriminate H]. simpl in H.
  destruct (FunctionDefinitionInit.scope_from_parents ancestors EmptyString)
    as [full_name|]; [|discriminate H]. simpl in H.
  destruct (FunctionDefinitionInit.walk_declarators _ _ _) as [[tmp_name sc]|];
    [|discriminate H]. simpl in H.
  destruct (match child_by_field_name "type" (root self) with
            | Some type_node => decode type_node
            | None => Ok "void"
            end) as [ret_ty|]; [|discriminate H]. simpl in H.
  destruct (match param_list_node with
            | Some pl =>
                FunctionDefinitionInit.scan_params (children pl)
                  (arg_names self, arg_types self, var_map self)
            | None => Ok (arg_names self, arg_types self, var_map self)
            end) as [[[names types] vars]|] eqn:Eparams; [|discriminate H].
  simpl in H.
  destruct (FunctionDefinitionInit._process_assert_stmts _) as [asserts|];
    [|discriminate H].
  simpl in H. injection H as <-. cbn [arg_names arg_types var_map].
  destruct param_list_node as [pl|].
  - apply scan_params_inv in Eparams; [exact Eparams | exact Hlen | exact Hdom].
  - injection Eparams as <- <- <-. now split.
Qed.

(** X16: a function object is built with as many parameter types as
    parameter names, so the parameter count of its report element is the
    number of its parameter names; for a function definition that is not a
    macro, the variables known at first are the parameter names. *)
Theorem X16_parameters_aligned node ancestors file namespace F :
  FunctionDefinitionInit.new node ancestors file namespace = Ok F ->
  List.length (arg_names F) = List.length (arg_types F) /\
  (forall func_uses func_depth reached,
     argCount (CppProjectM.func_dict F func_uses func_depth reached)
     = Z.of_nat (List.length
                   (argNames (CppProjectM.func_dict F func_uses func_depth
                                reached)))) /\
  ((ntype node =? "preproc_function_def")%string = false ->
   dom (var_map F) = (list_to_set (arg_names F) : gset string)).
Proof.
  intros H.
  assert (Hlen : List.length (arg_names F) = List.length (arg_types F)).
  { revert H.
    unfold FunctionDefinitionInit.new,
      FunctionDefinitionInit._extract_information.
    cbn [root FunctionDefinitionInit.initial].
    destruct (ntype node =? "preproc_function_def")%string.
    - unfold FunctionDefinitionInit.extract_macro.
      cbn [root FunctionDefinitionInit.initial arg_names arg_types].
      intros H.
      destruct (child_by_field_name "name" node) as [name_node|];
        [|now injection H as <-].
      destruct (child_by_field_name "parameters" node) as [param_node|];
        [|now injection H as <-].
      destruct (child_by_field_name "value" node) as [def_node|];
        [|now injection H as <-].
      destruct (_ && _); [|now injection H as <-].
      destruct (decode name_node) as [nm|]; [|discriminate H]. simpl in H.
      destruct (FunctionDefinitionInit.macro_params 0 (children param_node))
        as [params|]; [|discriminate H]. simpl in H.
      destruct (decode param_node) as [ptext|]; [|discriminate H]. simpl in H.
      injection H as <-. simpl. now rewrite length_map.
    - intros H. now apply extract_function_args in H. }
  split; [exact Hlen|]. split.
  - intros func_uses func_depth reached. cbn. now rewrite Hlen.
  - intros Hty. revert H.
    unfold FunctionDefinitionInit.new,
      FunctionDefinitionInit._extract_information.
    cbn [root FunctionDefinitionInit.initial]. rewrite Hty.
    intros H. apply extract_function_args in H; [apply H | reflexivity |].
    cbn. now rewrite dom_empty_L.
Qed.

Lemma X16_parameters_aligned_witness :
  exists F,
    FunctionDefinitionInit.new Examples.fun_add [Examples.add_unit] "a.c"
      EmptyString = Ok F /\
    arg_names F = ["a"; "b"] /\ arg_types F = ["int"; "char*"] /\
    List.length (arg_names F) = List.length (arg_types F).
Proof.
  destruct (FunctionDefinitionInit.new Examples.fun_add [Examples.add_unit]
              "a.c" EmptyString)
    as [F|e] eqn:E; [|exfalso; vm_compute in E; discriminate E].
  exists F. split; [reflexivity|].
  pose proof (proj1 (X16_parameters_aligned _ _ _ _ _ E)) as Hlen.
  vm_compute in E. injection E as <-.
  split; [reflexivity|]. split; [reflexivity | exact Hlen].
Defined.

(** ** Instruction and basic-block counts *)

Lemma traverse_instr_count_unfold n :
  _traverse_node_instr_count n =
  (if Py.contains "statement" (ntype n) then 1 else 0) +
  fold_right (fun c acc => _traverse_node_instr_count c + acc) 0 (children n).
Proof.
  destruct n; reflexivity.
Qed.

Lemma traverse_instr_count n :
  _traverse_node_instr_count n
  = Z.of_nat (kind_count (Py.contains "statement") n).
Proof.
  induction n as [n IH] using Node_rect'.
  rewrite traverse_instr_count_unfold. unfold kind_count.
  rewrite preorder_unfold.
  change (List.filter (fun c => Py.contains "statement" (ntype c))
            (n :: flat_map preorder (children n)))
    with (if Py.contains "statement" (ntype n)
          then n :: List.filter (fun c => Py.contains "statement" (ntype c))
                      (flat_map preorder (children n))
          else List.filter (fun c => Py.contains "statement" (ntype c))
                 (flat_map preorder (children n))).
  assert (Hcs : fold_right (fun c acc => _traverse_node_instr_count c + acc) 0
                  (children n) =
                Z.of_nat (List.length
                  (List.filter (fun c => Py.contains "statement" (ntype c))
                     (flat_map preorder (children n))))).
  { induction IH as [|c cs Hc _ IHcs]; simpl; [reflexivity|].
    rewrite List.filter_app, List.length_app, Nat2Z.inj_add, IHcs, Hc.
    reflexivity. }
  rewrite Hcs. destruct (Py.contains "statement" (ntype n)).
  - change (List.length (n :: ?l)) with (S (List.length l)). lia.
  - lia.
Qed.

Lemma extract_function_counts ancestors self F :
  FunctionDefinitionInit.extract_function ancestors self = Ok F ->
  icount F = icount self + _traverse_node_instr_count (root self) /\
  bbcount F =
    1 + Z.of_nat (List.length (captures "if_statement" (root self)))
      + Z.of_nat (List.length (captures "case_statement" (root self))).
Proof.
  unfold FunctionDefinitionInit.extract_function. intros H.
  destruct (child_by_field_name "declarator" (root self)); [|discriminate H].
  res_inv H.
  all: repeat match type of H with
         | context [let '(_, _) := ?p in _] => destruct p
         end; res_inv H.
  all: injection H as <-; split; reflexivity.
Qed.

Lemma disjoint_kinds_count (p q r : Node -> bool) l :
  (forall c, p c = true -> q c = false /\ r c = true) ->
  (forall c, q c = true -> r c = true) ->
  (List.length (List.filter p l) + List.length (List.filter q l)
   <= List.length (List.filter r l))%nat.
Proof.
  intros Hp Hq. induction l as [|c l IH]; [reflexivity|]. simpl.
  destruct (p c) eqn:Ep.
  - destruct (Hp c Ep) as [-> ->]. simpl. lia.
  - destruct (q c) eqn:Eq.
    + rewrite (Hq c Eq). simpl. lia.
    + destruct (r c); simpl; lia.
Qed.

(** X17: for a function definition that is not a macro, the instruction
    count is the number of nodes of the function whose kind holds the word
    [statement], and the basic-block count is one more than the number of
    its [if] and [case] statements; so the basic-block count lies between
    1 and the instruction count plus 1. *)
Theorem X17_instruction_and_block_counts node ancestors file namespace F :
  (ntype node =? "preproc_function_def")%string = false ->
  FunctionDefinitionInit.new node ancestors file namespace = Ok F ->
  icount F = Z.of_nat (kind_count (Py.contains "statement") node) /\
  bbcount F =
    1 + Z.of_nat (kind_count (fun k => (k =? "if_statement")%string) node)
      + Z.of_nat (kind_count (fun k => (k =? "case_statement")%string) node) /\
  1 <= bbcount F <= icount F + 1.
Proof.
  unfold FunctionDefinitionInit.new, FunctionDefinitionInit._extract_information.
  cbn [root FunctionDefinitionInit.initial]. intros -> H.
  apply extract_function_counts in H.
  cbn [root icount FunctionDefinitionInit.initial] in H.
  destruct H as [Hic Hbb]. rewrite traverse_instr_count in Hic.
  split; [rewrite Hic; lia|]. split; [exact Hbb|].
  rewrite Hbb, Hic. unfold captures, kind_count.
  pose proof (disjoint_kinds_count
                (fun c => (ntype c =? "if_statement")%string)
                (fun c => (ntype c =? "case_statement")%string)
                (fun c => Py.contains "statement" (ntype c))
                (preorder node)) as Hle.
  assert (Hsum :
    (List.length (List.filter (fun c => (ntype c =? "if_statement")%string)
                    (preorder node))
     + List.length (List.filter (fun c => (ntype c =? "case_statement")%string)
                      (preorder node))
     <= List.length (List.filter (fun c => Py.contains "statement" (ntype c))
                       (preorder node)))%nat).
  { apply Hle.
    - intros c Hc. apply String.eqb_eq in Hc. rewrite Hc. now split.
    - intros c Hc. apply String.eqb_eq in Hc. now rewrite Hc. }
  lia.
Qed.

Lemma X17_instruction_and_block_counts_witness :
  exists F,
    FunctionDefinitionInit.new Examples.fun_branchy [Examples.branchy_unit]
      "f.cpp" EmptyString = Ok F /\
    icount F = 5 /\ bbcount F = 3.
Proof.
  destruct (FunctionDefinitionInit.new Examples.fun_branchy
              [Examples.branchy_unit] "f.cpp" EmptyString) as [F|e] eqn:E;
    [|exfalso; vm_compute in E; discriminate E].
  exists F. split; [reflexivity|].
  destruct (X17_instruction_and_block_counts Examples.fun_branchy
              [Examples.branchy_unit] "f.cpp" EmptyString F eq_refl E)
    as (Hic & Hbb & _).
  rewrite Hic, Hbb. split; vm_compute; reflexivity.
Defined.

(** ** Invariants of the walk *)

Lemma preserves_ret {A} P (a : A) : preserves P (ret a).
Proof. now intros st. Qed.

Lemma preserves_lift {A} P (r : res A) : preserves P (lift r).
Proof. now intros st. Qed.

Lemma preserves_bind {A B} P (m : M CppSourceCodeFileM.St A)
    (k : A -> M CppSourceCodeFileM.St B) :
  preserves P m -> (forall a, preserves P (k a)) -> preserves P (bind m k).
Proof.
  intros Hm Hk st HP. unfold bind. specialize (Hm st HP).
  destruct (m st) as [[a|e] s1]; simpl in *; [|exact Hm].
  now apply Hk.
Qed.

(** after [f <- self], [f] is the file of the state *)
Lemma preserves_self_bind {B} P
    (k : CppSourceCodeFile -> M CppSourceCodeFileM.St B) :
  (forall st, P st -> P (snd (k (fst st) st))) ->
  preserves P (bind CppSourceCodeFileM.self k).
Proof. intros Hk st HP. now apply Hk. Qed.

Section WalkInvariant.

Import CppSourceCodeFileM.

Variable P : St -> Prop.

(** what the walk adds to the state of a file, and nothing else: a valid
    function object built for the file, an entry of one of the five
    catalogs positioned in the file, an include path without its
    delimiters, a conditional block of the file *)
Hypothesis P_func_def : forall st node ancestors namespace F,
  FunctionDefinitionInit.new node ancestors (source_file (fst st)) namespace
    = Ok F ->
  valid F = true -> P st -> P (snd (append_func_def F st)).

Hypothesis P_enum_def : forall st nm enumerators node,
  P st -> P (snd (append_enum_def (EnumDef nm enumerators
                                     (node_pos (fst st) node)) st)).

Hypothesis P_preproc_def : forall st nm value node,
  P st -> P (snd (append_preproc_def (PreprocDef nm value
                                        (node_pos (fst st) node)) st)).

Hypothesis P_struct_def : forall st nm fields node,
  P st -> P (snd (append_struct_def (StructDef nm fields
                                       (node_pos (fst st) node)) st)).

Hypothesis P_union_def : forall st nm fields node,
  P st -> P (snd (append_union_def (UnionDef nm fields
                                      (node_pos (fst st) node)) st)).

Hypothesis P_typedef : forall st nm ty node,
  P st -> P (snd (append_typedef (TypedefDef nm ty
                                    (node_pos (fst st) node)) st)).

Hypothesis P_include : forall st t,
  P st ->
  P (snd (add_include
            (Py.remove_char "<"
               (Py.remove_char ">" (Py.remove_char double_quote t))) st)).

Hypothesis P_macro_block : forall st conditions first last,
  P st ->
  P (snd (append_macro_block
            (mkMacroBlock conditions
               (mkPos (source_file (fst st)) first last)) st)).

Lemma preserves_process_function_node node ancestors namespace :
  preserves P (_process_function_node node ancestors namespace).
Proof.
  intros st HP. unfold _process_function_node, bind, self, lift.
  cbn [fst snd].
  destruct (FunctionDefinitionInit.new node ancestors (source_file (fst st))
              namespace) as [F|e] eqn:Hnew; [|exact HP].
  destruct (valid F) eqn:Hv; [|exact HP].
  eapply P_func_def; eassumption.
Qed.

Ltac preserves_step :=
  match goal with
  | |- preserves _ (bind self _) =>
      apply preserves_self_bind; intros ? ?
  | |- preserves _ (bind _ _) => apply preserves_bind; [|intros ?]
  | |- preserves _ (ret _) => apply preserves_ret
  | |- preserves _ (lift _) => apply preserves_lift
  | |- context [if ?b then _ else _] => destruct b
  | |- context [match ?o with Some _ => _ | None => _ end] => destruct o
  end.

Lemma preserves_process_enum node namespace :
  preserves P (_process_enum node namespace).
Proof. unfold _process_enum. repeat preserves_step. now apply P_enum_def. Qed.

Lemma preserves_process_macro_definition node namespace :
  preserves P (_process_macro_definition node namespace).
Proof.
  unfold _process_macro_definition. repeat preserves_step.
  now apply P_preproc_def.
Qed.

Lemma preserves_process_struct node parent namespace :
  preserves P (_process_struct node parent namespace).
Proof.
  unfold _process_struct. repeat preserves_step. now apply P_struct_def.
Qed.

Lemma preserves_process_union node parent namespace :
  preserves P (_process_union node parent namespace).
Proof.
  unfold _process_union. repeat preserves_step. now apply P_union_def.
Qed.

Lemma preserves_process_typedef node namespace :
  preserves P (_process_typedef node namespace).
Proof.
  unfold _process_typedef. repeat preserves_step; now apply P_typedef.
Qed.

Lemma preserves_process_include node namespace :
  preserves P (_process_include node namespace).
Proof.
  unfold _process_include. repeat preserves_step.
  intros st HP. now apply P_include.
Qed.

Lemma preserves_process_branches chain : forall conditions,
  preserves P (MacroBlocks.process_branches chain conditions).
Proof.
  induction chain as [|macro rest IH]; intros conditions;
    cbn [MacroBlocks.process_branches]; [apply preserves_ret|].
  apply preserves_bind; [apply preserves_lift|].
  intros [added|]; [|apply preserves_ret].
  apply preserves_self_bind. intros st HP.
  destruct rest as [|alternative rest'].
  - now apply P_macro_block.
  - unfold bind.
    pose proof (P_macro_block st added (start_row macro)
                  (start_row alternative) HP) as HP'.
    destruct (append_macro_block _ st) as [[u|e] s1]; [|exact HP'].
    now apply IH.
Qed.

Lemma preserves_dispatch walk node ancestors child namespace :
  (forall ns, preserves P (walk ns)) ->
  preserves P (TreeWalk.dispatch walk node ancestors child namespace).
Proof.
  intros Hwalk. unfold TreeWalk.dispatch.
  destruct (Py.mem (ntype child) _); [apply preserves_process_function_node|].
  destruct (ntype child =? "namespace_definition")%string.
  { unfold _process_namespace_node.
    apply preserves_bind; [apply preserves_lift|]. intros ns. apply Hwalk. }
  destruct (ntype child =? "enum_specifier")%string;
    [apply preserves_process_enum|].
  destruct (ntype child =? "preproc_def")%string;
    [apply preserves_process_macro_definition|].
  destruct (ntype child =? "struct_specifier")%string;
    [apply preserves_process_struct|].
  destruct (ntype child =? "union_specifier")%string;
    [apply preserves_process_union|].
  destruct (ntype child =? "type_definition")%string;
    [apply preserves_process_typedef|].
  destruct (ntype child =? "preproc_include")%string;
    [apply preserves_process_include|].
  destruct (Py.mem (ntype child) _); [|apply preserves_ret].
  apply preserves_process_branches.
Qed.

Lemma preserves_process_children walk node ancestors namespace l :
  Forall (fun c => forall ns, preserves P (walk c ns)) l ->
  preserves P (TreeWalk.process_children walk node ancestors namespace l).
Proof.
  induction 1 as [|c l Hc _ IH]; cbn [TreeWalk.process_children];
    [apply preserves_ret|].
  apply preserves_bind; [now apply preserves_dispatch|]. intros _.
  apply preserves_bind; [apply Hc|]. intros _. exact IH.
Qed.

(** a property that every addition keeps is kept by the walk of a tree,
    also by one that stops with an error *)
Lemma preserves_process_tree node :
  forall ancestors namespace,
    preserves P (TreeWalk.process_tree ancestors node namespace).
Proof.
  induction node as [node IH] using Node_rect'. intros ancestors namespace.
  destruct node as [i ty fl nm tx sr er eb cs].
  cbn [TreeWalk.process_tree children] in *.
  apply preserves_process_children.
  eapply List.Forall_impl; [|exact IH]. intros c Hc ns. apply Hc.
Qed.

End WalkInvariant.

(** ** The entries of a definition in namespace blocks *)

Lemma grows_refl st : grows st st [].
Proof.
  split; [reflexivity|]. split; [now rewrite List.app_nil_r|].
  now rewrite List.app_nil_r.
Qed.

Lemma grows_trans st s1 s2 o1 o2 :
  grows st s1 o1 -> grows s1 s2 o2 -> grows st s2 (o1 ++ o2)%list.
Proof.
  intros (Hs1 & Hh1 & Hf1) (Hs2 & Hh2 & Hf2). split; [congruence|]. split.
  - now rewrite Hh2, Hh1, <- List.app_assoc.
  - rewrite Hf2, Hf1, Hh1, !List.length_app, List.seq_app,
      <- List.app_assoc. reflexivity.
Qed.

Lemma objects_of_app i o1 o2 :
  objects_of i (o1 ++ o2)%list = (objects_of i o1 ++ objects_of i o2)%list.
Proof. apply List.filter_app. Qed.

Lemma same_functions_grows st st' : same_functions st st' -> grows st st' [].
Proof.
  intros (Hs & Hf & Hh). split; [exact Hs|]. split.
  - now rewrite Hh, List.app_nil_r.
  - now rewrite Hf, List.app_nil_r.
Qed.

Ltac same_functions_step :=
  intros [f h]; intros; assumption.

(** the handlers of the type catalogs, of the include directives and of
    the conditional blocks record no function *)
Lemma dispatch_other_grows walk node ancestors child namespace st :
  Py.mem (ntype child) ["function_definition"; "preproc_function_def"]
    = false ->
  (ntype child =? "namespace_definition")%string = false ->
  grows st
    (snd (TreeWalk.dispatch walk node ancestors child namespace st)) [].
Proof.
  intros Hfun Hns. apply same_functions_grows.
  unfold TreeWalk.dispatch. rewrite Hfun, Hns.
  assert (H0 : same_functions st st) by (now split).
  destruct (ntype child =? "enum_specifier")%string.
  { apply (preserves_process_enum (same_functions st)); [|exact H0].
    same_functions_step. }
  destruct (ntype child =? "preproc_def")%string.
  { apply (preserves_process_macro_definition (same_functions st));
      [|exact H0]. same_functions_step. }
  destruct (ntype child =? "struct_specifier")%string.
  { apply (preserves_process_struct (same_functions st)); [|exact H0].
    same_functions_step. }
  destruct (ntype child =? "union_specifier")%string.
  { apply (preserves_process_union (same_functions st)); [|exact H0].
    same_functions_step. }
  destruct (ntype child =? "type_definition")%string.
  { apply (preserves_process_typedef (same_functions st)); [|exact H0].
    same_functions_step. }
  destruct (ntype child =? "preproc_include")%string.
  { apply (preserves_process_include (same_functions st)); [|exact H0].
    same_functions_step. }
  destruct (Py.mem (ntype child) ["preproc_ifdef"; "preproc_if"]);
    [|exact H0].
  apply (preserves_process_branches (same_functions st)); [|exact H0].
  same_functions_step.
Qed.

Lemma preorder_descendants n : preorder n = n :: descendants n.
Proof.
  destruct n as [i ty fl nm tx sr er eb cs]. unfold descendants.
  cbn [preorder children]. f_equal.
  induction cs as [|c cs IH]; [reflexivity|]. cbn [List.map concat].
  now rewrite IH.
Qed.

(** the function handler allocates one object for a recordable node and
    none for another *)
Lemma process_function_node_grows i node ancestors namespace st st' :
  Py.mem (ntype node) ["function_definition"; "preproc_function_def"]
    = true ->
  CppSourceCodeFileM._process_function_node node ancestors namespace st
    = (Ok tt, st') ->
  exists objects,
    grows st st' objects /\
    List.length (objects_of i objects)
    = (if recordable node && (nid node =? i)%N then 1 else 0)%nat /\
    Forall (fun F => root F = node) objects.
Proof.
  intros Hty Hrun.
  unfold CppSourceCodeFileM._process_function_node, bind,
    CppSourceCodeFileM.self, lift in Hrun.
  destruct (FunctionDefinitionInit.new node ancestors (source_file (fst st))
              namespace) as [F|e] eqn:Hnew; [|discriminate Hrun].
  destruct (new_valid_recordable _ _ _ _ _ Hty Hnew) as [Hv Hroot].
  rewrite <- Hv. destruct (valid F).
  - exists [F]. destruct st as [f h].
    unfold CppSourceCodeFileM.append_func_def in Hrun. injection Hrun as <-.
    split; [now split|]. split.
    + unfold objects_of. simpl. rewrite Hroot.
      now destruct (nid node =? i)%N.
    + now constructor.
  - injection Hrun as <-. exists [].
    split; [apply grows_refl|]. split; [reflexivity | constructor].
Qed.

(** the handler of a child allocates an object for the child itself, when
    it is recordable, and for a namespace block the objects of the walk of
    the block *)
Lemma dispatch_grows i (walk : string -> M CppSourceCodeFileM.St unit) n
    node ancestors child namespace st st' :
  (forall ns s s',
     walk ns s = (Ok tt, s') ->
     exists objects,
       grows s s' objects /\ List.length (objects_of i objects) = n /\
       Forall (fun F => In (root F) (descendants child)) objects) ->
  TreeWalk.dispatch walk node ancestors child namespace st = (Ok tt, st') ->
  exists objects,
    grows st st' objects /\
    List.length (objects_of i objects)
    = ((if recordable child && (nid child =? i)%N then 1 else 0)
       + (if (ntype child =? "namespace_definition")%string
          then n else 0))%nat /\
    Forall (fun F => In (root F) (preorder child)) objects.
Proof.
  intros Hwalk Hrun.
  destruct (Py.mem (ntype child)
              ["function_definition"; "preproc_function_def"]) eqn:Hfun.
  - assert (Hns : (ntype child =? "namespace_definition")%string = false).
    { unfold Py.mem in Hfun. simpl in Hfun. rewrite orb_false_r in Hfun.
      apply orb_true_iff in Hfun.
      destruct Hfun as [H|H]; apply String.eqb_eq in H; now rewrite H. }
    rewrite Hns, Nat.add_0_r.
    unfold TreeWalk.dispatch in Hrun. rewrite Hfun in Hrun.
    destruct (process_function_node_grows i _ _ _ _ _ Hfun Hrun)
      as (objects & Hg & Hn & Hroots).
    exists objects. split; [exact Hg|]. split; [exact Hn|].
    eapply List.Forall_impl; [|exact Hroots]. intros F ->.
    rewrite preorder_descendants. now left.
  - assert (Hrec : recordable child = false).
    { unfold recordable. unfold Py.mem in Hfun. simpl in Hfun.
      rewrite orb_false_r in Hfun. apply orb_false_iff in Hfun.
      destruct Hfun as [-> ->]. reflexivity. }
    rewrite Hrec. cbn [andb].
    destruct (ntype child =? "namespace_definition")%string eqn:Hns.
    + unfold TreeWalk.dispatch in Hrun. rewrite Hfun, Hns in Hrun.
      unfold CppSourceCodeFileM._process_namespace_node in Hrun.
      apply bind_ok_inv in Hrun. destruct Hrun as (ns & s1 & Hlift & Hrun).
      unfold lift in Hlift. injection Hlift as _ <-.
      destruct (Hwalk _ _ _ Hrun) as (objects & Hg & Hn & Hroots).
      exists objects. split; [exact Hg|]. split; [exact Hn|].
      eapply List.Forall_impl; [|exact Hroots]. intros F HF.
      rewrite preorder_descendants. now right.
    + exists []. split; [|split; [reflexivity | constructor]].
      pose proof (dispatch_other_grows walk node ancestors child namespace st
                    Hfun Hns) as H.
      now rewrite Hrun in H.
Qed.

Lemma process_children_grows i
    (walk : Node -> string -> M CppSourceCodeFileM.St unit)
    (visits_of : Node -> nat) node ancestors namespace l :
  Forall (fun c => forall ns s s',
            walk c ns s = (Ok tt, s') ->
            exists objects,
              grows s s' objects /\
              List.length (objects_of i objects) = visits_of c /\
              Forall (fun F => In (root F) (descendants c)) objects) l ->
  forall st st',
    TreeWalk.process_children walk node ancestors namespace l st
      = (Ok tt, st') ->
    exists objects,
      grows st st' objects /\
      List.length (objects_of i objects) = visits_children visits_of i l /\
      Forall (fun F => In (root F) (concat (List.map preorder l))) objects.
Proof.
  induction 1 as [|c l Hc _ IH]; intros st st' Hrun.
  - injection Hrun as <-. exists [].
    split; [apply grows_refl|]. split; [reflexivity | constructor].
  - cbn [TreeWalk.process_children] in Hrun.
    apply bind_ok_inv in Hrun. destruct Hrun as ([] & s1 & Hdisp & Hrun).
    apply bind_ok_inv in Hrun. destruct Hrun as ([] & s2 & Hinner & Hrest).
    apply (dispatch_grows i _ (visits_of c)) in Hdisp; [|exact Hc].
    destruct Hdisp as (o1 & Hg1 & Hn1 & Hr1).
    apply Hc in Hinner. destruct Hinner as (o2 & Hg2 & Hn2 & Hr2).
    apply IH in Hrest. destruct Hrest as (o3 & Hg3 & Hn3 & Hr3).
    exists (o1 ++ o2 ++ o3)%list. split; [|split].
    + eapply grows_trans; [exact Hg1|].
      eapply grows_trans; [exact Hg2 | exact Hg3].
    + rewrite !objects_of_app, !List.length_app, Hn1, Hn2, Hn3.
      cbn [visits_children]. lia.
    + cbn [List.map concat]. apply List.Forall_app; split.
      * eapply List.Forall_impl; [|exact Hr1]. intros F HF.
        apply List.in_or_app. now left.
      * apply List.Forall_app; split.
        -- eapply List.Forall_impl; [|exact Hr2]. intros F HF.
           apply List.in_or_app. left. rewrite preorder_descendants.
           now right.
        -- eapply List.Forall_impl; [|exact Hr3]. intros F HF.
           apply List.in_or_app. now right.
Qed.

(** a walk that completes allocates, for the node with a given id, as
    many objects as it comes to the node, all from nodes below the node
    walked *)
Lemma process_tree_grows i node :
  forall ancestors namespace st st',
    TreeWalk.process_tree ancestors node namespace st = (Ok tt, st') ->
    exists objects,
      grows st st' objects /\
      List.length (objects_of i objects) = visits i node /\
      Forall (fun F => In (root F) (descendants node)) objects.
Proof.
  induction node as [node IH] using Node_rect'.
  intros ancestors namespace st st' Hrun.
  rewrite process_tree_unfold in Hrun.
  apply (process_children_grows i _ (visits i)) in Hrun.
  - destruct node; exact Hrun.
  - eapply List.Forall_impl; [|exact IH]. intros c Hc ns s s'. apply Hc.
Qed.

Lemma descendants_children n l1 c l2 :
  children n = (l1 ++ c :: l2)%list ->
  descendants n =
    (concat (List.map preorder l1) ++ c :: descendants c
       ++ concat (List.map preorder l2))%list.
Proof.
  intros H. unfold descendants at 1.
  rewrite H, List.map_app, List.concat_app. cbn [List.map concat].
  now rewrite preorder_descendants.
Qed.

Lemma nested_descendants chain : forall n f,
  nested n chain f -> In f (descendants n).
Proof.
  induction chain as [|c chain IH]; intros n f H.
  - apply List.in_split in H. destruct H as (l1 & l2 & H).
    rewrite (descendants_children _ _ _ _ H). apply List.in_or_app.
    right. now left.
  - destruct H as [Hc H]. apply List.in_split in Hc.
    destruct Hc as (l1 & l2 & Hc).
    rewrite (descendants_children _ _ _ _ Hc). apply List.in_or_app.
    right. right. apply List.in_or_app. left. now apply IH.
Qed.

Lemma visits_children_app v i l1 l2 :
  visits_children v i (l1 ++ l2)%list
  = (visits_children v i l1 + visits_children v i l2)%nat.
Proof.
  induction l1 as [|c l1 IH]; [reflexivity|].
  cbn [app visits_children]. rewrite IH. lia.
Qed.

(** the walk does not come to a node that is not in the tree *)
Lemma visits_absent i n :
  ~ In i (List.map nid (descendants n)) -> visits i n = 0%nat.
Proof.
  induction n as [n IH] using Node_rect'. intros Hnot.
  assert (E : visits i n = visits_children (visits i) i (children n))
    by (destruct n; reflexivity).
  rewrite E. clear E. unfold descendants in Hnot.
  induction IH as [|c l Hc _ IHl]; [reflexivity|].
  cbn [List.map concat] in Hnot.
  rewrite preorder_descendants, List.map_app in Hnot.
  cbn [app List.map] in Hnot.
  assert (Hid : (nid c =? i)%N = false).
  { apply N.eqb_neq. intros Heq. apply Hnot. now left. }
  assert (Hv : visits i c = 0%nat).
  { apply Hc. intros Hin. apply Hnot. right. apply List.in_or_app.
    now left. }
  cbn [visits_children]. rewrite Hid, Hv, andb_false_r, IHl.
  - now destruct (ntype c =? "namespace_definition")%string.
  - intros Hin. apply Hnot. right. apply List.in_or_app. now right.
Qed.

Lemma visits_children_absent i l :
  ~ In i (List.map nid (concat (List.map preorder l))) ->
  visits_children (visits i) i l = 0%nat.
Proof.
  induction l as [|c l IH]; intros Hnot; [reflexivity|].
  cbn [List.map concat] in Hnot.
  rewrite preorder_descendants, List.map_app in Hnot.
  cbn [app List.map] in Hnot.
  cbn [visits_children]. rewrite IH, visits_absent.
  - assert (Hid : (nid c =? i)%N = false).
    { apply N.eqb_neq. intros Heq. apply Hnot. now left. }
    rewrite Hid, andb_false_r.
    now destruct (ntype c =? "namespace_definition")%string.
  - intros Hin. apply Hnot. right. apply List.in_or_app. now left.
  - intros Hin. apply Hnot. right. apply List.in_or_app. now right.
Qed.

Lemma recordable_not_namespace f :
  recordable f = true ->
  (ntype f =? "namespace_definition")%string = false.
Proof.
  unfold recordable. intros H. apply orb_true_iff in H.
  destruct H as [H|H].
  - apply String.eqb_eq in H. now rewrite H.
  - apply andb_true_iff in H. destruct H as [H _].
    apply String.eqb_eq in H. now rewrite H.
Qed.

(** what the ids of the nodes below [n] being distinct gives for a child
    [c] of [n] and a node below [c] or [c] itself *)
Lemma NoDup_descendants n l1 c l2 :
  children n = (l1 ++ c :: l2)%list ->
  List.NoDup (List.map nid (descendants n)) ->
  List.NoDup (List.map nid (descendants c)) /\
  (~ In (nid c) (List.map nid (descendants c))) /\
  forall i,
    In i (List.map nid (c :: descendants c)) ->
    ~ In i (List.map nid (concat (List.map preorder l1))) /\
    ~ In i (List.map nid (concat (List.map preorder l2))).
Proof.
  intros Hc Hnd. rewrite (descendants_children _ _ _ _ Hc) in Hnd.
  rewrite List.map_app in Hnd.
  change (c :: descendants c ++ concat (List.map preorder l2))%list
    with ((c :: descendants c) ++ concat (List.map preorder l2))%list in Hnd.
  rewrite List.map_app in Hnd.
  apply NoDup_ListNoDup in Hnd.
  apply NoDup_app in Hnd. destruct Hnd as (_ & H1 & Hnd).
  apply NoDup_app in Hnd. destruct Hnd as (Hc' & H2 & _).
  cbn [List.map] in Hc'. apply NoDup_cons in Hc'.
  destruct Hc' as [Hhead Hc'].
  split; [now apply NoDup_ListNoDup|]. split.
  - intros Hin. apply Hhead. now apply list_elem_of_In.
  - intros i Hi. split.
    + intros Hin. apply list_elem_of_In in Hin. apply H1 in Hin.
      apply Hin. apply elem_of_app. left. now apply list_elem_of_In.
    + intros Hin. apply list_elem_of_In in Hi. apply H2 in Hi.
      apply Hi. now apply list_elem_of_In.
Qed.

(** the walk of a node comes to a recordable node below it once for the
    path to it, and twice as often for every namespace block on the path *)
Lemma visits_path chain : forall n f,
  List.NoDup (List.map nid (descendants n)) ->
  nested n chain f ->
  recordable f = true ->
  visits (nid f) n = (2 ^ namespace_blocks chain)%nat.
Proof.
  induction chain as [|c chain IH]; intros n f Hnd Hin Hrec.
  - apply List.in_split in Hin. destruct Hin as (l1 & l2 & Hc).
    destruct (NoDup_descendants _ _ _ _ Hc Hnd) as (_ & Hself & Hout).
    destruct (Hout (nid f) (or_introl eq_refl)) as [H1 H2].
    assert (E : visits (nid f) n
                = visits_children (visits (nid f)) (nid f) (children n))
      by (destruct n; reflexivity).
    rewrite E, Hc, visits_children_app. cbn [visits_children].
    rewrite (visits_children_absent _ _ H1), (visits_children_absent _ _ H2),
      (visits_absent _ _ Hself), Hrec, N.eqb_refl,
      (recordable_not_namespace _ Hrec).
    reflexivity.
  - destruct Hin as [Hc Hin]. apply List.in_split in Hc.
    destruct Hc as (l1 & l2 & Hc).
    destruct (NoDup_descendants _ _ _ _ Hc Hnd) as (Hnd' & _ & Hout).
    pose proof (nested_descendants _ _ _ Hin) as Hf.
    assert (Hid : In (nid f) (List.map nid (descendants c)))
      by (now apply List.in_map).
    destruct (Hout (nid f) (or_intror Hid)) as [H1 H2].
    assert (Hne : (nid c =? nid f)%N = false).
    { apply N.eqb_neq. intros Heq.
      destruct (NoDup_descendants _ _ _ _ Hc Hnd) as (_ & Hself & _).
      apply Hself. now rewrite Heq. }
    assert (E : visits (nid f) n
                = visits_children (visits (nid f)) (nid f) (children n))
      by (destruct n; reflexivity).
    rewrite E, Hc, visits_children_app. cbn [visits_children].
    rewrite (visits_children_absent _ _ H1), (visits_children_absent _ _ H2),
      Hne, andb_false_r, (IH c f Hnd' Hin Hrec).
    unfold namespace_blocks. cbn [List.filter].
    destruct (ntype c =? "namespace_definition")%string;
      cbn [List.length]; [rewrite Nat.pow_succ_r'|]; lia.
Qed.

(** nodes of a list with distinct ids are equal when their ids are *)
Lemma NoDup_nid_inj (l : list Node) x y :
  List.NoDup (List.map nid l) -> In x l -> In y l -> nid x = nid y -> x = y.
Proof.
  induction l as [|z l IH]; intros Hnd Hx Hy Heq; [destruct Hx|].
  cbn [List.map] in Hnd. apply List.NoDup_cons_iff in Hnd.
  destruct Hnd as [Hz Hnd].
  destruct Hx as [<-|Hx], Hy as [<-|Hy].
  - reflexivity.
  - exfalso. apply Hz. rewrite Heq. now apply List.in_map.
  - exfalso. apply Hz. rewrite <- Heq. now apply List.in_map.
  - now apply IH.
Qed.

(** C9 as stated fails: a function definition in a named namespace block
    that lies in another namespace block gets four entries in the function
    list, not two. *)
Lemma C9_counterexample :
  exists st',
    TreeWalk.process_tree [] Examples.nested_namespace_unit EmptyString
      (CppSourceCodeFileLookup.new_file "n.cpp", []) = (Ok tt, st') /\
    In Examples.inner_function (children Examples.inner_body) /\
    In Examples.inner_body (children Examples.inner_block) /\
    ntype Examples.inner_block = "namespace_definition" /\
    child_by_field_name "name" Examples.inner_block = Some Examples.inner_name /\
    func_defs (fst st') = [0%nat; 1%nat; 2%nat; 3%nat] /\
    List.map (fun F => (nid (root F), name F)) (snd st')
    = [(320%N, "a::b::f"); (320%N, "a::b::f"); (320%N, "a::b::f");
       (320%N, "a::b::f")] /\
    ~ exists r1 r2, func_defs (fst st') = [r1; r2].
Proof.
  eexists. split; [vm_compute; reflexivity|].
  split; [right; left; reflexivity|].
  split; [right; right; left; reflexivity|].
  split; [reflexivity|]. split; [reflexivity|].
  split; [reflexivity|]. split; [reflexivity|].
  intros (r1 & r2 & H). discriminate H.
Qed.

(** a walk that completes enters in the function list the objects that it
    allocates, one entry for each, and allocates 2 ^ k objects for a
    recordable node below the node walked, where k is the number of
    namespace blocks on the path to it; the ids of the nodes are those of
    the parser, which are distinct in a tree *)
Lemma walk_entries_of_definition ancestors node namespace path f st st' :
  List.NoDup (List.map nid (descendants node)) ->
  nested node path f ->
  recordable f = true ->
  TreeWalk.process_tree ancestors node namespace st = (Ok tt, st') ->
  exists objects,
    snd st' = (snd st ++ objects)%list /\
    func_defs (fst st') =
      (func_defs (fst st)
         ++ List.seq (List.length (snd st)) (List.length objects))%list /\
    (forall F, In F objects -> nid (root F) = nid f <-> root F = f) /\
    List.length (objects_of (nid f) objects)
    = (2 ^ namespace_blocks path)%nat.
Proof.
  intros Hnd Hpath Hf Hrun.
  destruct (process_tree_grows (nid f) _ _ _ _ _ Hrun)
    as (objects & (_ & Hheap & Hlist) & Hcount & Hroots).
  exists objects. split; [exact Hheap|]. split; [exact Hlist|]. split.
  - intros F HF. split; [|now intros ->]. intros Hid.
    eapply NoDup_nid_inj; [exact Hnd | | | exact Hid].
    + rewrite List.Forall_forall in Hroots. now apply Hroots.
    + eapply nested_descendants. exact Hpath.
  - rewrite Hcount. now apply visits_path.
Qed.

(** C9, as amended: a function definition, or a macro function with a
    name, parameters and a value, that lies in a named namespace block, as
    a child of the block ([chain] empty) or a node below it, as in the
    declaration list that is the body of the block, is processed twice by
    every walk of the block: first by the namespace handler, in the scope
    extended with the name of the block, then by the unconditional
    recursion, in the outer scope. The function list of the file receives
    an entry for each function object that the walk allocates, and of these
    exactly 2 ^ (1 + k) are built from the one definition, where k is the
    number of namespace blocks between the block and the definition, each
    of which is walked twice in the same way: two entries for a definition
    in one block, four for one in two nested blocks. The walk is one that
    completes, and the ids of the nodes are those of the parser, distinct
    in a tree. *)
Theorem C9_namespace_child_processed_twice
    ancestors node namespace pre block post nm t chain f st st' :
  List.NoDup (List.map nid (descendants node)) ->
  children node = (pre ++ block :: post)%list ->
  ntype block = "namespace_definition" ->
  child_by_field_name "name" block = Some nm ->
  ntype nm = "namespace_identifier" ->
  ntext nm = Some (Utf8 t) -> t <> EmptyString ->
  nested block chain f ->
  recordable f = true ->
  TreeWalk.process_tree ancestors node namespace st = (Ok tt, st') ->
  (exists F1 F2 r1 r2 A B C,
     FunctionDefinitionInit.new f
       (List.rev chain ++ block :: node :: ancestors)%list
       (source_file (fst st))
       (CppSourceCodeFileM.strip_leading_scope (namespace ++ "::" ++ t))
       = Ok F1 /\
     FunctionDefinitionInit.new f
       (List.rev chain ++ block :: node :: ancestors)%list
       (source_file (fst st)) namespace = Ok F2 /\
     root F1 = f /\ root F2 = f /\
     (r1 < r2)%nat /\
     snd st' !! r1 = Some F1 /\ snd st' !! r2 = Some F2 /\
     func_defs (fst st') =
       (func_defs (fst st) ++ A ++ r1 :: B ++ r2 :: C)%list) /\
  exists objects,
    snd st' = (snd st ++ objects)%list /\
    func_defs (fst st') =
      (func_defs (fst st)
         ++ List.seq (List.length (snd st)) (List.length objects))%list /\
    (forall F, In F objects -> nid (root F) = nid f <-> root F = f) /\
    List.length (objects_of (nid f) objects)
    = (2 ^ (1 + namespace_blocks chain))%nat.
Proof.
  intros Hnd Hnode Hblock Hnm Hnmty Hnmtx Ht Hin Hf Hrun.
  split; [eapply namespace_block_walked_twice; eassumption|].
  assert (Hpath : nested node (block :: chain) f).
  { split; [|exact Hin]. rewrite Hnode. apply List.in_or_app.
    right. now left. }
  destruct (walk_entries_of_definition _ _ _ _ _ _ _ Hnd Hpath Hf Hrun)
    as (objects & Hheap & Hlist & Hroots & Hcount).
  exists objects. split; [exact Hheap|]. split; [exact Hlist|].
  split; [exact Hroots|].
  rewrite Hcount. unfold namespace_blocks. cbn [List.filter].
  rewrite Hblock. reflexivity.
Qed.

Lemma nested_namespace_ids :
  List.NoDup (List.map nid (descendants Examples.nested_namespace_unit)).
Proof.
  apply NoDup_ListNoDup. apply (bool_decide_unpack _). vm_compute.
  reflexivity.
Qed.

Lemma C9_namespace_child_processed_twice_witness :
  exists st' objects,
    TreeWalk.process_tree [] Examples.nested_namespace_unit EmptyString
      (CppSourceCodeFileLookup.new_file "n.cpp", []) = (Ok tt, st') /\
    snd st' = objects /\
    func_defs (fst st') = List.seq 0 (List.length objects) /\
    List.length (objects_of 320 objects) = 4%nat.
Proof.
  destruct (TreeWalk.process_tree [] Examples.nested_namespace_unit EmptyString
              (CppSourceCodeFileLookup.new_file "n.cpp", []))
    as [[[]|e] st'] eqn:E; [|exfalso; vm_compute in E; discriminate E].
  destruct (C9_namespace_child_processed_twice []
              Examples.nested_namespace_unit EmptyString
              [] Examples.outer_block []
              Examples.outer_name "a" [Examples.outer_body; Examples.inner_block; Examples.inner_body] Examples.inner_function
              (CppSourceCodeFileLookup.new_file "n.cpp", []) st')
    as (_ & objects & Hheap & Hlist & _ & Hcount);
    try reflexivity.
  - exact nested_namespace_ids.
  - discriminate.
  - simpl. repeat split; auto.
  - exact E.
  - exists st', objects. repeat split; assumption.
Defined.

(** a macro function in a namespace block is listed twice as well, once
    in the scope of the block and once in the outer scope *)
Lemma namespace_macro_listed_twice :
  recordable Examples.macro_function = true /\
  func_defs (fst (snd (Examples.load "n.cpp" Examples.macro_unit [])))
  = [0%nat; 1%nat] /\
  List.map (fun F => (nid (root F), name F, namespace_or_class F))
    (snd (snd (Examples.load "n.cpp" Examples.macro_unit [])))
  = [(420%N, "M", "ns"); (420%N, "M", EmptyString)].
Proof. repeat split; vm_compute; reflexivity. Qed.

(** ** Include paths *)

Lemma remove_char_chars c s :
  list_ascii_of_string (Py.remove_char c s)
  = List.filter (fun d => negb (Ascii.eqb c d)) (list_ascii_of_string s).
Proof.
  induction s as [|d s IH]; [reflexivity|]. simpl.
  destruct (Ascii.eqb c d); simpl; [exact IH | now rewrite IH].
Qed.

Lemma plain_path_cleaned t :
  plain_path
    (Py.remove_char "<"
       (Py.remove_char ">"
          (Py.remove_char CppSourceCodeFileM.double_quote t))).
Proof.
  unfold plain_path. rewrite !remove_char_chars.
  apply List.Forall_forall. intros c Hc.
  apply List.filter_In in Hc. destruct Hc as [Hc H1].
  apply List.filter_In in Hc. destruct Hc as [Hc H2].
  apply List.filter_In in Hc. destruct Hc as [_ H3].
  apply negb_true_iff, Ascii.eqb_neq in H1, H2, H3. auto.
Qed.

(** X18: the walk of a tree adds include paths only without their
    delimiters: every path in the set of included headers afterwards was
    there before, or holds no angle bracket and no double quote. *)
Theorem X18_include_paths_plain ancestors node namespace st p :
  p ∈ includes (fst (snd (TreeWalk.process_tree ancestors node namespace st))) ->
  p ∈ includes (fst st) \/ plain_path p.
Proof.
  revert p.
  apply (preserves_process_tree
           (fun st' => forall p, p ∈ includes (fst st') ->
                                 p ∈ includes (fst st) \/ plain_path p)).
  - now intros [f h].
  - now intros [f h].
  - now intros [f h].
  - now intros [f h].
  - now intros [f h].
  - now intros [f h].
  - intros [f h] t HP p. cbn [CppSourceCodeFileM.add_include fst snd includes].
    rewrite elem_of_union, elem_of_singleton. intros [->|Hp].
    + right. apply plain_path_cleaned.
    + now apply HP.
  - now intros [f h].
  - intros p Hp. now left.
Qed.

Lemma types_unit_includes :
  includes (fst (snd (TreeWalk.process_tree [] Examples.types_unit EmptyString
                        (CppSourceCodeFileLookup.new_file "t.c", []))))
  = {[ "stdio.h" ]}.
Proof. vm_compute. reflexivity. Qed.

Lemma X18_include_paths_plain_witness :
  "stdio.h" ∈ includes (CppSourceCodeFileLookup.new_file "t.c") \/
  plain_path "stdio.h".
Proof.
  apply (X18_include_paths_plain [] Examples.types_unit EmptyString
           (CppSourceCodeFileLookup.new_file "t.c", [])).
  rewrite types_unit_includes. now apply elem_of_singleton.
Defined.

(** ** The functions of a processed file *)

Lemma process_tree_functions_fresh ancestors node namespace st :
  Forall (fun r => exists F, snd st !! r = Some F /\ fresh_function F)
    (func_defs (fst st)) ->
  Forall (fun r =>
            exists F,
              snd (snd (TreeWalk.process_tree ancestors node namespace st))
                !! r = Some F /\ fresh_function F)
    (func_defs
       (fst (snd (TreeWalk.process_tree ancestors node namespace st)))).
Proof.
  apply (preserves_process_tree
           (fun st' =>
              Forall (fun r => exists F, snd st' !! r = Some F /\
                                         fresh_function F)
                (func_defs (fst st')))).
  - intros [f h] nd anc ns F Hnew Hv HP.
    cbn [CppSourceCodeFileM.append_func_def fst snd func_defs] in *.
    apply Forall_app. split.
    + eapply Forall_impl; [exact HP|]. intros r (F0 & Hr & HF0).
      exists F0. split; [now apply lookup_app_l_Some | exact HF0].
    + constructor; [|constructor]. exists F. split.
      * now apply list_lookup_middle.
      * apply new_fresh in Hnew. unfold fresh_function. tauto.
  - now intros [f h].
  - now intros [f h].
  - now intros [f h].
  - now intros [f h].
  - now intros [f h].
  - now intros [f h].
  - now intros [f h].
Qed.

(** X19: the function list of a processed file names no object that is
    missing: whatever the tree and the objects allocated before, every
    entry of the list is an object of the heap, valid, without call sites
    and without a memoized depth, also when the processing stopped with an
    error. *)
Theorem X19_recorded_functions_fresh root source_file h :
  Forall (fun r =>
            exists F,
              snd (snd (CppSourceCodeFileLookup.language_specific_process root
                          (CppSourceCodeFileLookup.new_file source_file, h)))
                !! r = Some F /\ fresh_function F)
    (func_defs
       (fst (snd (CppSourceCodeFileLookup.language_specific_process root
                    (CppSourceCodeFileLookup.new_file source_file, h))))).
Proof.
  pose proof (process_tree_functions_fresh [] root EmptyString
                (CppSourceCodeFileLookup.new_file source_file, h)
                (List.Forall_nil _)) as H.
  unfold CppSourceCodeFileLookup.language_specific_process, bind.
  destruct (TreeWalk.process_tree [] root EmptyString
              (CppSourceCodeFileLookup.new_file source_file, h))
    as [[u|e] [f1 h1]]; exact H.
Qed.

(** X20: a file that was processed can be reported: for the project of one
    processed file, whatever its tree, report generation completes under
    every recursion limit above the number of distinct function names, with
    one report element for each function of the file, and leaves the
    lookup cache empty. *)
Theorem X20_processed_file_reported
    root path h file h' limit entry_function harness_name
    harness_source report cache :
  CppSourceCodeFileLookup.language_specific_process root
    (CppSourceCodeFileLookup.new_file path, h) = (Ok tt, (file, h')) ->
  (size (heap_names h') < limit)%nat ->
  exists p' g',
    CppProjectM.generate_report limit entry_function harness_name
      harness_source
      (mkCppProject [file] [] [] report, mkState h' cache)
      = (Ok tt, (p', g')) /\
    all_functions p' = func_defs file /\
    List.length (internal_func_list p') = List.length (func_defs file) /\
    _function_node_cache g' = ∅.
Proof.
  intros Hload Hsize.
  pose proof (process_tree_functions_fresh [] root EmptyString
                (CppSourceCodeFileLookup.new_file path, h)
                (List.Forall_nil _)) as Hfresh.
  unfold CppSourceCodeFileLookup.language_specific_process in Hload.
  apply bind_ok_inv in Hload. destruct Hload as ([] & [f1 h1] & Hwalk & Hstore).
  rewrite Hwalk in Hfresh. cbn [fst snd] in Hfresh.
  unfold CppSourceCodeFileLookup.store_full_type_defs in Hstore.
  injection Hstore as <- <-.
  destruct (generate_report_completes limit entry_function harness_name
              harness_source
              (mkCppProject
                 [mkCppSourceCodeFile (source_file f1) (func_defs f1)
                    (struct_defs f1) (union_defs f1) (enum_defs f1)
                    (preproc_defs f1) (typedefs f1) (includes f1)
                    (macro_blocks f1)
                    (full_type_defs f1 ++ struct_defs f1 ++ typedefs f1
                       ++ enum_defs f1 ++ union_defs f1 ++ preproc_defs f1)%list]
                 [] [] report)
              (mkState h1 cache))
    as (p' & g' & Hrun & Hall & Hlen & _).
  - cbn. rewrite app_nil_r. eapply Forall_impl; [exact Hfresh|].
    intros r (F & Hr & _). now exists F.
  - exact Hsize.
  - exists p', g'. split; [exact Hrun|].
    cbn in Hall. rewrite app_nil_r in Hall.
    split; [exact Hall|]. split.
    + cbn [func_defs]. rewrite <- Hall. exact (Hlen eq_refl).
    + unfold CppProjectM.generate_report in Hrun.
      apply bind_ok_inv in Hrun. destruct Hrun as (s0 & s1 & _ & Hrun).
      apply bind_ok_inv in Hrun. destruct Hrun as (u1 & s2 & _ & Hrun).
      apply bind_ok_inv in Hrun. destruct Hrun as (func_list & s3 & _ & Hrun).
      apply bind_ok_inv in Hrun. destruct Hrun as (u2 & s4 & _ & Hrun).
      unfold modify in Hrun. injection Hrun as _ <-. reflexivity.
Qed.

Lemma mutual_load :
  CppSourceCodeFileLookup.language_specific_process Examples.mutual_unit
    (CppSourceCodeFileLookup.new_file "m.cpp", [])
  = (Ok tt, (Examples.mutual_file, Examples.mutual_heap)).
Proof. vm_compute. reflexivity. Qed.

Lemma X20_processed_file_reported_witness :
  exists p' g',
    CppProjectM.generate_report 3 EmptyString EmptyString "m.cpp"
      (mkCppProject [Examples.mutual_file] [] [] Examples.empty_report,
       mkState Examples.mutual_heap ∅) = (Ok tt, (p', g')) /\
    List.length (internal_func_list p')
    = List.length (func_defs Examples.mutual_file).
Proof.
  destruct (X20_processed_file_reported Examples.mutual_unit "m.cpp" []
              Examples.mutual_file Examples.mutual_heap 3 EmptyString
              EmptyString "m.cpp" Examples.empty_report ∅ mutual_load)
    as (p' & g' & Hrun & _ & Hlen & _).
  - rewrite mutual_heap_names_size. lia.
  - exists p', g'. split; [exact Hrun | exact Hlen].
Defined.

(** ** The catalog of all type definitions *)

(** X21: when the processing of a file completes, the catalog of all type
    definitions is the one from before followed by the structs, the type
    definitions, the enums, the unions and the macro definitions of the
    file, in this order: the walk itself adds nothing to it. *)
Theorem X21_full_type_defs_order root f h f' h' :
  CppSourceCodeFileLookup.language_specific_process root (f, h)
    = (Ok tt, (f', h')) ->
  full_type_defs f' =
    (full_type_defs f ++ struct_defs f' ++ typedefs f' ++ enum_defs f'
       ++ union_defs f' ++ preproc_defs f')%list.
Proof.
  intros Hload.
  assert (Hwalk : preserves
                    (fun st => full_type_defs (fst st) = full_type_defs f)
                    (TreeWalk.process_tree [] root EmptyString)).
  { apply preserves_process_tree; now intros [f0 h0]. }
  specialize (Hwalk (f, h) eq_refl).
  unfold CppSourceCodeFileLookup.language_specific_process in Hload.
  apply bind_ok_inv in Hload. destruct Hload as ([] & [f1 h1] & Hrun & Hstore).
  rewrite Hrun in Hwalk. cbn [fst snd] in Hwalk.
  unfold CppSourceCodeFileLookup.store_full_type_defs in Hstore.
  injection Hstore as <- <-. cbn. now rewrite Hwalk.
Qed.

Lemma X21_full_type_defs_order_witness :
  exists f' h',
    CppSourceCodeFileLookup.language_specific_process Examples.types_unit
      (CppSourceCodeFileLookup.new_file "t.c", []) = (Ok tt, (f', h')) /\
    full_type_defs f' =
      [ TypedefDef "T" (Some "int") (mkPos "t.c" 2 2);
        PreprocDef "N" "3" (mkPos "t.c" 1 1) ].
Proof.
  destruct (CppSourceCodeFileLookup.language_specific_process
              Examples.types_unit (CppSourceCodeFileLookup.new_file "t.c", []))
    as [[[]|e] [f' h']] eqn:E; [|exfalso; vm_compute in E; discriminate E].
  exists f', h'. split; [reflexivity|].
  rewrite (X21_full_type_defs_order _ _ _ _ _ E).
  vm_compute in E. injection E as <- <-. reflexivity.
Defined.

(** ** Detailed call sites *)

(** X22: the detailed call sites of a function follow its recorded call
    sites: when they correspond one to one before an extraction, as they
    do for an object without call sites, they do so afterwards, each
    detailed call site naming the file of the function, the line of the
    call and its target. *)
Theorem X22_detailed_callsites_follow project f g :
  detailed_callsites f = located_callsites f ->
  detailed_callsites
    (fst (snd (FunctionDefinitionM.extract_callsites project (f, g))))
  = located_callsites
      (fst (snd (FunctionDefinitionM.extract_callsites project (f, g)))).
Proof.
  intros Hinv.
  unfold FunctionDefinitionM.extract_callsites, bind, FunctionDefinitionM.self,
    ret.
  cbn [fst snd].
  destruct (base_callsites f) as [|c cs] eqn:Hbase.
  - destruct (traverse_ok (tree_size (root f)) project (walk (root f)) ∅ []
                (f, g)) as (found & [fv g'] & Hrun).
    pose proof (only_var_map_traverse (tree_size (root f)) project
                  (walk (root f)) ∅ [] (f, g)) as [Hsame _].
    rewrite Hrun in Hsame |- *. cbn [fst snd] in Hsame |- *.
    assert (Hd : detailed_callsites fv = detailed_callsites f)
      by exact (f_equal detailed_callsites Hsame).
    unfold located_callsites in Hinv. rewrite Hbase in Hinv.
    change (detailed_callsites (set_base_callsites ?v fv))
      with (detailed_callsites fv).
    rewrite Hd, Hinv. reflexivity.
  - cbn [fst snd]. destruct (detailed_callsites f) as [|d ds] eqn:Hd.
    + exfalso. unfold located_callsites in Hinv. rewrite Hbase in Hinv.
      discriminate Hinv.
    + cbn [fst snd]. now rewrite Hd.
Qed.

Lemma X22_detailed_callsites_follow_witness :
  detailed_callsites
    (fst (snd (FunctionDefinitionM.extract_callsites Examples.mutual_full
                 (Examples.object Examples.mutual_heap 0%nat,
                  mkState Examples.mutual_heap ∅))))
  = [("m.cpp:1,1", "b")].
Proof.
  rewrite (X22_detailed_callsites_follow Examples.mutual_full
             (Examples.object Examples.mutual_heap 0%nat)
             (mkState Examples.mutual_heap ∅) eq_refl).
  vm_compute. reflexivity.
Defined.

(** ** The call tree *)

Lemma calltree_loop_sound h
    (recurse : string -> Z -> gset string -> M State (string * gset string)) l :
  (forall cs line v s r s',
     heap s = h -> recurse cs line v s = (Ok r, s') ->
     v ⊆ snd r /\ heap s' = h) ->
  forall acc v s r s',
    heap s = h ->
    Calltree.calltree_loop recurse l acc v s = (Ok r, s') ->
    v ⊆ snd r /\ heap s' = h /\ exists rest, fst r = acc ++ rest.
Proof.
  intros Hrec. induction l as [|c l IH]; intros acc v s r s' Hs H.
  - injection H as <- <-. split; [reflexivity|]. split; [exact Hs|].
    exists EmptyString. cbn [fst]. now rewrite string_app_nil_r.
  - cbn [Calltree.calltree_loop] in H.
    apply bind_ok_inv in H. destruct H as (r1 & s1 & H1 & H2).
    apply (Hrec _ _ _ _ _ _ Hs) in H1. destruct H1 as [Hsub1 Hs1].
    apply (IH _ _ _ _ _ Hs1) in H2. destruct H2 as (Hsub2 & Hs2 & rest & Hr).
    split; [clear - Hsub1 Hsub2; set_solver|]. split; [exact Hs2|].
    exists (fst r1 ++ rest). rewrite Hr. apply string_app_assoc.
Qed.

Lemma calltree_lookup_run project source_code function s :
  exists o s',
    match source_code with
    | Some source_code =>
        ret (CppSourceCodeFileLookup.get_function_node (heap s) source_code
               function false)
    | None =>
        Lookup.get_function_node function (all_functions project) false
          EmptyString
    end s = (Ok o, s') /\ heap s' = heap s.
Proof.
  destruct source_code as [source_code|].
  - now eexists _, _.
  - apply get_function_node_run.
Qed.

(** a call that completes extends the set of visited functions, leaves
    the heap alone, and returns a text that starts with its own line, which
    is the whole text for a function that is visited already or not
    found *)
Lemma extract_calltree_sound project limit :
  forall source_file source_code function visited depth line_number s r s',
    Calltree.extract_calltree limit project source_file source_code function
      visited depth line_number s = (Ok r, s') ->
    visited ⊆ snd r /\ heap s' = heap s /\
    (Py.truthy function = true ->
     exists rest,
       fst r = Calltree.line_to_print depth
                 (calltree_name project source_code function s) source_file
                 line_number ++ rest) /\
    (Py.truthy function = true ->
     function ∈ visited \/
     calltree_function project source_code function s = None ->
     r = (Calltree.line_to_print depth
            (calltree_name project source_code function s) source_file
            line_number, visited)).
Proof.
  induction limit as [|limit IH];
    intros source_file source_code function visited depth line_number s r s' H;
    [discriminate H|].
  cbn [Calltree.extract_calltree] in H.
  destruct (Py.truthy function) eqn:Ht; cbn [negb] in H.
  2:{ injection H as <- <-. split; [reflexivity|]. split; [reflexivity|].
      split; discriminate. }
  apply bind_ok_inv in H. destruct H as (s0 & s0' & Hget & H).
  injection Hget as <- <-.
  unfold calltree_name, calltree_function.
  match type of H with
  | bind (match ?sc with Some _ => _ | None => _ end) _ _ = _ =>
      destruct (calltree_lookup_run project sc function s)
        as (o & s1 & Hrun & Hheap); set (located := sc) in *
  end.
  apply bind_ok_inv in H. destruct H as (func_node & s1' & Hlook & H).
  rewrite Hrun in Hlook. injection Hlook as <- <-.
  apply bind_ok_inv in H. destruct H as (s2 & s2' & Hget & H).
  injection Hget as <- <-.
  assert (Hfound :
    match located with
    | Some source_code =>
        CppSourceCodeFileLookup.get_function_node (heap s) source_code
          function false
    | None =>
        match fst (Lookup.get_function_node function (all_functions project)
                     false EmptyString s) with
        | Ok found => found
        | Raise _ => None
        end
    end = o).
  { destruct located as [source_code'|].
    - now injection Hrun as <- _.
    - now rewrite Hrun. }
  rewrite Hfound. rewrite Hheap in H.
  assert (Hdone : forall r0 s0,
            ret (Calltree.line_to_print depth
                   match o with
                   | Some func_node =>
                       FunctionDefinitionM.name_of (heap s) func_node
                   | None => function
                   end source_file line_number, visited) s1 = (Ok r0, s0) ->
            visited ⊆ snd r0 /\ heap s0 = heap s /\
            (true = true ->
             exists rest,
               fst r0 = Calltree.line_to_print depth
                          match o with
                          | Some func_node =>
                              FunctionDefinitionM.name_of (heap s) func_node
                          | None => function
                          end source_file line_number ++ rest) /\
            (true = true -> function ∈ visited \/ o = None ->
             r0 = (Calltree.line_to_print depth
                     match o with
                     | Some func_node =>
                         FunctionDefinitionM.name_of (heap s) func_node
                     | None => function
                     end source_file line_number, visited))).
  { intros r0 s0 [= <- <-]. split; [reflexivity|].
    split; [exact Hheap|]. split.
    - intros _. exists EmptyString.
      cbn [fst]. now rewrite string_app_nil_r.
    - reflexivity. }
  destruct o as [func_node|]; [|now apply Hdone in H].
  destruct (match located with
            | Some source_code => Some (Calltree.file_name source_code)
            | None => Calltree.parent_source_of (heap s) <$> Some func_node
            end) as [source_name|]; [|now apply Hdone in H].
  destruct (bool_decide (function ∈ visited)) eqn:Hv;
    [now apply Hdone in H|].
  apply bool_decide_eq_false in Hv.
  apply (calltree_loop_sound (heap s)) in H.
  - destruct H as (Hsub & Hh & rest & Hr).
    split; [clear - Hsub; set_solver|]. split; [exact Hh|]. split.
    + intros _. exists rest. exact Hr.
    + intros _ [Hin|Hnone]; [now destruct Hv | discriminate Hnone].
  - intros cs line v s3 r3 s3' Hs3 H3. apply IH in H3.
    destruct H3 as (Hsub & Hh & _). split; [exact Hsub | congruence].
  - exact Hheap.
Qed.

Lemma calltree_loop_completes h
    (recurse : string -> Z -> gset string -> M State (string * gset string))
    (bound : nat) l :
  (forall cs line v s,
     heap s = h ->
     (cs ∈ v /\ (1 <= bound)%nat) \/
     (size (callsite_targets h ∖ ({[cs]} ∪ v)) + 1 < bound)%nat ->
     exists r s', recurse cs line v s = (Ok r, s') /\ v ⊆ snd r /\ heap s' = h) ->
  (forall c, In c l -> fst c ∈ callsite_targets h) ->
  forall acc v s,
    heap s = h ->
    (size (callsite_targets h ∖ v) < bound)%nat ->
    exists r s', Calltree.calltree_loop recurse l acc v s = (Ok r, s').
Proof.
  intros Hrec. induction l as [|c l IH]; intros Hl acc v s Hs Hsize;
    cbn [Calltree.calltree_loop].
  - now eexists _, _.
  - assert (Hc : fst c ∈ callsite_targets h) by (apply Hl; now left).
    destruct (Hrec (fst c) (snd c) v s Hs) as (r1 & s1 & Hrun & Hsub & Hh).
    { destruct (decide (fst c ∈ v)) as [Hin|Hout].
      - left. split; [exact Hin | lia].
      - right.
        assert (Hlt : (size (callsite_targets h ∖ ({[fst c]} ∪ v))
                       < size (callsite_targets h ∖ v))%nat).
        { apply subset_size. clear - Hc Hout. split; [set_solver|].
          intros Hsub.
          assert (Hin : fst c ∈ callsite_targets h ∖ v) by set_solver.
          apply Hsub in Hin. set_solver. }
        lia. }
    unfold bind. rewrite Hrun.
    apply IH; [intros c' Hc'; apply Hl; now right | exact Hh |].
    eapply Nat.le_lt_trans; [|exact Hsize]. apply subseteq_size.
    clear - Hsub. set_solver.
Qed.

Lemma extract_calltree_completes project limit :
  forall source_file source_code function visited depth line_number s,
    (function ∈ visited /\ (1 <= limit)%nat) \/
    (size (callsite_targets (heap s) ∖ ({[function]} ∪ visited)) + 1
     < limit)%nat ->
    exists r s',
      Calltree.extract_calltree limit project source_file source_code function
        visited depth line_number s = (Ok r, s').
Proof.
  induction limit as [|limit IH];
    intros source_file source_code function visited depth line_number s Hsize;
    [lia|].
  cbn [Calltree.extract_calltree].
  destruct (Py.truthy function) eqn:Ht; cbn [negb]; [|now eexists _, _].
  unfold bind at 1, get at 1. cbn [fst snd].
  match goal with
  | |- context [bind (match ?sc with Some _ => _ | None => _ end) _ _] =>
      destruct (calltree_lookup_run project sc function s)
        as (o & s1 & Hrun & Hheap); set (located := sc) in *
  end.
  unfold bind at 1. rewrite Hrun. unfold bind at 1, get at 1. cbn [fst snd].
  destruct o as [func_node|]; [|now eexists _, _].
  destruct (match located with
            | Some source_code => Some (Calltree.file_name source_code)
            | None => Calltree.parent_source_of (heap s1) <$> Some func_node
            end) as [source_name|]; [|now eexists _, _].
  destruct (bool_decide (function ∈ visited)) eqn:Hv; [now eexists _, _|].
  apply bool_decide_eq_false in Hv.
  destruct Hsize as [[Hin _]|Hsize]; [now destruct Hv|].
  eapply (calltree_loop_completes (heap s) _ limit).
  - intros cs line v s0 Hs0 Hcond. rewrite <- Hs0 in Hcond.
    destruct (IH source_name None cs v (depth + 1) line s0 Hcond)
      as (r & s' & Hr).
    exists r, s'. split; [exact Hr|].
    apply extract_calltree_sound in Hr. destruct Hr as (Hsub & Hh & _).
    split; [exact Hsub | congruence].
  - intros c Hc. rewrite Hheap in Hc. now apply callsites_of_targets in Hc.
  - exact Hheap.
  - lia.
Qed.

(** X23: the call tree of a function is printed, without a recursion
    error, under every recursion limit that exceeds the number of recorded
    call-site targets by more than one, whatever the call graph (cycles
    included); the set of visited functions only grows and no function
    object is changed. *)
Theorem X23_calltree_completes
    project source_file source_code function visited depth line_number limit
    s :
  (size (callsite_targets (heap s)) + 1 < limit)%nat ->
  exists text visited' s',
    Calltree.extract_calltree limit project source_file source_code function
      visited depth line_number s = (Ok (text, visited'), s') /\
    visited ⊆ visited' /\ heap s' = heap s.
Proof.
  intros Hlimit.
  destruct (extract_calltree_completes project limit source_file source_code
              function visited depth line_number s) as ([text v'] & s' & Hrun).
  { right. eapply Nat.le_lt_trans; [|exact Hlimit].
    apply Nat.add_le_mono_r, subseteq_size. clear. set_solver. }
  exists text, v', s'. split; [exact Hrun|].
  apply extract_calltree_sound in Hrun. destruct Hrun as (Hsub & Hh & _).
  now split.
Qed.

Lemma X23_calltree_completes_witness :
  exists text visited' s',
    Calltree.extract_calltree 4 Examples.mutual_full EmptyString None "a" ∅ 0
      (-1) Examples.mutual_extracted = (Ok (text, visited'), s') /\
    heap s' = heap Examples.mutual_extracted.
Proof.
  destruct (X23_calltree_completes Examples.mutual_full EmptyString None "a" ∅
              0 (-1) 4 Examples.mutual_extracted)
    as (text & v' & s' & Hrun & _ & Hh).
  - rewrite mutual_targets_size. lia.
  - exists text, v', s'. split; [exact Hrun | exact Hh].
Defined.

(** X24: the text of a call tree starts with the line of the call itself:
    two spaces for each level of depth, then the name of the function that
    the lookup of the name finds, in the source file given or located for
    it or else in the whole project, or the name asked for when it finds
    none, then the file given and the line number; for a function that is
    visited already, as in a cycle, and for one that is not found, the text
    is this line alone and the set of visited functions is left as it was;
    for an absent function name the text is empty. *)
Theorem X24_calltree_text
    project source_file source_code function visited depth line_number limit
    s text visited' s' :
  Calltree.extract_calltree limit project source_file source_code function
    visited depth line_number s = (Ok (text, visited'), s') ->
  (Py.truthy function = false -> text = EmptyString /\ visited' = visited) /\
  (Py.truthy function = true ->
   exists rest,
     text = Calltree.line_to_print depth
              (calltree_name project source_code function s) source_file
              line_number ++ rest) /\
  (Py.truthy function = true ->
   function ∈ visited \/
   calltree_function project source_code function s = None ->
   text = Calltree.line_to_print depth
            (calltree_name project source_code function s) source_file
            line_number /\
   visited' = visited).
Proof.
  intros Hrun. split; [|split].
  - intros Ht. destruct limit as [|limit]; [discriminate Hrun|].
    cbn [Calltree.extract_calltree] in Hrun. rewrite Ht in Hrun.
    cbn [negb] in Hrun. now injection Hrun as <- <- _.
  - intros Ht. apply extract_calltree_sound in Hrun.
    destruct Hrun as (_ & _ & Hline & _). exact (Hline Ht).
  - intros Ht Hcut. apply extract_calltree_sound in Hrun.
    destruct Hrun as (_ & _ & _ & Hone).
    specialize (Hone Ht Hcut). now injection Hone as -> ->.
Qed.

Lemma mutual_calltree :
  Calltree.extract_calltree 4 Examples.mutual_full EmptyString None "a" ∅ 0
    (-1) Examples.mutual_extracted
  = (Ok ("a  -1" ++ Calltree.newline ++ "  b m.cpp 1" ++ Calltree.newline
           ++ "    a m.cpp 2" ++ Calltree.newline,
         {[ "a"; "b" ]}),
     snd (Calltree.extract_calltree 4 Examples.mutual_full EmptyString None
            "a" ∅ 0 (-1) Examples.mutual_extracted)).
Proof. vm_compute. reflexivity. Qed.

Lemma mutual_calltree_name :
  calltree_name Examples.mutual_full None "a" Examples.mutual_extracted = "a".
Proof. vm_compute. reflexivity. Qed.

Lemma X24_calltree_text_witness :
  exists rest,
    "a  -1" ++ Calltree.newline ++ "  b m.cpp 1" ++ Calltree.newline
      ++ "    a m.cpp 2" ++ Calltree.newline
    = Calltree.line_to_print 0 "a" EmptyString (-1) ++ rest.
Proof.
  rewrite <- mutual_calltree_name.
  exact (proj1 (proj2 (X24_calltree_text _ _ _ _ _ _ _ _ _ _ _ _
                         mutual_calltree)) eq_refl).
Defined.

(** ** Depth of a function without callees in the project *)

Lemma depth_loop_unresolved
    (recurse : ref -> list string -> M State (Z * list string))
    project function l :
  forall d visited s,
    (forall callsite, In callsite l ->
       CppProjectM._find_source_with_func_def (heap s) project (fst callsite)
       = None) ->
    CppProjectM.depth_loop recurse project function l d visited s
    = (Ok (d, (visited ++ List.map fst l)%list), s).
Proof.
  induction l as [|callsite l IH]; intros d visited s Hnone.
  - cbn. now rewrite app_nil_r.
  - cbn [CppProjectM.depth_loop]. unfold bind, get. cbn [fst snd].
    rewrite (Hnone callsite (or_introl eq_refl)).
    rewrite IH by (intros c Hc; apply Hnone; now right).
    cbn [List.map]. now rewrite <- app_assoc.
Qed.

(** X25: calls that lead out of the project do not count for the depth: a
    function without a memoized depth, none of whose call sites has a
    target with a single defining source file in the project, has depth 0
    under every recursion limit of at least 1, and the computation
    memoizes nothing: it leaves the state as it was. *)
Theorem X25_depth_without_project_callees project limit function f s :
  heap s !! function = Some f ->
  depth f = -1 ->
  (forall callsite, In callsite (base_callsites f) ->
     CppProjectM._find_source_with_func_def (heap s) project (fst callsite)
     = None) ->
  CppProjectM._calculate_function_depth (S limit) project function s
  = (Ok 0, s).
Proof.
  intros Hf Hd Hnone.
  unfold CppProjectM._calculate_function_depth.
  cbn [CppProjectM._recursive_function_depth]. unfold bind, get.
  cbn [fst snd]. rewrite Hf, Hd. cbn [Z.eqb negb Pos.eqb].
  destruct (base_callsites f) as [|c cs] eqn:Hcs; [reflexivity|].
  now rewrite depth_loop_unresolved.
Qed.

Lemma twice_callsites :
  base_callsites (Examples.object (heap Examples.twice_extracted) 0%nat)
  = [("foo", 1); ("foo", 1)].
Proof. vm_compute. reflexivity. Qed.

Lemma X25_depth_without_project_callees_witness :
  CppProjectM._calculate_function_depth 1 Examples.twice_project 0%nat
    Examples.twice_extracted
  = (Ok 0, Examples.twice_extracted).
Proof.
  apply (X25_depth_without_project_callees Examples.twice_project 0 0%nat
           (Examples.object (heap Examples.twice_extracted) 0%nat)).
  - vm_compute. reflexivity.
  - vm_compute. reflexivity.
  - rewrite twice_callsites. intros callsite [<-|[<-|[]]];
      vm_compute; reflexivity.
Defined.

(** ** Targets of the recorded call sites *)

Lemma named_targets_ret_nil : named_targets (ret []).
Proof. intros st r st' [= <- _]. constructor. Qed.

Lemma named_targets_bind {A} (m : M FunctionDefinitionM.St A)
    (k : A -> M FunctionDefinitionM.St (list Callsite)) :
  (forall a, named_targets (k a)) -> named_targets (bind m k).
Proof.
  intros Hk st r st' H. apply bind_ok_inv in H.
  destruct H as (a & s1 & _ & H). eapply Hk, H.
Qed.

Lemma truthy_app_l (s t : string) :
  Py.truthy s = true -> Py.truthy (s ++ t) = true.
Proof. now destruct s. Qed.

Lemma truthy_scoped (s t : string) : Py.truthy (s ++ "::" ++ t) = true.
Proof. now destruct s. Qed.

Lemma named_targets_process_invoke expr project :
  named_targets (FunctionDefinitionM._process_invoke expr project).
Proof.
  unfold FunctionDefinitionM._process_invoke.
  apply named_targets_bind. intros _.
  destruct (child_by_field_name "function" expr) as [func|];
    [|apply named_targets_ret_nil].
  apply named_targets_bind. intros target_name.
  destruct (Py.truthy target_name) eqn:Ht; [|apply named_targets_ret_nil].
  apply named_targets_bind. intros f.
  apply named_targets_bind. intros s.
  intros st r st' [= <- _]. constructor; [|constructor]. cbn [fst].
  destruct (negb (Py.contains "::" target_name)
            && Py.truthy (namespace_or_class f)); [|exact Ht].
  destruct (CppSourceCodeFileLookup.find_func _ _ _); [|exact Ht].
  apply truthy_scoped.
Qed.

Lemma named_targets_process_declaration stmt project :
  named_targets (FunctionDefinitionM.process_declaration stmt project).
Proof.
  unfold FunctionDefinitionM.process_declaration.
  destruct (child_by_field_name "type" stmt) as [var_type_obj|];
    [|apply named_targets_ret_nil].
  destruct (Py.mem (ntype var_type_obj) _); [apply named_targets_ret_nil|].
  apply named_targets_bind. intros var_type.
  destruct (child_by_field_name "declarator" stmt) as [var_name|];
    [|apply named_targets_ret_nil].
  destruct (negb (text_truthy var_name)); [apply named_targets_ret_nil|].
  apply named_targets_bind. intros _.
  apply named_targets_bind. intros s.
  destruct (skip_to_declarator (Some var_name)) as [vn|];
    [|apply named_targets_ret_nil].
  destruct (_extract_pointer_array_from_type vn) as [[pcount acount] vn'].
  apply named_targets_bind. intros _.
  intros st r st' [= <- _].
  destruct (ntype var_name =? "identifier")%string; [|constructor].
  destruct (FunctionDefinitionM.get_function_from_name _ _ _);
    [|constructor].
  constructor; [|constructor]. apply truthy_scoped.
Qed.

Lemma named_targets_process_callsites stmt project :
  named_targets (FunctionDefinitionM._process_callsites stmt project).
Proof.
  unfold FunctionDefinitionM._process_callsites.
  apply named_targets_bind. intros _.
  destruct (ntype stmt =? "call_expression")%string;
    [apply named_targets_process_invoke|].
  destruct (ntype stmt =? "new_expression")%string.
  { destruct (child_by_field_name "type" stmt) as [ctr_type|];
      [|apply named_targets_ret_nil].
    destruct (text_truthy ctr_type); [|apply named_targets_ret_nil].
    apply named_targets_bind. intros cls.
    intros st r st' [= <- _]. constructor; [|constructor].
    apply truthy_scoped. }
  destruct (ntype stmt =? "declaration")%string;
    [apply named_targets_process_declaration | apply named_targets_ret_nil].
Qed.

Lemma visit_named project node visited callsites st r st' :
  FunctionDefinitionM.visit project node visited callsites st = (Ok r, st') ->
  Forall (fun c => Py.truthy (fst (fst c)) = true) callsites ->
  Forall (fun c => Py.truthy (fst (fst c)) = true) (snd r).
Proof.
  unfold FunctionDefinitionM.visit. intros H Hc.
  destruct (bool_decide _); [now injection H as <- _|].
  apply bind_ok_inv in H. destruct H as (found & s1 & Hfound & H).
  injection H as <- _. cbn [snd]. apply Forall_app. split; [exact Hc|].
  unfold try_except_decode in Hfound.
  destruct (FunctionDefinitionM._process_callsites node project st)
    as [[r0|[| |]] s0] eqn:E; try discriminate Hfound.
  - injection Hfound as <- _.
    eapply named_targets_process_callsites, E.
  - injection Hfound as <- _. constructor.
Qed.

Lemma traverse_named fuel project :
  forall cursor visited callsites st r st',
    FunctionDefinitionM.traverse fuel project cursor visited callsites st
      = (Ok r, st') ->
    Forall (fun c => Py.truthy (fst (fst c)) = true) callsites ->
    Forall (fun c => Py.truthy (fst (fst c)) = true) r.
Proof.
  induction fuel as [|fuel IH]; intros cursor visited callsites st r st' H Hc.
  - now injection H as <- _.
  - cbn [FunctionDefinitionM.traverse] in H.
    apply bind_ok_inv in H. destruct H as (r1 & s1 & Hvisit & H).
    apply visit_named in Hvisit; [|exact Hc].
    destruct (next_node cursor); [eapply IH; eassumption|].
    now injection H as <- _.
Qed.

(** X26: no call site is recorded without a target: when the recorded
    call sites of a function have target names that are not empty, as
    they trivially do before the first extraction, so do those recorded
    after an extraction. *)
Theorem X26_callsite_targets_named project f g :
  Forall (fun c => Py.truthy (fst c) = true) (base_callsites f) ->
  Forall (fun c => Py.truthy (fst c) = true)
    (base_callsites
       (fst (snd (FunctionDefinitionM.extract_callsites project (f, g))))).
Proof.
  intros Hinv.
  destruct (base_callsites f) as [|c cs] eqn:Hbase.
  - destruct (extract_callsites_fresh project f g Hbase)
      as (found & fv & g' & f' & Hvisit & Hrun & Hb).
    rewrite Hrun. cbn [fst snd]. rewrite Hb.
    rewrite <- traverse_preorder in Hvisit.
    apply traverse_named in Hvisit; [|constructor].
    apply List.Forall_forall. intros x Hx.
    apply List.in_map_iff in Hx. destruct Hx as (y & <- & Hy).
    unfold drop_offset. cbn [fst].
    assert (Hin : In y found).
    { apply py_set_in.
      eapply Permutation_in; [apply sorted_perm | exact Hy]. }
    exact (proj1 (List.Forall_forall _ _) Hvisit y Hin).
  - unfold FunctionDefinitionM.extract_callsites, bind,
      FunctionDefinitionM.self, ret.
    cbn [fst snd]. rewrite Hbase. cbn [fst snd].
    destruct (detailed_callsites f); cbn [fst snd base_callsites];
      [|now rewrite Hbase].
    change (base_callsites (set_detailed_callsites ?v f))
      with (base_callsites f). now rewrite Hbase.
Qed.

Lemma X26_callsite_targets_named_witness :
  Forall (fun c => Py.truthy (fst c) = true)
    (base_callsites
       (fst (snd (FunctionDefinitionM.extract_callsites Examples.mutual_full
                    (Examples.object Examples.mutual_heap 0%nat,
                     mkState Examples.mutual_heap ∅))))).
Proof.
  apply X26_callsite_targets_named. vm_compute. constructor.
Defined.

(** ** The name of a function *)

Lemma scope_from_parents_plain ancestors full_name :
  Forall (fun p => ntype p <> "class_specifier" /\
                   ntype p <> "namespace_definition") ancestors ->
  FunctionDefinitionInit.scope_from_parents ancestors full_name = Ok full_name.
Proof.
  induction 1 as [|p ancestors [Hc Hn] _ IH]; [reflexivity|].
  cbn [FunctionDefinitionInit.scope_from_parents].
  apply String.eqb_neq in Hc, Hn. rewrite Hc, Hn. exact IH.
Qed.

Lemma walk_declarators_plain declarator id nm :
  ntype declarator = "function_declarator" ->
  child_by_field_name "scope" declarator = None ->
  child_by_field_name "name" declarator = None ->
  child_by_field_name "declarator" declarator = Some id ->
  ntype id = "identifier" ->
  child_by_field_name "scope" id = None ->
  ntext id = Some (Utf8 nm) ->
  FunctionDefinitionInit.walk_declarators (field_chain "declarator" declarator)
    EmptyString EmptyString = Ok (nm, EmptyString).
Proof.
  intros Hty Hscope Hname Hdecl Hid Hidscope Htext.
  rewrite field_chain_unfold, Hdecl, (field_chain_unfold _ id).
  cbn [FunctionDefinitionInit.walk_declarators].
  rewrite Hty, Hscope, Hname. cbn.
  rewrite Hid, Hidscope. cbn. unfold decode. now rewrite Htext.
Qed.

(** X27: a plain function is named by its identifier: for a function
    definition whose declarator is a function declarator around an
    identifier, without scope, outside every class and namespace block,
    the function object is named like the identifier, and it stays in the
    scope in which it was processed. *)
Theorem X27_plain_function_name
    node ancestors file namespace declarator id nm F :
  (ntype node =? "preproc_function_def")%string = false ->
  child_by_field_name "declarator" node = Some declarator ->
  ntype declarator = "function_declarator" ->
  child_by_field_name "scope" declarator = None ->
  child_by_field_name "name" declarator = None ->
  child_by_field_name "declarator" declarator = Some id ->
  ntype id = "identifier" ->
  child_by_field_name "scope" id = None ->
  ntext id = Some (Utf8 nm) ->
  Py.truthy nm = true ->
  Py.contains "::" nm = false ->
  Forall (fun p => ntype p <> "class_specifier" /\
                   ntype p <> "namespace_definition") ancestors ->
  FunctionDefinitionInit.new node ancestors file namespace = Ok F ->
  name F = nm /\ namespace_or_class F = namespace.
Proof.
  intros Hnode Hd Hty Hscope Hname Hdecl Hid Hidscope Htext Hnm Hplain Hanc.
  unfold FunctionDefinitionInit.new, FunctionDefinitionInit._extract_information.
  cbn [root FunctionDefinitionInit.initial]. rewrite Hnode.
  unfold FunctionDefinitionInit.extract_function.
  cbn [root FunctionDefinitionInit.initial]. rewrite Hd.
  rewrite (scope_from_parents_plain _ _ Hanc).
  rewrite (walk_declarators_plain _ _ _ Hty Hscope Hname Hdecl Hid Hidscope
             Htext).
  intros H.
  destruct (decode declarator) as [sig|]; [|discriminate H].
  cbn [res_bind] in H.
  destruct (FunctionDefinitionInit.scan_declarator_children _ _)
    as [param_list_node|]; [|discriminate H].
  cbn [res_bind] in H. rewrite Hnm in H.
  change (EmptyString ++ EmptyString ++ nm) with nm in H.
  rewrite Hplain in H.
  res_inv H.
  all: repeat match type of H with
         | context [let '(_, _) := ?p in _] => destruct p
         end; res_inv H.
  all: injection H as <-; split; reflexivity.
Qed.

Lemma X27_plain_function_name_witness :
  exists F,
    FunctionDefinitionInit.new Examples.fun_a [Examples.mutual_unit] "m.cpp"
      EmptyString = Ok F /\
    name F = "a" /\ namespace_or_class F = EmptyString.
Proof.
  destruct (FunctionDefinitionInit.new Examples.fun_a [Examples.mutual_unit]
              "m.cpp" EmptyString) as [F|e] eqn:E;
    [|exfalso; vm_compute in E; discriminate E].
  exists F. split; [reflexivity|].
  eapply (X27_plain_function_name Examples.fun_a [Examples.mutual_unit]
            "m.cpp" EmptyString _ _ "a" F);
    try reflexivity; [|exact E].
  constructor; [|constructor]. split; discriminate.
Defined.
